(** * Loan grid: filter / sort / query cache / pagination store / visible range

    A shallow embedding of the grid's core:
    - [utils.ts]: [sortLoans], [filterLoans], [getCacheKey],
      [calculateVisibleRange];
    - [composables/useLoanStore.ts]: the module-level store, the memoised
      [filteredAndSortedLoans] query and the store actions.

    Conventions of the embedding.
    - JavaScript numbers that hold counts are modelled as exact numbers:
      record ids, page sizes and array indices as integers, amounts as
      canonical rationals ([Qc]).  The scroll geometry is modelled twice:
      with the arithmetic read exactly, over the rationals ([Q]), and as the
      engine evaluates it, on binary64 numbers (module [Binary64]: rounding
      to nearest, ties to even, signed zeros, infinities and [NaN]).
    - JavaScript strings are modelled as [string]; [<] on strings is the
      lexicographic order on character codes ([String.ltb]).
      [String.prototype.toLowerCase] is a parameter of the development
      (class [LowerCase]), so that nothing proved below depends on a
      particular case mapping.
    - [Array.prototype.sort] is stable and, for a consistent comparator,
      returns the unique stable arrangement; it is modelled by a stable
      insertion sort driven by the source's comparator. *)

From Stdlib Require Import ZArith QArith Qround Qpower Qcanon String Ascii
  List Lia Lqa SpecFloat.
From stdpp Require Import base decidable countable numbers strings list
  sorting gmap.

Local Open Scope Z_scope.
Local Open Scope string_scope.

(** ** Data model ([types/index.ts]) *)

Inductive LoanStatus := Pending | Approved | Rejected.

(** The string a status literal stands for. *)
Definition status_text (st : LoanStatus) : string :=
  match st with
  | Pending => "Pending"
  | Approved => "Approved"
  | Rejected => "Rejected"
  end.

Record Loan := mkLoan {
  id : Z;
  borrowerName : string;
  amount : Qc;
  status : LoanStatus;
  closeDate : string
}.

Inductive SortDirection := Asc | Desc | NoDirection.

(** [SortableColumn = keyof Loan]. *)
Inductive SortableColumn :=
  ColId | ColBorrowerName | ColAmount | ColStatus | ColCloseDate.

Record SortState := mkSortState {
  column : option SortableColumn;
  direction : SortDirection
}.

Record FilterState := mkFilterState {
  search : string;
  fstatus : string;
  minAmount : option Qc;
  maxAmount : option Qc;
  startDate : option string;
  endDate : option string
}.

Record PaginationState := mkPaginationState {
  pageSize : nat;
  currentPage : nat;
  totalPages : nat;
  loadedRowsCount : nat
}.

(** ** JavaScript primitives used by the utilities *)

(** [String.prototype.toLowerCase]. *)
Class LowerCase := toLowerCase : string -> string.

(** A case mapping on the ASCII letters, used to run the code on examples. *)
Definition ascii_lower (c : ascii) : ascii :=
  let n := nat_of_ascii c in
  if (Nat.leb 65 n && Nat.leb n 90)%bool then ascii_of_nat (n + 32) else c.

Fixpoint ascii_toLowerCase (s : string) : string :=
  match s with
  | EmptyString => EmptyString
  | String c s' => String (ascii_lower c) (ascii_toLowerCase s')
  end.

(** [String.prototype.includes]: [t] occurs in [s] as a contiguous run. *)
Fixpoint includes (s t : string) : bool :=
  if String.prefix t s then true
  else match s with
       | EmptyString => false
       | String _ s' => includes s' t
       end.

(** Truthiness of a string: every string but the empty one. *)
Definition truthy (s : string) : bool :=
  match s with EmptyString => false | _ => true end.

(** Truthiness of an optional string ([undefined] is falsy). *)
Definition truthy_opt (o : option string) : bool :=
  match o with Some s => truthy s | None => false end.

(** A value read from a record by [a[column]]: a number or a string. *)
Inductive Value := VNum (q : Qc) | VStr (s : string).

Definition Qc_ltb (x y : Qc) : bool :=
  match (x ?= y)%Qc with Lt => true | _ => false end.

(** [aVal < bVal].  Both operands come from the same column, so they have
    the same type; the mixed cases never arise. *)
Definition value_lt (a b : Value) : bool :=
  match a, b with
  | VNum x, VNum y => Qc_ltb x y
  | VStr x, VStr y => String.ltb x y
  | _, _ => false
  end.

Definition get_column (c : SortableColumn) (l : Loan) : Value :=
  match c with
  | ColId => VNum (Qc_of_Z (id l))
  | ColBorrowerName => VStr (borrowerName l)
  | ColAmount => VNum (amount l)
  | ColStatus => VStr (status_text (status l))
  | ColCloseDate => VStr (closeDate l)
  end.

(** [[...loans].sort(cmp)]: stable insertion sort.  [x] is placed before the
    first element it does not compare greater than, so records that compare
    equal keep their input order. *)
Fixpoint sort_insert {A} (cmp : A -> A -> Z) (x : A) (l : list A) : list A :=
  match l with
  | [] => [x]
  | y :: l' => if (cmp x y <=? 0)%Z then x :: y :: l'
               else y :: sort_insert cmp x l'
  end.

Fixpoint array_sort {A} (cmp : A -> A -> Z) (l : list A) : list A :=
  match l with
  | [] => []
  | x :: l' => sort_insert cmp x (array_sort cmp l')
  end.

(** [Array.prototype.slice(start, end)] for indices [0 <= start <= end]. *)
Definition slice {A} (start stop : nat) (l : list A) : list A :=
  take (stop - start) (drop start l).

(** [Math.ceil(a / b)] on naturals, for [b > 0].  (For [b = 0] JavaScript
    yields [Infinity] or [NaN], which the embedding does not represent.) *)
Definition ceil_div (a b : nat) : nat :=
  match b with
  | O => O
  | S _ => Nat.div (a + b - 1) b
  end.

(** ** [utils.ts] *)

Section Utils.
Context `{LowerCase}.

(** The value compared by the sort callback: strings are lower-cased. *)
Definition sort_value (c : SortableColumn) (l : Loan) : Value :=
  match get_column c l with
  | VStr s => VStr (toLowerCase s)
  | v => v
  end.

(** The callback handed to [sort] by [sortLoans]. *)
Definition sortLoans_compare
    (c : SortableColumn) (d : SortDirection) (a b : Loan) : Z :=
  let aVal := sort_value c a in
  let bVal := sort_value c b in
  let result :=
    if value_lt aVal bVal then (-1)%Z
    else if value_lt bVal aVal then 1%Z
    else (id a - id b)%Z in
  match d with Desc => (- result)%Z | _ => result end.

Definition sortLoans
    (loans : list Loan) (c : option SortableColumn) (d : SortDirection)
    : list Loan :=
  match c, d with
  | None, _ => loans
  | _, NoDirection => loans
  | Some col, _ => array_sort (sortLoans_compare col d) loans
  end.

(** The predicate handed to [filter] by [filterLoans]. *)
Definition filterLoans_keep (filters : FilterState) (loan : Loan) : bool :=
  if (truthy (search filters) &&
      negb (includes (toLowerCase (borrowerName loan))
                     (toLowerCase (search filters))))%bool
  then false
  else if (truthy (fstatus filters) &&
           negb (String.eqb (fstatus filters) "All") &&
           negb (String.eqb (status_text (status loan)) (fstatus filters)))%bool
  then false
  else if match minAmount filters with
          | Some m => Qc_ltb (amount loan) m
          | None => false
          end
  then false
  else if match maxAmount filters with
          | Some m => Qc_ltb m (amount loan)
          | None => false
          end
  then false
  else if (truthy_opt (startDate filters) &&
           match startDate filters with
           | Some d => String.ltb (closeDate loan) d
           | None => false
           end)%bool
  then false
  else if (truthy_opt (endDate filters) &&
           match endDate filters with
           | Some d => String.ltb d (closeDate loan)
           | None => false
           end)%bool
  then false
  else true.

Definition filterLoans (loans : list Loan) (filters : FilterState)
    : list Loan :=
  List.filter (filterLoans_keep filters) loans.

End Utils.

(** [getCacheKey]: the key is [JSON.stringify({ filters, sortColumn,
    sortDirection })].  The text is a canonical encoding of the three
    serialised components (for the strings and finite numbers of this
    development, two keys are the same text exactly when the components
    agree), so a key is modelled by the data it encodes. *)
Record CacheKey := mkCacheKey {
  key_filters : FilterState;
  key_sortColumn : option SortableColumn;
  key_sortDirection : SortDirection
}.

Definition getCacheKey (filters : FilterState)
    (sortColumn : option SortableColumn) (sortDirection : SortDirection)
    : CacheKey :=
  mkCacheKey filters sortColumn sortDirection.

#[global] Instance SortDirection_eq_dec : EqDecision SortDirection.
Proof. solve_decision. Defined.
#[global] Instance SortableColumn_eq_dec : EqDecision SortableColumn.
Proof. solve_decision. Defined.
#[global] Instance FilterState_eq_dec : EqDecision FilterState.
Proof. solve_decision. Defined.
#[global] Instance CacheKey_eq_dec : EqDecision CacheKey.
Proof. solve_decision. Defined.

#[global] Instance SortDirection_countable : Countable SortDirection.
Proof.
  refine (inj_countable'
    (fun d => match d with Asc => 0%nat | Desc => 1%nat | NoDirection => 2%nat end)
    (fun n => match n with 0%nat => Asc | 1%nat => Desc | _ => NoDirection end) _).
  intros []; reflexivity.
Defined.

#[global] Instance SortableColumn_countable : Countable SortableColumn.
Proof.
  refine (inj_countable'
    (fun c => match c with
              | ColId => 0%nat | ColBorrowerName => 1%nat | ColAmount => 2%nat
              | ColStatus => 3%nat | ColCloseDate => 4%nat end)
    (fun n => match n with
              | 0%nat => ColId | 1%nat => ColBorrowerName | 2%nat => ColAmount
              | 3%nat => ColStatus | _ => ColCloseDate end) _).
  intros []; reflexivity.
Defined.

#[global] Instance FilterState_countable : Countable FilterState.
Proof.
  refine (inj_countable'
    (fun f => (search f, fstatus f, minAmount f, maxAmount f,
               startDate f, endDate f))
    (fun t => let '(a, b, c, d, e, g) := t in mkFilterState a b c d e g) _).
  intros []; reflexivity.
Defined.

#[global] Instance CacheKey_countable : Countable CacheKey.
Proof.
  refine (inj_countable'
    (fun k => (key_filters k, key_sortColumn k, key_sortDirection k))
    (fun t => let '(a, b, c) := t in mkCacheKey a b c) _).
  intros []; reflexivity.
Defined.

(** [calculateVisibleRange] with the arithmetic read exactly: the floor and
    the ceiling of the rational quotients; [overscan] has the default value
    5.  [Binary64.calculateVisibleRange] below is the same function on
    binary64 numbers. *)
Record VisibleRange := mkVisibleRange {
  startIndex : Z;
  endIndex : Z
}.

Definition calculateVisibleRange
    (scrollTop containerHeight itemHeight : Q) (totalItems : Z)
    (overscan : option Z) : VisibleRange :=
  let overscan := default 5%Z overscan in
  let startIndex :=
    Z.max 0 (Qfloor (scrollTop / itemHeight) - overscan) in
  let endIndex :=
    Z.min (totalItems - 1)
          (Qceiling ((scrollTop + containerHeight) / itemHeight) + overscan) in
  mkVisibleRange startIndex endIndex.

(** ** [composables/useLoanStore.ts] *)

(** The module-level state.  [resultCache] is the [Map] held beside the refs.
    The last two fields are the state of the reactive [computed] wrapper
    around the query: the value it holds while it is clean ([None] while it
    is dirty or was never evaluated), and whether its last evaluation read
    [allLoans] (the wrapper is made dirty by an assignment to a ref that its
    last evaluation read). *)
Record Store := mkStore {
  allLoans : list Loan;
  loadedLoans : list Loan;
  isLoading : bool;
  error : option string;
  sortState : SortState;
  filterState : FilterState;
  paginationState : PaginationState;
  resultCache : gmap CacheKey (list Loan);
  computedValue : option (list Loan);
  computedReadsAllLoans : bool
}.

Definition initialStore : Store :=
  {| allLoans := [];
     loadedLoans := [];
     isLoading := false;
     error := None;
     sortState := mkSortState None NoDirection;
     filterState := mkFilterState "" "All" None None None None;
     paginationState := mkPaginationState 25 0 0 0;
     resultCache := ∅;
     computedValue := None;
     computedReadsAllLoans := false |}.

(** Field updates. *)
Definition set_loadedLoans (v : list Loan) (s : Store) : Store :=
  mkStore (allLoans s) v (isLoading s) (error s) (sortState s)
    (filterState s) (paginationState s) (resultCache s) (computedValue s)
    (computedReadsAllLoans s).

Definition set_isLoading (v : bool) (s : Store) : Store :=
  mkStore (allLoans s) (loadedLoans s) v (error s) (sortState s)
    (filterState s) (paginationState s) (resultCache s) (computedValue s)
    (computedReadsAllLoans s).

Definition set_error (v : option string) (s : Store) : Store :=
  mkStore (allLoans s) (loadedLoans s) (isLoading s) v (sortState s)
    (filterState s) (paginationState s) (resultCache s) (computedValue s)
    (computedReadsAllLoans s).

Definition set_paginationState (v : PaginationState) (s : Store) : Store :=
  mkStore (allLoans s) (loadedLoans s) (isLoading s) (error s) (sortState s)
    (filterState s) v (resultCache s) (computedValue s)
    (computedReadsAllLoans s).

Definition set_resultCache (v : gmap CacheKey (list Loan)) (s : Store)
    : Store :=
  mkStore (allLoans s) (loadedLoans s) (isLoading s) (error s) (sortState s)
    (filterState s) (paginationState s) v (computedValue s)
    (computedReadsAllLoans s).

Definition set_computed (v : option (list Loan)) (reads : bool) (s : Store)
    : Store :=
  mkStore (allLoans s) (loadedLoans s) (isLoading s) (error s) (sortState s)
    (filterState s) (paginationState s) (resultCache s) v reads.

(** Assignments to the refs the query depends on. *)
Definition set_sortState (v : SortState) (s : Store) : Store :=
  mkStore (allLoans s) (loadedLoans s) (isLoading s) (error s) v
    (filterState s) (paginationState s) (resultCache s) None
    (computedReadsAllLoans s).

Definition set_filterState (v : FilterState) (s : Store) : Store :=
  mkStore (allLoans s) (loadedLoans s) (isLoading s) (error s) (sortState s)
    v (paginationState s) (resultCache s) None (computedReadsAllLoans s).

Definition set_allLoans (v : list Loan) (s : Store) : Store :=
  mkStore v (loadedLoans s) (isLoading s) (error s) (sortState s)
    (filterState s) (paginationState s) (resultCache s)
    (if computedReadsAllLoans s then None else computedValue s)
    (computedReadsAllLoans s).

Definition set_pageSize (n : nat) (p : PaginationState) : PaginationState :=
  mkPaginationState n (currentPage p) (totalPages p) (loadedRowsCount p).
Definition set_currentPage (n : nat) (p : PaginationState) : PaginationState :=
  mkPaginationState (pageSize p) n (totalPages p) (loadedRowsCount p).
Definition set_totalPages (n : nat) (p : PaginationState) : PaginationState :=
  mkPaginationState (pageSize p) (currentPage p) n (loadedRowsCount p).
Definition set_loadedRowsCount (n : nat) (p : PaginationState)
    : PaginationState :=
  mkPaginationState (pageSize p) (currentPage p) (totalPages p) n.

(** [Partial<FilterState>]: every field may be missing; an optional field
    that is present may carry [undefined]. *)
Record PartialFilterState := mkPartialFilterState {
  p_search : option string;
  p_status : option string;
  p_minAmount : option (option Qc);
  p_maxAmount : option (option Qc);
  p_startDate : option (option string);
  p_endDate : option (option string)
}.

(** [{ ...filterState.value, ...newFilter }]. *)
Definition merge_filter (f : FilterState) (p : PartialFilterState)
    : FilterState :=
  mkFilterState
    (default (search f) (p_search p))
    (default (fstatus f) (p_status p))
    (default (minAmount f) (p_minAmount p))
    (default (maxAmount f) (p_maxAmount p))
    (default (startDate f) (p_startDate p))
    (default (endDate f) (p_endDate p)).

(** What the awaited [fetch] and [response.json()] deliver. *)
Inductive Thrown := ThrownError (message : string) | ThrownOther.

Inductive JsonResult :=
  | JsonRejected (err : Thrown)
  | JsonParsed (data : list Loan).

Inductive FetchResult :=
  | FetchRejected (err : Thrown)
  | FetchResponse (ok : bool) (statusText : string) (json : JsonResult).

(** Statements that may throw: a completion and the resulting store. *)
Inductive Completion (A : Type) :=
  | Normal (a : A)
  | Throw (err : Thrown).
Arguments Normal {A} a.
Arguments Throw {A} err.

Definition Eff (A : Type) : Type := Store -> Completion A * Store.

Definition eff_ret {A} (a : A) : Eff A := fun s => (Normal a, s).
Definition eff_throw {A} (e : Thrown) : Eff A := fun s => (Throw e, s).
Definition eff_bind {A B} (m : Eff A) (k : A -> Eff B) : Eff B :=
  fun s => match m s with
           | (Normal a, s') => k a s'
           | (Throw e, s') => (Throw e, s')
           end.
Definition eff_lift (f : Store -> Store) : Eff unit :=
  fun s => (Normal tt, f s).

(** [try { body } catch (err) { handler } finally { fin }]. *)
Definition try_catch_finally {A}
    (body : Eff A) (handler : Thrown -> Eff A) (fin : Eff unit) : Eff A :=
  fun s =>
    let '(c, s1) :=
      match body s with
      | (Normal a, s') => (Normal a, s')
      | (Throw e, s') => handler e s'
      end in
    match fin s1 with
    | (Normal _, s2) => (c, s2)
    | (Throw e, s2) => (Throw e, s2)
    end.

Definition eff_seq {A B} (m : Eff A) (k : Eff B) : Eff B :=
  eff_bind m (fun _ => k).

Section StoreActions.
Context `{LowerCase}.

(** The getter handed to [computed]: the cached filter-then-sort query.
    Besides the result and the store (only [resultCache] changes), it
    reports whether [allLoans.value] was read, which happens on a miss
    only. *)
Definition filteredAndSortedLoans_getter (s : Store)
    : list Loan * bool * Store :=
  let cacheKey :=
    getCacheKey (filterState s) (column (sortState s))
                (direction (sortState s)) in
  match resultCache s !! cacheKey with
  | Some cached => (cached, false, s)
  | None =>
      let filtered := filterLoans (allLoans s) (filterState s) in
      let sorted :=
        sortLoans filtered (column (sortState s))
                  (direction (sortState s)) in
      let cache :=
        if Nat.ltb 100 (size (resultCache s)) then ∅ else resultCache s in
      (sorted, true, set_resultCache (<[cacheKey := sorted]> cache) s)
  end.

(** [filteredAndSortedLoans.value]: the getter runs only while the wrapper
    is dirty; otherwise the held value is returned. *)
Definition filteredAndSortedLoans (s : Store) : list Loan * Store :=
  match computedValue s with
  | Some v => (v, s)
  | None =>
      let '(v, reads, s') := filteredAndSortedLoans_getter s in
      (v, set_computed (Some v) reads s')
  end.

Definition loadNextPage (s : Store) : Store :=
  let pageSize := pageSize (paginationState s) in
  let currentPage := currentPage (paginationState s) in
  let startIndex := (currentPage * pageSize)%nat in
  let endIndex := (startIndex + pageSize)%nat in
  let '(view, s1) := filteredAndSortedLoans s in
  let nextPageData := slice startIndex endIndex view in
  if Nat.ltb 0 (length nextPageData) then
    let s2 :=
      if Nat.eqb currentPage 0 then set_loadedLoans nextPageData s1
      else set_loadedLoans (loadedLoans s1 ++ nextPageData) s1 in
    let s3 :=
      set_paginationState
        (set_currentPage (S (currentPage)) (paginationState s2)) s2 in
    let s4 :=
      set_paginationState
        (set_loadedRowsCount (length (loadedLoans s3)) (paginationState s3))
        s3 in
    let '(view', s5) := filteredAndSortedLoans s4 in
    set_paginationState
      (set_totalPages (ceil_div (length view') pageSize)
                      (paginationState s5)) s5
  else s1.

Definition setPageSize (newPageSize : nat) (s : Store) : Store :=
  let s1 := set_resultCache ∅ s in
  let s2 :=
    set_paginationState
      (set_loadedRowsCount 0
         (set_currentPage 0 (set_pageSize newPageSize (paginationState s1))))
      s1 in
  let '(view, s3) := filteredAndSortedLoans s2 in
  let s4 := set_loadedLoans (slice 0 newPageSize view) s3 in
  let s5 :=
    set_paginationState
      (set_loadedRowsCount (length (loadedLoans s4))
         (set_currentPage 1 (paginationState s4))) s4 in
  let '(view', s6) := filteredAndSortedLoans s5 in
  set_paginationState
    (set_totalPages (ceil_div (length view') newPageSize)
                    (paginationState s6)) s6.

Definition resetPagination (s : Store) : Store :=
  loadNextPage
    (set_paginationState
       (set_loadedRowsCount 0 (set_currentPage 0 (paginationState s))) s).

Definition setSortState (c : SortableColumn) (d : SortDirection)
    (s : Store) : Store :=
  resetPagination
    (set_sortState (mkSortState (Some c) d) (set_resultCache ∅ s)).

Definition setFilter (newFilter : PartialFilterState) (s : Store) : Store :=
  let s1 := set_resultCache ∅ s in
  resetPagination
    (set_filterState (merge_filter (filterState s1) newFilter) s1).

Definition clearCache (s : Store) : Store := set_resultCache ∅ s.

(** [loadInitialData].  The statements of the [try] block up to the first
    [await] run when the action is called. *)
Definition loadInitialData_begin (s : Store) : Store :=
  set_error None (set_isLoading true s).

(** The rest of the [try] block, run once the request has settled. *)
Definition loadInitialData_try (r : FetchResult) : Eff unit :=
  match r with
  | FetchRejected err => eff_throw err
  | FetchResponse ok statusText json =>
      if negb ok then
        eff_throw (ThrownError ("Failed to load data: " ++ statusText))
      else
        match json with
        | JsonRejected err => eff_throw err
        | JsonParsed data =>
            eff_seq (eff_lift (set_allLoans data)) (eff_lift loadNextPage)
        end
  end.

Definition loadInitialData_catch (err : Thrown) : Eff unit :=
  eff_lift (set_error
    (Some match err with
          | ThrownError message => message
          | ThrownOther => "Failed to load data"
          end)).

Definition loadInitialData_finally : Eff unit :=
  eff_lift (set_isLoading false).

Definition loadInitialData_settle (r : FetchResult) : Eff unit :=
  try_catch_finally (loadInitialData_try r) loadInitialData_catch
                    loadInitialData_finally.

(** The whole action, with nothing interleaved while the request is
    pending. *)
Definition loadInitialData (r : FetchResult) : Eff unit :=
  fun s => loadInitialData_settle r (loadInitialData_begin s).

(** The action surface of the store. *)
Inductive Action :=
  | LoadInitialData (r : FetchResult)
  | LoadNextPage
  | SetPageSize (n : nat)
  | SetSortState (c : SortableColumn) (d : SortDirection)
  | SetFilter (newFilter : PartialFilterState)
  | ResetPagination
  | ClearCache.

Definition step (s : Store) (a : Action) : Store :=
  match a with
  | LoadInitialData r => snd (loadInitialData r s)
  | LoadNextPage => loadNextPage s
  | SetPageSize n => setPageSize n s
  | SetSortState c d => setSortState c d s
  | SetFilter f => setFilter f s
  | ResetPagination => resetPagination s
  | ClearCache => clearCache s
  end.

Definition run (actions : list Action) (s : Store) : Store :=
  fold_left step actions s.

(** The uncached query on the current raw dataset and criteria. *)
Definition uncachedQuery (s : Store) : list Loan :=
  sortLoans (filterLoans (allLoans s) (filterState s))
            (column (sortState s)) (direction (sortState s)).

End StoreActions.


(** ** Orders used to state the sort properties *)

Section SortOrders.
Context `{LowerCase}.

(** [a]'s sort key is below [b]'s. *)
Definition key_lt (c : SortableColumn) (a b : Loan) : bool :=
  value_lt (sort_value c a) (sort_value c b).

(** By key, ties by ascending id. *)
Definition asc_order (c : SortableColumn) (a b : Loan) : Prop :=
  key_lt c a b = true \/
  (sort_value c a = sort_value c b /\ (id a <= id b)%Z).

(** By decreasing key, ties by descending id. *)
Definition desc_order (c : SortableColumn) (a b : Loan) : Prop :=
  key_lt c b a = true \/
  (sort_value c a = sort_value c b /\ (id b <= id a)%Z).

End SortOrders.

(** ** Criteria updates used to state the filter properties *)

Definition with_search (v : string) (f : FilterState) : FilterState :=
  mkFilterState v (fstatus f) (minAmount f) (maxAmount f) (startDate f)
                (endDate f).
Definition with_status (v : string) (f : FilterState) : FilterState :=
  mkFilterState (search f) v (minAmount f) (maxAmount f) (startDate f)
                (endDate f).
Definition with_minAmount (v : option Qc) (f : FilterState) : FilterState :=
  mkFilterState (search f) (fstatus f) v (maxAmount f) (startDate f)
                (endDate f).
Definition with_maxAmount (v : option Qc) (f : FilterState) : FilterState :=
  mkFilterState (search f) (fstatus f) (minAmount f) v (startDate f)
                (endDate f).
Definition with_startDate (v : option string) (f : FilterState)
    : FilterState :=
  mkFilterState (search f) (fstatus f) (minAmount f) (maxAmount f) v
                (endDate f).
Definition with_endDate (v : option string) (f : FilterState) : FilterState :=
  mkFilterState (search f) (fstatus f) (minAmount f) (maxAmount f)
                (startDate f) v.

(** [strengthens c c']: [c'] is [c] with one more present constraint.  A
    present date bound is a non-empty string (the empty string is falsy and
    imposes nothing), so a tightened end date must be non-empty; a tightened
    start date is non-empty as soon as the bound it replaces is. *)
Inductive strengthens : FilterState -> FilterState -> Prop :=
  | add_search c term :
      search c = "" -> strengthens c (with_search term c)
  | set_status c st :
      fstatus c = "" \/ fstatus c = "All" ->
      strengthens c (with_status st c)
  | add_minAmount c m :
      minAmount c = None -> strengthens c (with_minAmount (Some m) c)
  | tighten_minAmount c m m' :
      minAmount c = Some m -> (m <= m')%Qc ->
      strengthens c (with_minAmount (Some m') c)
  | add_maxAmount c m :
      maxAmount c = None -> strengthens c (with_maxAmount (Some m) c)
  | tighten_maxAmount c m m' :
      maxAmount c = Some m -> (m' <= m)%Qc ->
      strengthens c (with_maxAmount (Some m') c)
  | add_startDate c d :
      truthy_opt (startDate c) = false ->
      strengthens c (with_startDate (Some d) c)
  | tighten_startDate c d d' :
      startDate c = Some d -> String.leb d d' = true ->
      strengthens c (with_startDate (Some d') c)
  | add_endDate c d :
      truthy_opt (endDate c) = false ->
      strengthens c (with_endDate (Some d) c)
  | tighten_endDate c d d' :
      endDate c = Some d -> String.leb d' d = true -> truthy d' = true ->
      strengthens c (with_endDate (Some d') c).

(** The six tests of [filterLoans]' callback, in the order they are made;
    each one tells whether the record is rejected by that criterion. *)
Section FilterTests.
Context `{LowerCase}.

Definition rejects_search (f : FilterState) (loan : Loan) : bool :=
  (truthy (search f) &&
   negb (includes (toLowerCase (borrowerName loan))
                  (toLowerCase (search f))))%bool.

Definition rejects_status (f : FilterState) (loan : Loan) : bool :=
  (truthy (fstatus f) && negb (String.eqb (fstatus f) "All") &&
   negb (String.eqb (status_text (status loan)) (fstatus f)))%bool.

Definition rejects_minAmount (f : FilterState) (loan : Loan) : bool :=
  match minAmount f with
  | Some m => Qc_ltb (amount loan) m
  | None => false
  end.

Definition rejects_maxAmount (f : FilterState) (loan : Loan) : bool :=
  match maxAmount f with
  | Some m => Qc_ltb m (amount loan)
  | None => false
  end.

Definition rejects_startDate (f : FilterState) (loan : Loan) : bool :=
  match startDate f with
  | Some d => (truthy d && String.ltb (closeDate loan) d)%bool
  | None => false
  end.

Definition rejects_endDate (f : FilterState) (loan : Loan) : bool :=
  match endDate f with
  | Some d => (truthy d && String.ltb d (closeDate loan))%bool
  | None => false
  end.

End FilterTests.

(** ** Floor and ceiling

    [is_floor x n]: [n] is the greatest integer not above [x];
    [is_ceiling x n]: [n] is the least integer not below [x]. *)
Definition is_floor (x : Q) (n : Z) : Prop :=
  (inject_Z n <= x /\ x < inject_Z (n + 1))%Q.

Definition is_ceiling (x : Q) (n : Z) : Prop :=
  (inject_Z (n - 1) < x /\ x <= inject_Z n)%Q.

(** ** The view of the store *)

Section StoreView.
Context `{LowerCase}.

(** What [filteredAndSortedLoans.value] returns in a store, and the store
    after reading it. *)
Definition view (s : Store) : list Loan := fst (filteredAndSortedLoans s).
Definition refresh (s : Store) : Store := snd (filteredAndSortedLoans s).

(** The slice [loadNextPage] takes from the view. *)
Definition nextPage (s : Store) : list Loan :=
  let p := paginationState s in
  slice (currentPage p * pageSize p)
        (currentPage p * pageSize p + pageSize p) (view s).

(** The store [loadNextPage] leaves when the next page is not empty. *)
Definition loadNextPage_result (s : Store) : Store :=
  let p := paginationState s in
  let loaded :=
    if Nat.eqb (currentPage p) 0 then nextPage s
    else (loadedLoans s ++ nextPage s)%list in
  set_paginationState
    (mkPaginationState (pageSize p) (S (currentPage p))
       (ceil_div (length (view s)) (pageSize p)) (length loaded))
    (set_loadedLoans loaded (refresh s)).

End StoreView.

(** ** Outcomes of the initial load *)

(** The text the [catch] block derives from a thrown value. *)
Definition thrown_message (err : Thrown) : string :=
  match err with
  | ThrownError message => message
  | ThrownOther => "Failed to load data"
  end.

(** The failure paths of [loadInitialData] (network failure, non-OK
    response, parse failure) with the message each one records; [None] for
    a successful load. *)
Definition failure_message (r : FetchResult) : option string :=
  match r with
  | FetchRejected err => Some (thrown_message err)
  | FetchResponse false statusText _ =>
      Some ("Failed to load data: " ++ statusText)
  | FetchResponse true _ (JsonRejected err) => Some (thrown_message err)
  | FetchResponse true _ (JsonParsed _) => None
  end.

(** ** Concrete data used to run the code *)

Definition ascii_LowerCase : LowerCase := ascii_toLowerCase.

Definition loan_ann : Loan :=
  mkLoan 1 "Ann Lee" (Qc_of_Z 100) Approved "2024-03-01".
Definition loan_bob : Loan :=
  mkLoan 2 "Bob Ray" (Qc_of_Z 100) Pending "2024-05-01".

(** A successful response carrying two records. *)
Definition fetched_two : FetchResult :=
  FetchResponse true "OK" (JsonParsed [loan_ann; loan_bob]).

(** What the application does when it is mounted: [setPageSize(25)], then
    [loadInitialData]. *)
Definition store_after_mount : Store :=
  run (H := ascii_LowerCase)
      [SetPageSize 25; LoadInitialData fetched_two] initialStore.

(** A loaded store whose search term then matches no record. *)
Definition store_after_empty_search : Store :=
  run (H := ascii_LowerCase)
      [LoadInitialData fetched_two;
       SetFilter (mkPartialFilterState (Some "zzz") None None None None None)]
      initialStore.

(** A loaded store whose status filter then matches no record. *)
Definition store_after_empty_status : Store :=
  run (H := ascii_LowerCase)
      [LoadInitialData fetched_two;
       SetFilter
         (mkPartialFilterState None (Some "Rejected") None None None None)]
      initialStore.

(** Five records with amounts 100, 100, 50, 200, 50. *)
Definition five_loans : list Loan :=
  [mkLoan 1 "A" (Qc_of_Z 100) Pending "2024-01-01";
   mkLoan 2 "B" (Qc_of_Z 100) Approved "2024-01-02";
   mkLoan 3 "C" (Qc_of_Z 50) Rejected "2024-01-03";
   mkLoan 4 "D" (Qc_of_Z 200) Approved "2024-01-04";
   mkLoan 5 "E" (Qc_of_Z 50) Pending "2024-01-05"].

(** Sixty records and a store holding them, at page 0 with page size 25. *)
Definition sixty_loans : list Loan :=
  map (fun i : nat =>
         mkLoan (Z.of_nat i) "Borrower" (Qc_of_Z 1000) Approved "2024-01-01")
      (seq 1 60).

Definition store_sixty : Store := set_allLoans sixty_loans initialStore.

(** ** Invariants of the query cache *)

Section CacheInvariants.
Context `{LowerCase}.

(** The key of the criteria the store currently holds. *)
Definition current_key (s : Store) : CacheKey :=
  getCacheKey (filterState s) (column (sortState s)) (direction (sortState s)).

(** Every cache entry is filed under the key of the current criteria. *)
Definition cache_keys_current (s : Store) : Prop :=
  forall k v, resultCache s !! k = Some v -> k = current_key s.

(** The cache and the value held by the reactive wrapper agree with the
    uncached query on the current dataset. *)
Definition cache_coherent (s : Store) : Prop :=
  cache_keys_current s /\
  (forall v, resultCache s !! current_key s = Some v -> v = uncachedQuery s) /\
  (forall v, computedValue s = Some v -> v = uncachedQuery s).

(** The actions that assign a new raw dataset: a load that succeeds. *)
Definition replaces_dataset (a : Action) : bool :=
  match a with
  | LoadInitialData (FetchResponse true _ (JsonParsed _)) => true
  | _ => false
  end.

End CacheInvariants.

(** ** The prefix window *)

Section PrefixWindow.
Context `{LowerCase}.

(** The buffer is the first [currentPage * pageSize] rows of the view, and
    the advertised count is the length of the buffer. *)
Definition loaded_prefix (s : Store) : Prop :=
  let p := paginationState s in
  loadedLoans s = take (currentPage p * pageSize p) (view s) /\
  loadedRowsCount p = length (loadedLoans s).

(** The store [resetPagination] hands to [loadNextPage]. *)
Definition reset_counters (s : Store) : Store :=
  set_paginationState
    (set_loadedRowsCount 0 (set_currentPage 0 (paginationState s))) s.

End PrefixWindow.

(** ** Further notions used to state properties of the utilities *)

(** No two records of the sequence carry the same id. *)
Definition distinct_ids (loans : list Loan) : Prop :=
  NoDup (map id loans).

Section CriteriaNotions.
Context `{LowerCase}.

(** A record meets the criteria: the lower-cased name contains the
    lower-cased search term, the status is the requested one, the amount
    lies between the bounds and the close date between the dates, bounds
    included; an empty term, an empty or ["All"] status, a missing bound or
    an empty date impose nothing. *)
Definition criteria_met (c : FilterState) (loan : Loan) : Prop :=
  (search c = "" \/
   includes (toLowerCase (borrowerName loan)) (toLowerCase (search c))
   = true) /\
  (fstatus c = "" \/ fstatus c = "All" \/
   status_text (status loan) = fstatus c) /\
  (forall m, minAmount c = Some m -> (m <= amount loan)%Qc) /\
  (forall m, maxAmount c = Some m -> (amount loan <= m)%Qc) /\
  (forall d, startDate c = Some d ->
             d = "" \/ String.leb d (closeDate loan) = true) /\
  (forall d, endDate c = Some d ->
             d = "" \/ String.leb (closeDate loan) d = true).

(** Criteria that impose nothing. *)
Definition unconstrained (c : FilterState) : Prop :=
  search c = "" /\ (fstatus c = "" \/ fstatus c = "All") /\
  minAmount c = None /\ maxAmount c = None /\
  truthy_opt (startDate c) = false /\ truthy_opt (endDate c) = false.

End CriteriaNotions.

(** ** [composables/useVirtualScroll.ts] and the window of [VirtualTable.vue] *)

(** [Array.prototype.slice(start, end)] for arbitrary integer arguments: a
    negative index counts from the end of the array, and both indices are
    clamped to the array. *)
Definition array_slice {A} (start stop : Z) (l : list A) : list A :=
  let len := Z.of_nat (length l) in
  let k :=
    if (start <? 0)%Z then Z.max (len + start) 0 else Z.min start len in
  let final :=
    if (stop <? 0)%Z then Z.max (len + stop) 0 else Z.min stop len in
  take (Z.to_nat (final - k)) (drop (Z.to_nat k) l).

(** The scroll container, as far as the composable reads and writes it. *)
Record ScrollElement := mkScrollElement {
  el_scrollTop : Q;
  el_scrollHeight : Q;
  el_clientHeight : Q
}.

(** The state of one [useVirtualScroll(itemHeight, containerHeight,
    overscan)]: its three arguments and its two refs. *)
Record VirtualScroll := mkVirtualScroll {
  vs_itemHeight : Q;
  vs_containerHeight : Q;
  vs_overscan : Z;
  vs_scrollTop : Q;
  vs_scrollElement : option ScrollElement
}.

(** [useVirtualScroll(itemHeight, containerHeight, overscan = 5)] before an
    element is attached. *)
Definition useVirtualScroll (itemHeight containerHeight : Q)
    (overscan : option Z) : VirtualScroll :=
  mkVirtualScroll itemHeight containerHeight (default 5%Z overscan) 0 None.

Definition calculateVisibleItems (vs : VirtualScroll) (totalItems : Z)
    : VisibleRange :=
  calculateVisibleRange (vs_scrollTop vs) (vs_containerHeight vs)
                        (vs_itemHeight vs) totalItems (Some (vs_overscan vs)).

Definition scrollToTop (vs : VirtualScroll) : VirtualScroll :=
  match vs_scrollElement vs with
  | Some el =>
      mkVirtualScroll (vs_itemHeight vs) (vs_containerHeight vs)
        (vs_overscan vs) 0
        (Some (mkScrollElement 0 (el_scrollHeight el) (el_clientHeight el)))
  | None => vs
  end.


(** ** Further observers and callers of the store *)

Section StoreObservers.
Context `{LowerCase}.

(** The computed [totalFilteredCount] and [hasMoreData]: functions of the
    value of the query and of the buffer. *)
Definition totalFilteredCount (s : Store) : nat := length (view s).

Definition hasMoreData (s : Store) : bool :=
  Nat.ltb (length (loadedLoans s)) (length (view s)).

(** [LoanTableHeader.vue]: the direction shown for a column, the direction
    that follows it, and a click on a column header; the click emits
    [sort], which [App.vue] hands to [setSortState]. *)
Definition getSortDirection (st : SortState) (columnKey : SortableColumn)
    : SortDirection :=
  if decide (column st = Some columnKey) then direction st else NoDirection.

Definition getNextSortDirection (currentDirection : SortDirection)
    : SortDirection :=
  match currentDirection with
  | NoDirection => Asc
  | Asc => Desc
  | Desc => NoDirection
  end.

Definition handleSort (columnKey : SortableColumn) (s : Store) : Store :=
  let currentDirection := getSortDirection (sortState s) columnKey in
  let nextDirection := getNextSortDirection currentDirection in
  setSortState columnKey nextDirection s.

End StoreObservers.

Section FreshQuery.
Context `{LowerCase}.

(** The store holds no cached result and the reactive wrapper will
    re-evaluate the query after a new dataset is assigned: it was never
    evaluated, is dirty, or read the dataset the last time it ran. *)
Definition query_unevaluated (s : Store) : Prop :=
  resultCache s = ∅ /\
  (computedValue s = None \/ computedReadsAllLoans s = true).

(** The criteria [clearAllFilters] emits ([App.vue], [LoanFilters.vue]);
    [App.vue]'s watcher hands them to [setFilter]. *)
Definition clearedFilters : PartialFilterState :=
  mkPartialFilterState (Some "") (Some "All") (Some None) (Some None)
                       (Some None) (Some None).

(** A load that succeeds with [data]. *)
Definition fetched (statusText : string) (data : list Loan) : FetchResult :=
  FetchResponse true statusText (JsonParsed data).

End FreshQuery.

(** ** [debounce] and [throttle] ([utils.ts])

    The wrappers are driven by two kinds of events: a call of the wrapped
    function, and the expiry of the timer the wrapper has set.  When the
    timer expires is left open, so what holds for every sequence of events
    holds for every timing. *)
Inductive TimerEvent (A : Type) :=
  | Call (args : A)
  | TimerFires.
Arguments Call {A} args.
Arguments TimerFires {A}.

(** [debounce(func, wait)].  The state is the pending timer, with the
    arguments its callback will pass to [func]; a call clears it and sets a
    new one.  The result of a step is the new state and the calls of [func]
    it makes. *)
Definition debounce_step {A} (timeout : option A) (e : TimerEvent A)
    : option A * list A :=
  match e with
  | Call args => (Some args, [])
  | TimerFires =>
      match timeout with
      | Some args => (None, [args])
      | None => (None, [])
      end
  end.

(** [throttle(func, limit)].  The state is [inThrottle]; a call outside the
    window calls [func] at once and opens the window, a call inside it is
    dropped, and the timer closes the window. *)
Definition throttle_step {A} (inThrottle : bool) (e : TimerEvent A)
    : bool * list A :=
  match e with
  | Call args => if inThrottle then (true, []) else (true, [args])
  | TimerFires => (false, [])
  end.

(** A sequence of events, with the calls of [func] in the order made. *)
Fixpoint run_events {A St} (step : St -> TimerEvent A -> St * list A)
    (st : St) (events : list (TimerEvent A)) : St * list A :=
  match events with
  | [] => (st, [])
  | e :: rest =>
      let '(st1, out1) := step st e in
      let '(st2, out2) := run_events step st1 rest in
      (st2, (out1 ++ out2)%list)
  end.

(** The arguments of the calls among the events, and the number of timer
    expiries. *)
Fixpoint called {A} (events : list (TimerEvent A)) : list A :=
  match events with
  | [] => []
  | Call args :: rest => args :: called rest
  | TimerFires :: rest => called rest
  end.

Fixpoint fires {A} (events : list (TimerEvent A)) : nat :=
  match events with
  | [] => 0
  | Call _ :: rest => fires rest
  | TimerFires :: rest => S (fires rest)
  end.

(** ** Notifications ([App.vue]) *)

Inductive NotificationType := NSuccess | NError | NInfo.

Record Notification := mkNotification {
  n_id : nat;
  n_type : NotificationType;
  n_message : string
}.

(** The [notifications] ref and the [notificationId] counter. *)
Record Notifier := mkNotifier {
  notifications : list Notification;
  notificationId : nat
}.

Definition initialNotifier : Notifier := mkNotifier [] 0.

(** [addNotification]: [const id = ++notificationId], then [push]. *)
Definition addNotification (type : NotificationType) (message : string)
    (st : Notifier) : Notifier :=
  let id := S (notificationId st) in
  mkNotifier (notifications st ++ [mkNotification id type message])%list id.

(** [findIndex] followed by [splice(index, 1)]: the first notification with
    the id is removed, if there is one. *)
Fixpoint remove_first_id (id : nat) (l : list Notification)
    : list Notification :=
  match l with
  | [] => []
  | n :: rest =>
      if Nat.eqb (n_id n) id then rest else n :: remove_first_id id rest
  end.

Definition dismissNotification (id : nat) (st : Notifier) : Notifier :=
  mkNotifier (remove_first_id id (notifications st)) (notificationId st).

(** What happens to the notifier: a notification is added, or one is
    dismissed (by the user or by its timer). *)
Inductive NotifierEvent :=
  | Add (type : NotificationType) (message : string)
  | Dismiss (id : nat).

Definition notifier_step (st : Notifier) (e : NotifierEvent) : Notifier :=
  match e with
  | Add type message => addNotification type message st
  | Dismiss id => dismissNotification id st
  end.

(** ** Concrete inputs for the further properties *)


Definition hundred_items : list nat := seq 0 100.

(** The five records in the opposite order. *)
Definition five_loans_shuffled : list Loan :=
  [mkLoan 5 "E" (Qc_of_Z 50) Pending "2024-01-05";
   mkLoan 4 "D" (Qc_of_Z 200) Approved "2024-01-04";
   mkLoan 3 "C" (Qc_of_Z 50) Rejected "2024-01-03";
   mkLoan 2 "B" (Qc_of_Z 100) Approved "2024-01-02";
   mkLoan 1 "A" (Qc_of_Z 100) Pending "2024-01-01"].

(** The initial store after a successful load of the two records, and the
    store holding sixty records after [setPageSize(25)]. *)
Definition store_loaded_two : Store :=
  step (H := ascii_LowerCase) initialStore (LoadInitialData fetched_two).

Definition store_sixty_paged : Store :=
  setPageSize (H := ascii_LowerCase) 25 store_sixty.

(** ** The scroll geometry on binary64 numbers

    A JavaScript number is an IEEE 754 binary64 value.  [Fin q] is the
    finite value [q] (with [Fin 0] the positive zero); the negative zero,
    the two infinities and [NaN] are constructors of their own.  Every
    arithmetic operation returns the exact result rounded to the nearest
    binary64 value, ties to the even significand. *)
Module Binary64.

Inductive number :=
  | NaN
  | Infinity (negative : bool)
  | NegZero
  | Fin (q : Q).

(** An integer literal or an array length. *)
Definition of_Z (z : Z) : number := Fin (inject_Z z).

(** [Number.isSafeInteger]: the integers that binary64 arithmetic handles
    exactly. *)
Definition safe_integer (z : Z) : Prop := (- 2 ^ 53 < z < 2 ^ 53)%Z.

Definition zero (negative : bool) : number :=
  if negative then NegZero else Fin 0.

(** The binade of a positive rational: the [e] with
    [2 ^ e <= x < 2 ^ (e + 1)]. *)
Definition binade (x : Q) : Z :=
  let e := Z.log2 (Qnum x) - Z.log2 (Zpos (Qden x)) in
  if Qle_bool (2 ^ e) x then e else e - 1.

(** The spacing of the binary64 values around a positive [x]: 53
    significant bits, and [2 ^ -1074] in the subnormal range. *)
Definition quantum (x : Q) : Q := (2 ^ Z.max (binade x - 52) (-1074))%Q.

(** The integer nearest to [x], the even one of two equally near. *)
Definition nearest_even (x : Q) : Z :=
  let f := Qfloor x in
  match (x - inject_Z f ?= 1 # 2)%Q with
  | Lt => f
  | Gt => f + 1
  | Eq => if Z.even f then f else f + 1
  end.

(** A positive [x] rounded to the nearest multiple of its quantum. *)
Definition round_magnitude (x : Q) : Q :=
  Qred (inject_Z (nearest_even (x / quantum x)) * quantum x).

(** The binary64 value of an exact result: a magnitude of [2 ^ 1024] or
    more overflows to an infinity, a magnitude rounded to nothing is a zero
    of the sign of the result; [zero_sign] is the sign of an exact zero. *)
Definition round (zero_sign : bool) (x : Q) : number :=
  match (x ?= 0)%Q with
  | Eq => zero zero_sign
  | Gt => let y := round_magnitude x in
          if Qle_bool (2 ^ 1024) y then Infinity false else Fin y
  | Lt => let y := round_magnitude (- x) in
          if Qle_bool (2 ^ 1024) y then Infinity true
          else if Qeq_bool y 0 then NegZero else Fin (- y)
  end.

(** The number a decimal literal denotes. *)
Definition literal (x : Q) : number := round false x.

Definition negative (x : number) : bool :=
  match x with
  | NaN => false
  | Infinity s => s
  | NegZero => true
  | Fin q => negb (Qle_bool 0 q)
  end.

Definition is_zero (x : number) : bool :=
  match x with
  | NegZero => true
  | Fin q => Qeq_bool q 0
  | _ => false
  end.

Definition value (x : number) : Q :=
  match x with Fin q => q | _ => 0%Q end.

(** Unary minus, [+], [-], [*] and [/]. *)
Definition fneg (x : number) : number :=
  match x with
  | NaN => NaN
  | Infinity s => Infinity (negb s)
  | NegZero => Fin 0
  | Fin q => if Qeq_bool q 0 then NegZero else Fin (- q)
  end.

Definition fadd (x y : number) : number :=
  match x, y with
  | NaN, _ | _, NaN => NaN
  | Infinity a, Infinity b => if Bool.eqb a b then Infinity a else NaN
  | Infinity a, _ | _, Infinity a => Infinity a
  | NegZero, NegZero => NegZero
  | NegZero, Fin q | Fin q, NegZero => Fin q
  | Fin p, Fin q => round false (p + q)
  end.

Definition fsub (x y : number) : number := fadd x (fneg y).

Definition fmul (x y : number) : number :=
  let s := xorb (negative x) (negative y) in
  match x, y with
  | NaN, _ | _, NaN => NaN
  | Infinity _, z | z, Infinity _ => if is_zero z then NaN else Infinity s
  | _, _ => round s (value x * value y)
  end.

Definition fdiv (x y : number) : number :=
  let s := xorb (negative x) (negative y) in
  match x, y with
  | NaN, _ | _, NaN => NaN
  | Infinity _, Infinity _ => NaN
  | Infinity _, _ => Infinity s
  | _, Infinity _ => zero s
  | _, _ =>
      if is_zero y then (if is_zero x then NaN else Infinity s)
      else round s (value x / value y)
  end.

(** [Math.floor], [Math.ceil], [Math.max] and [Math.min] of two
    arguments. *)
Definition Math_floor (x : number) : number :=
  match x with
  | Fin q => Fin (inject_Z (Qfloor q))
  | _ => x
  end.

Definition Math_ceil (x : number) : number :=
  match x with
  | Fin q =>
      let c := Qceiling q in
      if (c =? 0)%Z && negb (Qle_bool 0 q) then NegZero else Fin (inject_Z c)
  | _ => x
  end.

(** The order [Math.max] and [Math.min] use: the negative zero is below
    the positive one. *)
Definition below (x y : number) : bool :=
  match x, y with
  | NaN, _ | _, NaN => false
  | Infinity true, Infinity true => false
  | Infinity true, _ => true
  | _, Infinity true => false
  | Infinity false, _ => false
  | _, Infinity false => true
  | NegZero, NegZero => false
  | NegZero, Fin q => Qle_bool 0 q
  | Fin p, NegZero => negb (Qle_bool 0 p)
  | Fin p, Fin q => negb (Qle_bool q p)
  end.

Definition Math_max (x y : number) : number :=
  match x, y with
  | NaN, _ | _, NaN => NaN
  | _, _ => if below x y then y else x
  end.

Definition Math_min (x y : number) : number :=
  match x, y with
  | NaN, _ | _, NaN => NaN
  | _, _ => if below y x then y else x
  end.

(** The Standard Library's notation for the same values ([SpecFloat]): a
    sign, a significand and an exponent. *)
Definition of_spec_float (f : spec_float) : number :=
  match f with
  | S754_zero s => zero s
  | S754_infinity s => Infinity s
  | S754_nan => NaN
  | S754_finite s m e =>
      Fin (Qred ((if s then - 1 else 1) * inject_Z (Zpos m) * 2 ^ e))
  end.

Definition same (x y : number) : bool :=
  match x, y with
  | NaN, NaN => true
  | Infinity a, Infinity b => Bool.eqb a b
  | NegZero, NegZero => true
  | Fin p, Fin q => Qeq_bool p q
  | _, _ => false
  end.

(** [utils.ts]: [calculateVisibleRange]. *)
Record VisibleRange := mkVisibleRange {
  startIndex : number;
  endIndex : number
}.

Definition calculateVisibleRange
    (scrollTop containerHeight itemHeight totalItems : number)
    (overscan : option number) : VisibleRange :=
  let overscan := default (of_Z 5) overscan in
  let startIndex :=
    Math_max (of_Z 0)
             (fsub (Math_floor (fdiv scrollTop itemHeight)) overscan) in
  let endIndex :=
    Math_min (fsub totalItems (of_Z 1))
             (fadd (Math_ceil (fdiv (fadd scrollTop containerHeight)
                                    itemHeight))
                   overscan) in
  mkVisibleRange startIndex endIndex.

(** [Array.prototype.slice(start, end)]: each argument is truncated to an
    integer ([NaN] counts as 0), a negative one counts from the end of the
    array, and both are clamped to the array. *)
Definition truncate (q : Q) : Z :=
  if Qle_bool 0 q then Qfloor q else Qceiling q.

Definition relative_index (len : Z) (x : number) : Z :=
  match x with
  | NaN | NegZero => 0
  | Infinity true => 0
  | Infinity false => len
  | Fin q =>
      let t := truncate q in
      if (t <? 0)%Z then Z.max (len + t) 0 else Z.min t len
  end.

Definition array_slice {A} (start stop : number) (l : list A) : list A :=
  let len := Z.of_nat (length l) in
  let k := relative_index len start in
  let final := relative_index len stop in
  take (Z.to_nat (final - k)) (drop (Z.to_nat k) l).

(** [useVirtualScroll(itemHeight, containerHeight, overscan)]: its three
    arguments and the [scrollTop] ref; [VirtualTable.vue] calls it with its
    [itemHeight] and [containerHeight] props (60 and 600 unless the parent
    says otherwise) and the default overscan. *)
Record VirtualScroll := mkVirtualScroll {
  vs_itemHeight : number;
  vs_containerHeight : number;
  vs_overscan : number;
  vs_scrollTop : number
}.

Definition calculateVisibleItems (vs : VirtualScroll) (totalItems : number)
    : VisibleRange :=
  calculateVisibleRange (vs_scrollTop vs) (vs_containerHeight vs)
                        (vs_itemHeight vs) totalItems (Some (vs_overscan vs)).

(** [VirtualTable.vue]: the rows handed to the renderer,
    [items.slice(start, end + 1)] for the range computed from the number of
    items; the height of the scrollable body; the offset of the rendered
    block inside it. *)
Definition visibleItems {A} (vs : VirtualScroll) (items : list A) : list A :=
  let r := calculateVisibleItems vs (of_Z (Z.of_nat (length items))) in
  array_slice (startIndex r) (fadd (endIndex r) (of_Z 1)) items.

Definition totalHeight {A} (vs : VirtualScroll) (items : list A) : number :=
  fmul (of_Z (Z.of_nat (length items))) (vs_itemHeight vs).

Definition offsetY {A} (vs : VirtualScroll) (items : list A) : number :=
  fmul (startIndex
          (calculateVisibleItems vs (of_Z (Z.of_nat (length items)))))
       (vs_itemHeight vs).

End Binary64.

(** ** [loadInitialData] as an asynchronous action

    An [async] function runs until its first [await], hands control back,
    and resumes, once the awaited promise has settled, in the store as the
    rest of the program has left it by then. *)
Inductive Task :=
  | Finished (c : Completion unit) (s : Store)
  | Awaiting (s : Store) (resume : Store -> Task).

(** The store a task leaves when it first suspends. *)
Definition suspended (t : Task) : option Store :=
  match t with
  | Finished _ _ => None
  | Awaiting s _ => Some s
  end.

(** A task run to its end; [meanwhile] lists what the rest of the program
    does to the store during each suspension (nothing, once the list is
    used up). *)
Fixpoint task_run (t : Task) (meanwhile : list (Store -> Store))
    : Completion unit * Store :=
  match t with
  | Finished c s => (c, s)
  | Awaiting s resume =>
      match meanwhile with
      | [] => task_run (resume s) []
      | f :: rest => task_run (resume (f s)) rest
      end
  end.

(** The store in which the task resumes for the last time ([s0] if it never
    suspends). *)
Fixpoint resumed_in (t : Task) (meanwhile : list (Store -> Store))
    (s0 : Store) : Store :=
  match t with
  | Finished _ _ => s0
  | Awaiting s resume =>
      match meanwhile with
      | [] => resumed_in (resume s) [] s
      | f :: rest => resumed_in (resume (f s)) rest (f s)
      end
  end.

(** What can happen to the store, one step at a time: an action with
    nothing interleaved, a call of [loadInitialData] up to its first
    [await], or the resumption of a pending load that ends it. *)
Inductive Event :=
  | Act (a : Action)
  | LoadCalled
  | LoadSettled (r : FetchResult).

Section AsyncLoad.
Context `{LowerCase}.

(** [loadInitialData]: the flags are set, then the action awaits [fetch];
    a rejected or non-OK response goes to [catch] and [finally] at once,
    an OK response is awaited a second time for its body. *)
Definition loadInitialData_async (r : FetchResult) (s : Store) : Task :=
  Awaiting (loadInitialData_begin s)
    (fun s1 =>
       match r with
       | FetchResponse true _ _ =>
           Awaiting s1
             (fun s2 =>
                Finished (fst (loadInitialData_settle r s2))
                         (snd (loadInitialData_settle r s2)))
       | _ =>
           Finished (fst (loadInitialData_settle r s1))
                    (snd (loadInitialData_settle r s1))
       end).

Definition event_step (s : Store) (e : Event) : Store :=
  match e with
  | Act a => step s a
  | LoadCalled => loadInitialData_begin s
  | LoadSettled r => snd (loadInitialData_settle r s)
  end.

Definition run_interleaved (events : list Event) (s : Store) : Store :=
  fold_left event_step events s.

(** The events that assign a new raw dataset. *)
Definition assigns_dataset (e : Event) : bool :=
  match e with
  | Act a => replaces_dataset a
  | LoadCalled => false
  | LoadSettled r => replaces_dataset (LoadInitialData r)
  end.

End AsyncLoad.

(** ** Concrete inputs on binary64 numbers *)

(** Sample pairs of operands: 0.1 and 0.2; 0.30000000000000004 and 0.1;
    179.7 and 59.9; 59.9 and 3; 2.3 and 60; -7.5 and 2.3; 1 and 3; 2^53 and
    1, 2^53 + 2 and 1 (whose sums are ties); the largest finite number and
    2^970 (whose sum is the tie that overflows), and itself; the least
    positive number and 3, and itself; the least positive normal number
    and 2^53; pairs with a zero of either sign, with an infinity and with
    [NaN]. *)
Definition sample_operands : list (spec_float * spec_float) :=
  [(S754_finite false 7205759403792794 (-56),
    S754_finite false 7205759403792794 (-55));
   (S754_finite false 5404319552844596 (-54),
    S754_finite false 7205759403792794 (-56));
   (S754_finite false 6322631664363110 (-45),
    S754_finite false 8430175552484147 (-47));
   (S754_finite false 8430175552484147 (-47),
    S754_finite false 6755399441055744 (-51));
   (S754_finite false 5179139571476070 (-51),
    S754_finite false 8444249301319680 (-47));
   (S754_finite true 8444249301319680 (-50),
    S754_finite false 5179139571476070 (-51));
   (S754_finite false 4503599627370496 (-52),
    S754_finite false 6755399441055744 (-51));
   (S754_finite false 4503599627370496 1,
    S754_finite false 4503599627370496 (-52));
   (S754_finite false 4503599627370497 1,
    S754_finite false 4503599627370496 (-52));
   (S754_finite false 9007199254740991 971,
    S754_finite false 4503599627370496 918);
   (S754_finite false 9007199254740991 971,
    S754_finite false 9007199254740991 971);
   (S754_finite false 1 (-1074),
    S754_finite false 6755399441055744 (-51));
   (S754_finite false 1 (-1074),
    S754_finite false 1 (-1074));
   (S754_finite false 4503599627370496 (-1074),
    S754_finite false 4503599627370496 1);
   (S754_zero false,
    S754_finite true 8444249301319680 (-50));
   (S754_zero true,
    S754_finite false 6755399441055744 (-51));
   (S754_zero false,
    S754_zero true);
   (S754_finite false 4503599627370496 (-52),
    S754_zero false);
   (S754_finite true 8444249301319680 (-50),
    S754_zero true);
   (S754_infinity false,
    S754_zero false);
   (S754_infinity false,
    S754_infinity false);
   (S754_infinity false,
    S754_finite true 8444249301319680 (-50));
   (S754_nan,
    S754_finite false 4503599627370496 (-52));
   (S754_finite false 6755399441055744 (-51),
    S754_nan)].

(** The four operations on two operands give what the Standard Library's
    specification of IEEE 754 arithmetic gives for precision 53 and
    exponent bound 1024. *)
Definition agrees_with_SpecFloat (x y : spec_float) : bool :=
  Binary64.same
    (Binary64.fadd (Binary64.of_spec_float x) (Binary64.of_spec_float y))
    (Binary64.of_spec_float (SFadd 53 1024 x y)) &&
  Binary64.same
    (Binary64.fsub (Binary64.of_spec_float x) (Binary64.of_spec_float y))
    (Binary64.of_spec_float (SFsub 53 1024 x y)) &&
  Binary64.same
    (Binary64.fmul (Binary64.of_spec_float x) (Binary64.of_spec_float y))
    (Binary64.of_spec_float (SFmul 53 1024 x y)) &&
  Binary64.same
    (Binary64.fdiv (Binary64.of_spec_float x) (Binary64.of_spec_float y))
    (Binary64.of_spec_float (SFdiv 53 1024 x y)).

(** The numbers that the literals [0.1] and [0.2] denote. *)
Definition tenth : Q := 3602879701896397 # 36028797018963968.
Definition fifth : Q := 3602879701896397 # 18014398509481984.

(** The table as [VirtualTable.vue] sets it up by default (60-pixel rows,
    a 600-pixel viewport, overscan 5), scrolled by 120 pixels. *)
Definition default_scroll : Binary64.VirtualScroll :=
  Binary64.mkVirtualScroll (Binary64.of_Z 60) (Binary64.of_Z 600)
                           (Binary64.of_Z 5) (Binary64.of_Z 120).

(** Fractional geometry: rows of 2.3 pixels in a viewport of
    55.199999999999996 pixels scrolled by 13.799999999999997 pixels, and
    rows of 59.9 pixels scrolled by 179.7 pixels with no overscan. *)
Definition fractional_scroll : Binary64.VirtualScroll :=
  Binary64.mkVirtualScroll
    (Binary64.literal (23 # 10))
    (Binary64.literal (55199999999999996 # 1000000000000000))
    (Binary64.of_Z 5)
    (Binary64.literal (13799999999999997 # 1000000000000000)).

Definition fractional_rows : Binary64.VirtualScroll :=
  Binary64.mkVirtualScroll
    (Binary64.literal (599 # 10)) (Binary64.of_Z 600) (Binary64.of_Z 0)
    (Binary64.literal (1797 # 10)).

(** A filter change while a load is pending, the same followed by
    [clearCache], and steps that assign no dataset. *)
Definition search_meanwhile : Store -> Store :=
  setFilter (H := ascii_LowerCase)
    (mkPartialFilterState (Some "ann") None None None None None).

Definition search_then_clear (s : Store) : Store :=
  clearCache (search_meanwhile s).

Definition browsing_events : list Event :=
  [Act (SetPageSize 50); LoadCalled; Act (SetSortState ColAmount Desc);
   Act ClearCache; LoadSettled (FetchRejected (ThrownError "Failed to fetch"));
   Act LoadNextPage].
(** ** Order facts on the compared values *)

Lemma ascii_compare_trans_lt (a b c : ascii) :
  Ascii.compare a b = Lt -> Ascii.compare b c = Lt -> Ascii.compare a c = Lt.
Proof.
  unfold Ascii.compare. rewrite !N.compare_lt_iff. apply N.lt_trans.
Qed.

Lemma string_compare_refl (s : string) : String.compare s s = Eq.
Proof.
  induction s as [|c s IH]; simpl; [reflexivity|].
  unfold Ascii.compare. rewrite N.compare_refl. exact IH.
Qed.

Lemma string_compare_trans_lt (x y z : string) :
  String.compare x y = Lt -> String.compare y z = Lt ->
  String.compare x z = Lt.
Proof.
  revert y z. induction x as [|a x IH]; intros [|b y] [|c z]; simpl;
    try congruence.
  destruct (Ascii.compare a b) eqn:Hab; try discriminate.
  - apply Ascii.compare_eq_iff in Hab. subst b.
    destruct (Ascii.compare a c) eqn:Hac; try congruence.
    intros ? ?. eapply IH; eassumption.
  - intros _. destruct (Ascii.compare b c) eqn:Hbc; try discriminate.
    + apply Ascii.compare_eq_iff in Hbc. subst c. now rewrite Hab.
    + intros _. now rewrite (ascii_compare_trans_lt a b c).
Qed.

Lemma string_ltb_lt (x y : string) :
  String.ltb x y = true <-> String.compare x y = Lt.
Proof.
  unfold String.ltb. destruct (String.compare x y); cbn; split; congruence.
Qed.

Lemma string_ltb_irrefl (x : string) : String.ltb x x = false.
Proof. unfold String.ltb. now rewrite string_compare_refl. Qed.

Lemma string_ltb_trans (x y z : string) :
  String.ltb x y = true -> String.ltb y z = true -> String.ltb x z = true.
Proof. rewrite !string_ltb_lt. apply string_compare_trans_lt. Qed.

Lemma string_ltb_asym (x y : string) :
  String.ltb x y = true -> String.ltb y x = false.
Proof.
  unfold String.ltb. rewrite (String.compare_antisym y x).
  destruct (String.compare x y); simpl; congruence.
Qed.

(** If neither string is below the other, they are the same string. *)
Lemma string_ltb_tie (x y : string) :
  String.ltb x y = false -> String.ltb y x = false -> x = y.
Proof.
  unfold String.ltb. rewrite (String.compare_antisym y x).
  destruct (String.compare x y) eqn:E; simpl; try congruence.
  intros _ _. now apply String.compare_eq_iff.
Qed.

Lemma string_ltb_leb_trans (x y z : string) :
  String.ltb x y = true -> String.leb y z = true -> String.ltb x z = true.
Proof.
  intros Hxy Hyz. unfold String.leb in Hyz.
  destruct (String.compare y z) eqn:E; try discriminate.
  - apply String.compare_eq_iff in E. now subst z.
  - eapply string_ltb_trans; [exact Hxy|]. now apply string_ltb_lt.
Qed.

Lemma string_leb_ltb_trans (x y z : string) :
  String.leb x y = true -> String.ltb y z = true -> String.ltb x z = true.
Proof.
  intros Hxy Hyz. unfold String.leb in Hxy.
  destruct (String.compare x y) eqn:E; try discriminate.
  - apply String.compare_eq_iff in E. now subst y.
  - eapply string_ltb_trans; [|exact Hyz]. now apply string_ltb_lt.
Qed.

Lemma Qc_ltb_lt (x y : Qc) : Qc_ltb x y = true <-> (x < y)%Qc.
Proof.
  unfold Qc_ltb. rewrite Qclt_alt.
  destruct (x ?= y)%Qc; cbn; split; congruence.
Qed.

Lemma Qc_ltb_irrefl (x : Qc) : Qc_ltb x x = false.
Proof.
  destruct (Qc_ltb x x) eqn:E; [|reflexivity].
  apply Qc_ltb_lt in E. now apply Qclt_not_eq in E.
Qed.

Lemma Qc_ltb_trans (x y z : Qc) :
  Qc_ltb x y = true -> Qc_ltb y z = true -> Qc_ltb x z = true.
Proof. rewrite !Qc_ltb_lt. apply Qclt_trans. Qed.

Lemma Qc_ltb_asym (x y : Qc) : Qc_ltb x y = true -> Qc_ltb y x = false.
Proof.
  intros Hxy. destruct (Qc_ltb y x) eqn:E; [|reflexivity].
  apply Qc_ltb_lt in Hxy, E.
  exfalso. apply (Qclt_not_le _ _ Hxy). now apply Qclt_le_weak.
Qed.

Lemma Qc_ltb_tie (x y : Qc) :
  Qc_ltb x y = false -> Qc_ltb y x = false -> x = y.
Proof.
  intros Hxy Hyx. apply Qcle_antisym; apply Qcnot_lt_le; intros Hlt;
    apply Qc_ltb_lt in Hlt; congruence.
Qed.

Lemma Qc_ltb_le_trans (x y z : Qc) :
  Qc_ltb x y = true -> (y <= z)%Qc -> Qc_ltb x z = true.
Proof. rewrite !Qc_ltb_lt. apply Qclt_le_trans. Qed.

Lemma Qc_le_ltb_trans (x y z : Qc) :
  (x <= y)%Qc -> Qc_ltb y z = true -> Qc_ltb x z = true.
Proof. rewrite !Qc_ltb_lt. apply Qcle_lt_trans. Qed.

(** ** Sort engine *)

Section ArraySort.
Context {A : Type} (cmp : A -> A -> Z).

Lemma sort_insert_perm (x : A) (l : list A) :
  sort_insert cmp x l ≡ₚ x :: l.
Proof.
  induction l as [|y l IH]; simpl; [reflexivity|].
  destruct (cmp x y <=? 0)%Z; [reflexivity|].
  rewrite IH. apply Permutation_swap.
Qed.

(** The sorted array is a rearrangement of the input. *)
Lemma array_sort_perm (l : list A) : array_sort cmp l ≡ₚ l.
Proof.
  induction l as [|x l IH]; simpl; [reflexivity|].
  rewrite sort_insert_perm. now rewrite IH.
Qed.

(** A sequence already in order is returned as it is. *)
Lemma array_sort_sorted_id (l : list A) :
  StronglySorted (fun a b => (cmp a b <= 0)%Z) l -> array_sort cmp l = l.
Proof.
  induction 1 as [|x l Hs IH Hx]; simpl; [reflexivity|].
  rewrite IH. destruct l as [|y l]; simpl; [reflexivity|].
  inversion Hx as [|? ? Hxy _]; subst.
  now rewrite (proj2 (Z.leb_le _ _) Hxy).
Qed.

Hypothesis cmp_total : forall a b, (cmp a b <= 0 \/ cmp b a <= 0)%Z.
Hypothesis cmp_trans :
  forall a b c, (cmp a b <= 0 -> cmp b c <= 0 -> cmp a c <= 0)%Z.

Lemma sort_insert_sorted (x : A) (l : list A) :
  StronglySorted (fun a b => (cmp a b <= 0)%Z) l ->
  StronglySorted (fun a b => (cmp a b <= 0)%Z) (sort_insert cmp x l).
Proof.
  induction 1 as [|y l Hs IH Hy]; simpl.
  - repeat constructor.
  - destruct (cmp x y <=? 0)%Z eqn:E.
    + apply Z.leb_le in E. constructor; [now constructor|].
      constructor; [exact E|].
      eapply Forall_impl; [exact Hy|]. intros z Hz. now apply cmp_trans with y.
    + apply Z.leb_gt in E. constructor; [exact IH|].
      rewrite sort_insert_perm. constructor; [|exact Hy].
      destruct (cmp_total x y); lia.
Qed.

(** For a total and transitive comparator the result is in order. *)
Lemma array_sort_sorted (l : list A) :
  StronglySorted (fun a b => (cmp a b <= 0)%Z) (array_sort cmp l).
Proof.
  induction l as [|x l IH]; simpl; [constructor|].
  now apply sort_insert_sorted.
Qed.

Lemma array_sort_idempotent (l : list A) :
  array_sort cmp (array_sort cmp l) = array_sort cmp l.
Proof. apply array_sort_sorted_id, array_sort_sorted. Qed.

End ArraySort.

Lemma StronglySorted_weaken {A} (R S : A -> A -> Prop) (l : list A) :
  (forall a b, R a b -> S a b) -> StronglySorted R l -> StronglySorted S l.
Proof.
  intros HRS. induction 1 as [|x l Hs IH Hx]; constructor; [exact IH|].
  eapply Forall_impl; [exact Hx|]. intros z. apply HRS.
Qed.

Section SortProperties.
Context `{LowerCase}.

Lemma key_lt_irrefl c a : key_lt c a a = false.
Proof.
  unfold key_lt, sort_value.
  destruct c; simpl; auto using Qc_ltb_irrefl, string_ltb_irrefl.
Qed.

Lemma key_lt_asym c a b : key_lt c a b = true -> key_lt c b a = false.
Proof.
  unfold key_lt, sort_value.
  destruct c; simpl; auto using Qc_ltb_asym, string_ltb_asym.
Qed.

Lemma key_lt_trans c a b d :
  key_lt c a b = true -> key_lt c b d = true -> key_lt c a d = true.
Proof.
  unfold key_lt, sort_value.
  destruct c; simpl; eauto using Qc_ltb_trans, string_ltb_trans.
Qed.

(** Two records tie on the sort key exactly when their keys are equal. *)
Lemma key_tie c a b :
  key_lt c a b = false -> key_lt c b a = false ->
  sort_value c a = sort_value c b.
Proof.
  unfold key_lt, sort_value.
  destruct c; simpl; intros H1 H2; f_equal;
    auto using Qc_ltb_tie, string_ltb_tie.
Qed.

Lemma key_lt_tie_l c a b d :
  sort_value c a = sort_value c b -> key_lt c a d = key_lt c b d.
Proof. unfold key_lt. now intros ->. Qed.

Lemma key_lt_tie_r c a b d :
  sort_value c a = sort_value c b -> key_lt c d a = key_lt c d b.
Proof. unfold key_lt. now intros ->. Qed.

Lemma tie_key_lt c a b :
  sort_value c a = sort_value c b ->
  key_lt c a b = false /\ key_lt c b a = false.
Proof.
  intros E. rewrite (key_lt_tie_l c a b b E), (key_lt_tie_r c a b b E).
  split; apply key_lt_irrefl.
Qed.

(** What the callback decides, ascending: [a] goes before [b] when its key
    is smaller, or the keys tie and its id is not greater. *)
Lemma compare_asc_le c a b :
  (sortLoans_compare c Asc a b <= 0)%Z <-> asc_order c a b.
Proof.
  unfold sortLoans_compare, asc_order. fold (key_lt c a b) (key_lt c b a).
  destruct (key_lt c a b) eqn:Hab.
  - split; [now left | lia].
  - destruct (key_lt c b a) eqn:Hba.
    + split; [lia|]. intros [?|[E _]]; [discriminate|].
      destruct (tie_key_lt c a b E). congruence.
    + split.
      * intros Hid. right. split; [now apply key_tie | lia].
      * intros [?|[_ Hid]]; [discriminate | lia].
Qed.

(** Descending: the whole result is negated, so [a] goes before [b] when
    its key is greater, or the keys tie and its id is not smaller. *)
Lemma compare_desc_le c a b :
  (sortLoans_compare c Desc a b <= 0)%Z <-> desc_order c a b.
Proof.
  unfold sortLoans_compare, desc_order. fold (key_lt c a b) (key_lt c b a).
  destruct (key_lt c a b) eqn:Hab.
  - split; [lia|]. rewrite (key_lt_asym c a b Hab).
    intros [?|[E _]]; [discriminate|].
    destruct (tie_key_lt c a b E). congruence.
  - destruct (key_lt c b a) eqn:Hba.
    + split; [now left | lia].
    + split.
      * intros Hid. right. split; [now apply key_tie | lia].
      * intros [?|[_ Hid]]; [discriminate | lia].
Qed.

Lemma asc_order_total c a b : asc_order c a b \/ asc_order c b a.
Proof.
  unfold asc_order.
  destruct (key_lt c a b) eqn:Hab; [now left; left|].
  destruct (key_lt c b a) eqn:Hba; [now right; left|].
  pose proof (key_tie c a b Hab Hba) as E.
  destruct (Z.le_ge_cases (id a) (id b)); [left | right]; right; split;
    (assumption || now symmetry).
Qed.

Lemma asc_order_trans c a b d :
  asc_order c a b -> asc_order c b d -> asc_order c a d.
Proof.
  unfold asc_order. intros [Hab|[Eab Hab]] [Hbd|[Ebd Hbd]].
  - left. now apply key_lt_trans with b.
  - left. now rewrite <- (key_lt_tie_r c b d a Ebd).
  - left. now rewrite (key_lt_tie_l c a b d Eab).
  - right. split; [congruence | lia].
Qed.

Lemma desc_order_total c a b : desc_order c a b \/ desc_order c b a.
Proof.
  unfold desc_order.
  destruct (key_lt c b a) eqn:Hba; [now left; left|].
  destruct (key_lt c a b) eqn:Hab; [now right; left|].
  pose proof (key_tie c a b Hab Hba) as E.
  destruct (Z.le_ge_cases (id a) (id b)); [right | left]; right; split;
    (assumption || now symmetry).
Qed.

Lemma desc_order_trans c a b d :
  desc_order c a b -> desc_order c b d -> desc_order c a d.
Proof.
  unfold desc_order. intros [Hab|[Eab Hab]] [Hbd|[Ebd Hbd]].
  - left. now apply key_lt_trans with b.
  - left. now rewrite <- (key_lt_tie_l c b d a Ebd).
  - left. now rewrite (key_lt_tie_r c a b d Eab).
  - right. split; [congruence | lia].
Qed.

(** [sortLoans] rearranges its input. *)
Lemma sortLoans_perm loans c d : sortLoans loans c d ≡ₚ loans.
Proof.
  unfold sortLoans. destruct c as [col|], d; try reflexivity;
    apply array_sort_perm.
Qed.

(** Ascending: the result is ordered by key, ties by ascending id. *)
Lemma sortLoans_asc_sorted loans c :
  StronglySorted (asc_order c) (sortLoans loans (Some c) Asc).
Proof.
  unfold sortLoans.
  eapply StronglySorted_weaken;
    [|apply array_sort_sorted].
  - intros a b. apply compare_asc_le.
  - intros a b. rewrite !compare_asc_le. apply asc_order_total.
  - intros a b d. rewrite !compare_asc_le. apply asc_order_trans.
Qed.

(** Descending: the result is ordered by decreasing key, ties by
    {e descending} id. *)
Lemma sortLoans_desc_sorted loans c :
  StronglySorted (desc_order c) (sortLoans loans (Some c) Desc).
Proof.
  unfold sortLoans.
  eapply StronglySorted_weaken;
    [|apply array_sort_sorted].
  - intros a b. apply compare_desc_le.
  - intros a b. rewrite !compare_desc_le. apply desc_order_total.
  - intros a b d. rewrite !compare_desc_le. apply desc_order_trans.
Qed.

(** Sorting a sorted result again changes nothing. *)
Lemma sortLoans_idempotent loans c d :
  sortLoans (sortLoans loans c d) c d = sortLoans loans c d.
Proof.
  unfold sortLoans. destruct c as [col|], d; try reflexivity.
  - apply array_sort_idempotent.
    + intros a b. rewrite !compare_asc_le. apply asc_order_total.
    + intros a b e. rewrite !compare_asc_le. apply asc_order_trans.
  - apply array_sort_idempotent.
    + intros a b. rewrite !compare_desc_le. apply desc_order_total.
    + intros a b e. rewrite !compare_desc_le. apply desc_order_trans.
Qed.

End SortProperties.

(** ** Filter engine *)

Section FilterProperties.
Context `{LowerCase}.

Lemma filter_length_mono {A} (p q : A -> bool) (l : list A) :
  (forall x, q x = true -> p x = true) ->
  (length (List.filter q l) <= length (List.filter p l))%nat.
Proof.
  intros Hpq. induction l as [|x l IH]; simpl; [lia|].
  destruct (q x) eqn:Hq.
  - rewrite (Hpq x Hq). simpl. lia.
  - destruct (p x); simpl; lia.
Qed.

Lemma filter_sublist_mono {A} (p q : A -> bool) (l : list A) :
  (forall x, q x = true -> p x = true) ->
  sublist (List.filter q l) (List.filter p l).
Proof.
  intros Hpq. induction l as [|x l IH]; simpl; [constructor|].
  destruct (q x) eqn:Hq.
  - rewrite (Hpq x Hq). now constructor.
  - destruct (p x); [now constructor|exact IH].
Qed.

Lemma truthy_false (s : string) : truthy s = false -> s = "".
Proof. destruct s; simpl; congruence. Qed.

Lemma leb_truthy (d d' : string) :
  String.leb d d' = true -> truthy d = true -> truthy d' = true.
Proof. destruct d, d'; cbn; congruence. Qed.

(** The callback keeps a record exactly when none of the six tests rejects
    it: all present constraints are conjoined. *)
Lemma filterLoans_keep_tests (c : FilterState) (loan : Loan) :
  filterLoans_keep c loan =
  (negb (rejects_search c loan) && negb (rejects_status c loan) &&
   negb (rejects_minAmount c loan) && negb (rejects_maxAmount c loan) &&
   negb (rejects_startDate c loan) && negb (rejects_endDate c loan))%bool.
Proof.
  unfold filterLoans_keep, rejects_search, rejects_status, rejects_minAmount,
    rejects_maxAmount, rejects_startDate, rejects_endDate.
  destruct (truthy (search c) && _)%bool; [reflexivity|].
  destruct (truthy (fstatus c) && _ && _)%bool; [reflexivity|].
  destruct (minAmount c) as [m|]; [destruct (Qc_ltb (amount loan) m)|];
    try reflexivity;
  (destruct (maxAmount c) as [m'|]; [destruct (Qc_ltb m' (amount loan))|];
    try reflexivity;
   (destruct (startDate c) as [d|]; simpl;
     [destruct (truthy d && String.ltb (closeDate loan) d)%bool|];
     try reflexivity;
    (destruct (endDate c) as [d'|]; simpl;
      [destruct (truthy d' && String.ltb d' (closeDate loan))%bool|];
      reflexivity))).
Qed.

Lemma keep_true_tests (c : FilterState) (loan : Loan) :
  filterLoans_keep c loan = true <->
  rejects_search c loan = false /\ rejects_status c loan = false /\
  rejects_minAmount c loan = false /\ rejects_maxAmount c loan = false /\
  rejects_startDate c loan = false /\ rejects_endDate c loan = false.
Proof.
  rewrite filterLoans_keep_tests, !Bool.andb_true_iff, !Bool.negb_true_iff.
  tauto.
Qed.

(** A record kept under the stronger criteria is kept under the weaker. *)
Lemma strengthens_keep (c c' : FilterState) (loan : Loan) :
  strengthens c c' ->
  filterLoans_keep c' loan = true -> filterLoans_keep c loan = true.
Proof.
  intros Hs. rewrite !keep_true_tests.
  intros (H1 & H2 & H3 & H4 & H5 & H6).
  destruct Hs as
    [c term Hc | c st Hc | c m Hc | c m m' Hc Hle | c m Hc | c m m' Hc Hle
    | c d Hc | c d d' Hc Hle | c d Hc | c d d' Hc Hle Ht];
    repeat split; try assumption.
  - unfold rejects_search. now rewrite Hc.
  - unfold rejects_status. now destruct Hc as [-> | ->].
  - unfold rejects_minAmount. now rewrite Hc.
  - unfold rejects_minAmount in *. rewrite Hc. simpl in H3.
    destruct (Qc_ltb (amount loan) m) eqn:Hm; [|reflexivity].
    now rewrite (Qc_ltb_le_trans _ _ _ Hm Hle) in H3.
  - unfold rejects_maxAmount. now rewrite Hc.
  - unfold rejects_maxAmount in *. rewrite Hc. simpl in H4.
    destruct (Qc_ltb m (amount loan)) eqn:Hm; [|reflexivity].
    now rewrite (Qc_le_ltb_trans _ _ _ Hle Hm) in H4.
  - unfold rejects_startDate. destruct (startDate c) as [d0|]; [|reflexivity].
    simpl in Hc. now rewrite Hc.
  - unfold rejects_startDate in *. rewrite Hc. simpl in H5.
    destruct (truthy d) eqn:Hd; [|reflexivity]. simpl.
    rewrite (leb_truthy _ _ Hle Hd) in H5. simpl in H5.
    destruct (String.ltb (closeDate loan) d) eqn:Hlt; [|reflexivity].
    now rewrite (string_ltb_leb_trans _ _ _ Hlt Hle) in H5.
  - unfold rejects_endDate. destruct (endDate c) as [d0|]; [|reflexivity].
    simpl in Hc. now rewrite Hc.
  - unfold rejects_endDate in *. rewrite Hc. simpl in H6.
    rewrite Ht in H6. simpl in H6.
    destruct (truthy d); [|reflexivity]. simpl.
    destruct (String.ltb d (closeDate loan)) eqn:Hlt; [|reflexivity].
    now rewrite (string_leb_ltb_trans _ _ _ Hle Hlt) in H6.
Qed.

(** Status ["All"] and the empty status keep the same records. *)
Lemma keep_status_All (c : FilterState) (loan : Loan) :
  filterLoans_keep (with_status "All" c) loan
  = filterLoans_keep (with_status "" c) loan.
Proof. reflexivity. Qed.

(** C8.  Filter monotonicity: adding one more present constraint to the
    criteria (a search term, a status, a new or tighter amount or date
    bound) never increases the size of the result of [filterLoans] (the
    stronger result is a sub-sequence of the weaker one), and filtering with
    status ["All"] gives the same result as the same criteria with no status
    constraint. *)
Theorem filterLoans_monotone :
  (forall (loans : list Loan) (c c' : FilterState),
      strengthens c c' ->
      (length (filterLoans loans c') <= length (filterLoans loans c))%nat /\
      sublist (filterLoans loans c') (filterLoans loans c)) /\
  (forall (loans : list Loan) (c : FilterState),
      filterLoans loans (with_status "All" c)
      = filterLoans loans (with_status "" c)).
Proof.
  split.
  - intros loans c c' Hs. unfold filterLoans. split.
    + apply filter_length_mono. intros x. now apply strengthens_keep.
    + apply filter_sublist_mono. intros x. now apply strengthens_keep.
  - intros loans c. unfold filterLoans. reflexivity.
Qed.

End FilterProperties.

(** ** Visible-range calculator *)

Lemma Qfloor_unique (x : Q) (n : Z) : is_floor x n -> Qfloor x = n.
Proof.
  intros [Hle Hlt]. apply Z.le_antisymm.
  - apply Z.lt_succ_r. rewrite Zlt_Qlt.
    eapply Qle_lt_trans; [apply Qfloor_le|]. exact Hlt.
  - rewrite <- (Qfloor_Z n). now apply Qfloor_resp_le.
Qed.

Lemma Qceiling_unique (x : Q) (n : Z) : is_ceiling x n -> Qceiling x = n.
Proof.
  intros [Hlt Hle]. apply Z.le_antisymm.
  - rewrite <- (Qceiling_Z n). now apply Qceiling_resp_le.
  - apply Z.lt_pred_le. rewrite Zlt_Qlt.
    eapply Qlt_le_trans; [exact Hlt|]. apply Qle_ceiling.
Qed.

(** ** Binary64 arithmetic *)

(** On the sample pairs the operations of [Binary64] agree with the
    Standard Library's specification. *)
Example Binary64_agrees_with_SpecFloat :
  forallb (fun p => agrees_with_SpecFloat (fst p) (snd p)) sample_operands
  = true.
Proof. vm_compute. reflexivity. Qed.

(** *** Powers of two *)

Lemma pow2_pos (k : Z) : (0 < 2 ^ k)%Q.
Proof. apply Qpower_0_lt. reflexivity. Qed.

Lemma pow2_plus (a b : Z) : (2 ^ (a + b) == 2 ^ a * 2 ^ b)%Q.
Proof. apply Qpower_plus. discriminate. Qed.

Lemma pow2_le (a b : Z) : a <= b -> (2 ^ a <= 2 ^ b)%Q.
Proof. intros Hab. apply Qpower_le_compat_l; [exact Hab|]. discriminate. Qed.

Lemma pow2_inject (k : Z) : 0 <= k -> (2 ^ k == inject_Z (2 ^ k))%Q.
Proof. intros Hk. symmetry. apply (Zpower_Qpower 2 k Hk). Qed.

Lemma pow2_le_inv (a b : Z) : (2 ^ a < 2 ^ b)%Q -> a < b.
Proof.
  intros H. destruct (Z_lt_le_dec a b) as [|Hle]; [assumption|].
  apply pow2_le in Hle. lra.
Qed.


(** *** The binade of a positive rational *)

Lemma log2_bounds (n : Z) :
  0 < n ->
  (2 ^ Z.log2 n <= inject_Z n)%Q /\ (inject_Z n < 2 ^ (Z.log2 n + 1))%Q.
Proof.
  intros Hn. destruct (Z.log2_spec n Hn) as [Hlo Hhi].
  pose proof (Z.log2_nonneg n) as H0.
  rewrite !pow2_inject by lia. rewrite <- Zle_Qle, <- Zlt_Qlt.
  split; [exact Hlo|]. exact Hhi.
Qed.

Lemma binade_spec (x : Q) :
  (0 < x)%Q ->
  (2 ^ Binary64.binade x <= x)%Q /\ (x < 2 ^ (Binary64.binade x + 1))%Q.
Proof.
  intros Hx. destruct x as [p q]. unfold Binary64.binade. cbn [Qnum Qden].
  assert (Hp : 0 < p) by (unfold Qlt in Hx; simpl in Hx; lia).
  destruct (log2_bounds p Hp) as [Hp1 Hp2].
  destruct (log2_bounds (Zpos q) eq_refl) as [Hq1 Hq2].
  set (lp := Z.log2 p) in *. set (lq := Z.log2 (Zpos q)) in *.
  assert (Ex : (p # q == inject_Z p / inject_Z (Zpos q))%Q)
    by apply Qmake_Qdiv.
  assert (HB : (0 < inject_Z (Zpos q))%Q) by reflexivity.
  set (A := inject_Z p) in *. set (B := inject_Z (Zpos q)) in *.
  assert (Hup : (p # q < 2 ^ (lp - lq + 1))%Q).
  { rewrite Ex. apply Qlt_shift_div_r; [exact HB|].
    replace (lp - lq + 1) with ((lp + 1) + - lq) by lia.
    rewrite pow2_plus.
    assert (E : (2 ^ lq * 2 ^ (- lq) == 1)%Q).
    { rewrite <- pow2_plus. replace (lq + - lq) with 0 by lia. reflexivity. }
    pose proof (pow2_pos (lp + 1)). pose proof (pow2_pos (- lq)).
    pose proof (pow2_pos lq).
    assert (H2 : (2 ^ lq * 2 ^ (- lq) <= B * 2 ^ (- lq))%Q)
      by (apply Qmult_le_compat_r; lra).
    assert (H3 : (2 ^ (lp + 1) * 1 <= 2 ^ (lp + 1) * (B * 2 ^ (- lq)))%Q)
      by (apply Qmult_le_l; lra).
    lra. }
  assert (Hlow : (2 ^ (lp - lq - 1) <= p # q)%Q).
  { rewrite Ex. apply Qle_shift_div_l; [exact HB|].
    replace (lp - lq - 1) with (lp + - (lq + 1)) by lia.
    rewrite pow2_plus.
    assert (E : (2 ^ (lq + 1) * 2 ^ (- (lq + 1)) == 1)%Q).
    { rewrite <- pow2_plus. replace (lq + 1 + - (lq + 1)) with 0 by lia.
      reflexivity. }
    pose proof (pow2_pos lp). pose proof (pow2_pos (- (lq + 1))).
    pose proof (pow2_pos (lq + 1)).
    assert (H2 : (B * 2 ^ (- (lq + 1)) <= 2 ^ (lq + 1) * 2 ^ (- (lq + 1)))%Q)
      by (apply Qmult_le_compat_r; lra).
    assert (H3 : (2 ^ lp * (B * 2 ^ (- (lq + 1))) <= 2 ^ lp * 1)%Q)
      by (apply Qmult_le_l; lra).
    lra. }
  destruct (Qle_bool (2 ^ (lp - lq)) (p # q)) eqn:E.
  - apply Qle_bool_iff in E. split; assumption.
  - assert (Hlt : (p # q < 2 ^ (lp - lq))%Q).
    { apply Qnot_le_lt. intros Hle. apply Qle_bool_iff in Hle. congruence. }
    replace (lp - lq - 1 + 1) with (lp - lq) by lia. split; assumption.
Qed.

Lemma binade_unique (x : Q) (e : Z) :
  (2 ^ e <= x)%Q -> (x < 2 ^ (e + 1))%Q -> Binary64.binade x = e.
Proof.
  intros Hlo Hhi.
  assert (Hx : (0 < x)%Q) by (pose proof (pow2_pos e); lra).
  destruct (binade_spec x Hx) as [Blo Bhi].
  assert (Binary64.binade x < e + 1) by (apply pow2_le_inv; lra).
  assert (e < Binary64.binade x + 1) by (apply pow2_le_inv; lra).
  lia.
Qed.

(** *** Rounding to the nearest integer *)

Lemma nearest_even_cases (x : Q) :
  let f := Qfloor x in
  (Binary64.nearest_even x = f /\ (x - inject_Z f <= 1 # 2)%Q) \/
  (Binary64.nearest_even x = f + 1 /\ (1 # 2 <= x - inject_Z f)%Q).
Proof.
  intros f. unfold Binary64.nearest_even. fold f.
  destruct (x - inject_Z f ?= 1 # 2)%Q eqn:E.
  - apply Qeq_alt in E. destruct (Z.even f); [left|right]; split;
      try reflexivity; lra.
  - apply Qlt_alt in E. left. split; [reflexivity|lra].
  - apply Qgt_alt in E. right. split; [reflexivity|lra].
Qed.

Lemma nearest_even_above (x : Q) :
  (inject_Z (Binary64.nearest_even x) <= x + (1 # 2))%Q.
Proof.
  pose proof (Qfloor_le x).
  destruct (nearest_even_cases x) as [[-> H1]|[-> H1]].
  - lra.
  - rewrite inject_Z_plus. change (inject_Z 1) with 1%Q. lra.
Qed.

Lemma nearest_even_below (x : Q) :
  (x - (1 # 2) <= inject_Z (Binary64.nearest_even x))%Q.
Proof.
  pose proof (Qlt_floor x) as Hf. rewrite inject_Z_plus in Hf.
  change (inject_Z 1) with 1%Q in Hf.
  destruct (nearest_even_cases x) as [[-> H1]|[-> H1]].
  - lra.
  - rewrite inject_Z_plus. change (inject_Z 1) with 1%Q. lra.
Qed.

Lemma nearest_even_ge (x : Q) (n : Z) :
  (inject_Z n <= x)%Q -> n <= Binary64.nearest_even x.
Proof.
  intros Hn. assert (n <= Qfloor x).
  { rewrite <- (Qfloor_Z n). now apply Qfloor_resp_le. }
  destruct (nearest_even_cases x) as [[-> _]|[-> _]]; lia.
Qed.

Lemma nearest_even_le (x : Q) (n : Z) :
  (x <= inject_Z n)%Q -> Binary64.nearest_even x <= n.
Proof.
  intros Hn. assert (Hf : Qfloor x <= n).
  { rewrite <- (Qfloor_Z n). now apply Qfloor_resp_le. }
  destruct (nearest_even_cases x) as [[-> _]|[-> H1]]; [exact Hf|].
  destruct (Z.eq_dec (Qfloor x) n) as [E|]; [|lia].
  rewrite E in H1. lra.
Qed.

Lemma nearest_even_Z (n : Z) : Binary64.nearest_even (inject_Z n) = n.
Proof.
  apply Z.le_antisymm.
  - apply nearest_even_le. lra.
  - apply nearest_even_ge. lra.
Qed.

Lemma nearest_even_comp (x y : Q) :
  (x == y)%Q -> Binary64.nearest_even x = Binary64.nearest_even y.
Proof.
  intros E. unfold Binary64.nearest_even. rewrite (Qfloor_comp x y E).
  assert (E2 : (x - inject_Z (Qfloor y) == y - inject_Z (Qfloor y))%Q)
    by (rewrite E; reflexivity).
  rewrite (Qcompare_comp _ _ E2 _ _ (Qeq_refl (1 # 2))). reflexivity.
Qed.

(** *** Rounding to a binary64 value *)

Lemma Qred_inject_Z (z : Z) : Qred (inject_Z z) = inject_Z z.
Proof.
  unfold Qred, inject_Z.
  pose proof (Z.ggcd_gcd z 1) as Hg.
  pose proof (Z.ggcd_correct_divisors z 1) as Hd.
  destruct (Z.ggcd z 1) as [g [aa bb]]. simpl in Hg.
  rewrite Z.gcd_1_r in Hg. subst g. destruct Hd as [Ha Hb].
  assert (Eb : bb = 1) by lia. assert (Ea : aa = z) by lia.
  rewrite Eb, Ea. reflexivity.
Qed.

Lemma round_magnitude_eq (x : Q) :
  (Binary64.round_magnitude x
   == inject_Z (Binary64.nearest_even (x / Binary64.quantum x))
      * Binary64.quantum x)%Q.
Proof. apply Qred_correct. Qed.

Lemma quantum_pos (x : Q) : (0 < Binary64.quantum x)%Q.
Proof. apply pow2_pos. Qed.

Lemma quantum_normal (x : Q) (e : Z) :
  (2 ^ e <= x)%Q -> (x < 2 ^ (e + 1))%Q -> -1022 <= e ->
  Binary64.quantum x = (2 ^ (e - 52))%Q.
Proof.
  intros Hlo Hhi He. unfold Binary64.quantum.
  rewrite (binade_unique x e Hlo Hhi). f_equal. lia.
Qed.

(** A positive number on the grid of its binade is its own rounding. *)
Lemma round_magnitude_grid (x : Q) (m : Z) :
  (x == inject_Z m * Binary64.quantum x)%Q ->
  Binary64.round_magnitude x = Qred x.
Proof.
  intros E. unfold Binary64.round_magnitude. apply Qred_complete.
  pose proof (quantum_pos x) as Hu.
  assert (E1 : (x / Binary64.quantum x == inject_Z m)%Q).
  { rewrite E at 1. field. lra. }
  rewrite (nearest_even_comp _ _ E1), nearest_even_Z. symmetry. exact E.
Qed.

(** The integers below 2^53 are binary64 values. *)
Lemma round_magnitude_Z (z : Z) :
  0 < z < 2 ^ 53 -> Binary64.round_magnitude (inject_Z z) = inject_Z z.
Proof.
  intros [Hz0 Hz].
  assert (Hx : (0 < inject_Z z)%Q)
    by (change 0%Q with (inject_Z 0); now rewrite <- Zlt_Qlt).
  destruct (binade_spec _ Hx) as [Hlo Hhi].
  set (e := Binary64.binade (inject_Z z)) in *.
  assert (He : 0 <= e < 53).
  { split.
    - assert (0 < e + 1); [|lia]. apply pow2_le_inv.
      assert ((1 <= inject_Z z)%Q)
        by (change 1%Q with (inject_Z 1); rewrite <- Zle_Qle; lia).
      change (2 ^ 0)%Q with 1%Q. lra.
    - apply pow2_le_inv.
      assert ((inject_Z z < 2 ^ 53)%Q)
        by (rewrite (pow2_inject 53) by lia; now rewrite <- Zlt_Qlt).
      lra. }
  rewrite (round_magnitude_grid _ (z * 2 ^ (52 - e))).
  - apply Qred_inject_Z.
  - rewrite (quantum_normal _ e Hlo Hhi) by lia.
    rewrite inject_Z_mult, <- (pow2_inject (52 - e)) by lia.
    rewrite <- Qmult_assoc, <- pow2_plus.
    replace (52 - e + (e - 52)) with 0 by lia.
    change (2 ^ 0)%Q with 1%Q. ring.
Qed.

Lemma no_overflow_Z (z : Z) :
  z < 2 ^ 53 -> Qle_bool (2 ^ 1024) (inject_Z z) = false.
Proof.
  intros Hz. destruct (Qle_bool (2 ^ 1024) (inject_Z z)) eqn:E;
    [|reflexivity].
  apply Qle_bool_iff in E.
  assert ((inject_Z z < 2 ^ 53)%Q)
    by (rewrite (pow2_inject 53) by lia; now rewrite <- Zlt_Qlt).
  pose proof (pow2_le 53 1024 ltac:(lia)). lra.
Qed.

Lemma round_zero (b : bool) (x : Q) :
  (x == 0)%Q -> Binary64.round b x = Binary64.zero b.
Proof.
  intros E. unfold Binary64.round. apply Qeq_alt in E. now rewrite E.
Qed.

Lemma round_Z (b : bool) (z : Z) :
  Binary64.safe_integer z -> z <> 0 ->
  Binary64.round b (inject_Z z) = Binary64.of_Z z.
Proof.
  intros [Hlo Hhi] Hz. unfold Binary64.round, Binary64.of_Z.
  destruct (Z_lt_le_dec 0 z) as [Hpos|Hneg].
  - assert (E : (inject_Z z ?= 0)%Q = Gt).
    { apply (proj1 (Qgt_alt _ _)). change 0%Q with (inject_Z 0).
      now rewrite <- Zlt_Qlt. }
    rewrite E, round_magnitude_Z by lia. cbv zeta.
    now rewrite no_overflow_Z.
  - assert (E : (inject_Z z ?= 0)%Q = Lt).
    { apply (proj1 (Qlt_alt _ _)). change 0%Q with (inject_Z 0).
      rewrite <- Zlt_Qlt. lia. }
    rewrite E. change (- inject_Z z)%Q with (inject_Z (- z)).
    rewrite round_magnitude_Z by lia. cbv zeta.
    rewrite no_overflow_Z by lia.
    assert (E0 : Qeq_bool (inject_Z (- z)) 0 = false).
    { destruct (Qeq_bool (inject_Z (- z)) 0) eqn:E0; [|reflexivity].
      apply Qeq_bool_eq in E0. unfold Qeq in E0. simpl in E0. lia. }
    rewrite E0. change (- inject_Z (- z))%Q with (inject_Z (- - z)).
    now rewrite Z.opp_involutive.
Qed.

Lemma round_Z_any (z : Z) :
  Binary64.safe_integer z ->
  Binary64.round false (inject_Z z) = Binary64.of_Z z.
Proof.
  intros Hz. destruct (Z.eq_dec z 0) as [->|Hne].
  - reflexivity.
  - now apply round_Z.
Qed.

Lemma binade_comp (x y : Q) :
  (0 < x)%Q -> (x == y)%Q -> Binary64.binade x = Binary64.binade y.
Proof.
  intros Hx E. symmetry. apply binade_unique; rewrite <- E;
    now apply binade_spec.
Qed.

Lemma round_magnitude_comp (x y : Q) :
  (0 < x)%Q -> (x == y)%Q ->
  Binary64.round_magnitude x = Binary64.round_magnitude y.
Proof.
  intros Hx E. unfold Binary64.round_magnitude, Binary64.quantum.
  rewrite (binade_comp x y Hx E). apply Qred_complete.
  set (u := (2 ^ Z.max (Binary64.binade y - 52) (-1074))%Q).
  rewrite (nearest_even_comp (x / u) (y / u)); [reflexivity|].
  now rewrite E.
Qed.

Lemma round_comp (b : bool) (x y : Q) :
  (x == y)%Q -> Binary64.round b x = Binary64.round b y.
Proof.
  intros E. unfold Binary64.round.
  rewrite (Qcompare_comp _ _ E _ _ (Qeq_refl 0)).
  destruct (y ?= 0)%Q eqn:C; [reflexivity| |].
  - apply (proj2 (Qlt_alt _ _)) in C.
    rewrite (round_magnitude_comp (- x) (- y)); [reflexivity| |].
    + rewrite E. lra.
    + now rewrite E.
  - apply (proj2 (Qgt_alt _ _)) in C.
    rewrite (round_magnitude_comp x y); [reflexivity| |exact E].
    rewrite E. lra.
Qed.

(** Sums, differences and products of integers are exact as long as they
    are safe integers. *)
Lemma fadd_Z (a b : Z) :
  Binary64.safe_integer (a + b) ->
  Binary64.fadd (Binary64.of_Z a) (Binary64.of_Z b) = Binary64.of_Z (a + b).
Proof.
  intros Hs. unfold Binary64.fadd, Binary64.of_Z.
  rewrite (round_comp _ _ (inject_Z (a + b))) by (now rewrite inject_Z_plus).
  now apply round_Z_any.
Qed.

Lemma Qeq_bool_Z (z : Z) : Qeq_bool (inject_Z z) 0 = (z =? 0)%Z.
Proof.
  unfold Qeq_bool. simpl. rewrite Z.mul_1_r. now destruct z.
Qed.

Lemma fsub_Z (a b : Z) :
  Binary64.safe_integer (a - b) ->
  Binary64.fsub (Binary64.of_Z a) (Binary64.of_Z b) = Binary64.of_Z (a - b).
Proof.
  intros Hs. unfold Binary64.fsub, Binary64.fneg, Binary64.of_Z.
  rewrite Qeq_bool_Z.
  destruct (Z.eqb_spec b 0) as [->|Hb].
  - simpl. now rewrite Z.sub_0_r.
  - change (- inject_Z b)%Q with (inject_Z (- b)).
    change (Binary64.Fin (inject_Z a)) with (Binary64.of_Z a).
    change (Binary64.Fin (inject_Z (- b))) with (Binary64.of_Z (- b)).
    replace (a - b) with (a + - b) by lia.
    apply fadd_Z. now replace (a + - b) with (a - b) by lia.
Qed.

Lemma Qle_bool_Z (a b : Z) : Qle_bool (inject_Z a) (inject_Z b) = (a <=? b)%Z.
Proof. unfold Qle_bool. simpl. now rewrite !Z.mul_1_r. Qed.

Lemma negative_Z (a : Z) : Binary64.negative (Binary64.of_Z a) = (a <? 0)%Z.
Proof.
  unfold Binary64.negative, Binary64.of_Z. change 0%Q with (inject_Z 0).
  rewrite Qle_bool_Z.
  destruct (Z.leb_spec 0 a), (Z.ltb_spec a 0); try reflexivity; lia.
Qed.

Lemma fmul_Z (a b : Z) :
  0 <= a -> 0 <= b -> Binary64.safe_integer (a * b) ->
  Binary64.fmul (Binary64.of_Z a) (Binary64.of_Z b) = Binary64.of_Z (a * b).
Proof.
  intros Ha Hb Hs. unfold Binary64.fmul. rewrite !negative_Z.
  rewrite (proj2 (Z.ltb_ge a 0) Ha), (proj2 (Z.ltb_ge b 0) Hb).
  unfold Binary64.of_Z at 1 2. cbn [Binary64.value xorb].
  rewrite (round_comp _ _ (inject_Z (a * b))) by (now rewrite inject_Z_mult).
  now apply round_Z_any.
Qed.

Lemma Math_floor_Fin (q : Q) :
  Binary64.Math_floor (Binary64.Fin q) = Binary64.of_Z (Qfloor q).
Proof. reflexivity. Qed.

(** [Math.ceil(q) + o] is exact also when the ceiling is the negative
    zero. *)
Lemma fadd_Math_ceil (q : Q) (o : Z) :
  Binary64.safe_integer (Qceiling q + o) ->
  Binary64.fadd (Binary64.Math_ceil (Binary64.Fin q)) (Binary64.of_Z o)
  = Binary64.of_Z (Qceiling q + o).
Proof.
  intros Hs. unfold Binary64.Math_ceil.
  destruct ((Qceiling q =? 0)%Z && negb (Qle_bool 0 q)) eqn:E.
  - apply andb_true_iff in E as [E _]. apply Z.eqb_eq in E. now rewrite E.
  - now apply fadd_Z.
Qed.

Lemma Math_max_Z (a b : Z) :
  Binary64.Math_max (Binary64.of_Z a) (Binary64.of_Z b)
  = Binary64.of_Z (Z.max a b).
Proof.
  unfold Binary64.Math_max, Binary64.below, Binary64.of_Z. rewrite Qle_bool_Z.
  destruct (Z.leb_spec b a); simpl; f_equal; f_equal; lia.
Qed.

Lemma Math_min_Z (a b : Z) :
  Binary64.Math_min (Binary64.of_Z a) (Binary64.of_Z b)
  = Binary64.of_Z (Z.min a b).
Proof.
  unfold Binary64.Math_min, Binary64.below, Binary64.of_Z. rewrite Qle_bool_Z.
  destruct (Z.leb_spec a b); simpl; f_equal; f_equal; lia.
Qed.

(** The quotient of two integers below 2^53, rounded to a binary64 value,
    has the floor and the ceiling of the exact quotient: the rounding error
    is at most half a quantum, which is less than the distance [1 / b]
    between the quotient and the next integer. *)
Lemma round_magnitude_quotient (a b : Z) :
  0 < a < 2 ^ 53 -> 0 < b < 2 ^ 53 ->
  let x := (inject_Z a / inject_Z b)%Q in
  Qfloor (Binary64.round_magnitude x) = Qfloor x /\
  Qceiling (Binary64.round_magnitude x) = Qceiling x.
Proof.
  intros [Ha0 Ha] [Hb0 Hb] x.
  set (A := inject_Z a) in *. set (B := inject_Z b) in *.
  assert (HB : (0 < B)%Q)
    by (change 0%Q with (inject_Z 0); unfold B; now rewrite <- Zlt_Qlt).
  assert (HA : (0 < A)%Q)
    by (change 0%Q with (inject_Z 0); unfold A; now rewrite <- Zlt_Qlt).
  assert (HB1 : (1 <= B)%Q)
    by (change 1%Q with (inject_Z 1); unfold B; rewrite <- Zle_Qle; lia).
  assert (HA53 : (A < 2 ^ 53)%Q)
    by (rewrite (pow2_inject 53) by lia; unfold A; now rewrite <- Zlt_Qlt).
  assert (HB53 : (B < 2 ^ 53)%Q)
    by (rewrite (pow2_inject 53) by lia; unfold B; now rewrite <- Zlt_Qlt).
  assert (HxB : (x * B == A)%Q) by (unfold x; field; lra).
  assert (Hx : (0 < x)%Q) by (unfold x; apply Qlt_shift_div_l; lra).
  assert (HxA : (x <= A)%Q).
  { unfold x. apply Qle_shift_div_r; [exact HB|].
    assert ((A * 1 <= A * B)%Q) by (apply Qmult_le_l; lra). lra. }
  assert (HxIB : (2 ^ (-53) < x)%Q).
  { unfold x. apply Qlt_shift_div_l; [exact HB|].
    assert (E : (2 ^ (-53) * 2 ^ 53 == 1)%Q) by reflexivity.
    pose proof (pow2_pos (-53)) as Hp.
    assert ((2 ^ (-53) * B < 2 ^ (-53) * 2 ^ 53)%Q)
      by (apply Qmult_lt_l; lra).
    assert ((1 <= A)%Q)
      by (change 1%Q with (inject_Z 1); unfold A; rewrite <- Zle_Qle; lia).
    lra. }
  destruct (binade_spec x Hx) as [Hlo Hhi].
  set (e := Binary64.binade x) in *.
  assert (He : -53 <= e <= 52).
  { split.
    - assert (-53 < e + 1); [|lia]. apply pow2_le_inv. lra.
    - assert (e < 53); [|lia]. apply pow2_le_inv. lra. }
  pose proof (quantum_normal x e Hlo Hhi ltac:(lia)) as Hu.
  pose proof (round_magnitude_eq x) as Hy. rewrite Hu in Hy.
  set (u := (2 ^ (e - 52))%Q) in *.
  set (N := Binary64.nearest_even (x / u)) in *.
  set (y := Binary64.round_magnitude x) in *.
  assert (Hu0 : (0 < u)%Q) by apply pow2_pos.
  (* the rounding error is at most half a Binary64.quantum *)
  assert (Hxu : (x / u * u == x)%Q) by (field; lra).
  assert (Hup : (y <= x + u * (1 # 2))%Q).
  { pose proof (nearest_even_above (x / u)) as H1. fold N in H1.
    assert ((inject_Z N * u <= (x / u + (1 # 2)) * u)%Q)
      by (apply Qmult_le_compat_r; lra).
    rewrite Hy. lra. }
  assert (Hdn : (x - u * (1 # 2) <= y)%Q).
  { pose proof (nearest_even_below (x / u)) as H1. fold N in H1.
    assert (((x / u - (1 # 2)) * u <= inject_Z N * u)%Q)
      by (apply Qmult_le_compat_r; lra).
    rewrite Hy. lra. }
  (* every integer lies on the grid *)
  assert (Hgrid : forall k : Z,
            (inject_Z k / u == inject_Z (k * 2 ^ (52 - e)))%Q).
  { intros k. rewrite inject_Z_mult, <- (pow2_inject (52 - e)) by lia.
    assert (HM : (u * 2 ^ (52 - e) == 1)%Q).
    { unfold u. rewrite <- pow2_plus.
      replace (e - 52 + (52 - e)) with 0 by lia. reflexivity. }
    rewrite <- (Qmult_1_r (inject_Z k)) at 1. rewrite <- HM. field. lra. }
  assert (Hge : forall k : Z, (inject_Z k <= x)%Q -> (inject_Z k <= y)%Q).
  { intros k Hk.
    assert (Hk2 : (inject_Z (k * 2 ^ (52 - e)) <= x / u)%Q).
    { rewrite <- Hgrid. apply Qle_shift_div_l; [exact Hu0|].
      assert (E : (inject_Z k / u * u == inject_Z k)%Q) by (field; lra).
      lra. }
    apply nearest_even_ge in Hk2. fold N in Hk2. rewrite Zle_Qle in Hk2.
    rewrite <- Hgrid in Hk2.
    assert ((inject_Z k / u * u <= inject_Z N * u)%Q)
      by (apply Qmult_le_compat_r; lra).
    assert (E : (inject_Z k / u * u == inject_Z k)%Q) by (field; lra).
    rewrite Hy. lra. }
  assert (Hle : forall k : Z, (x <= inject_Z k)%Q -> (y <= inject_Z k)%Q).
  { intros k Hk.
    assert (Hk2 : (x / u <= inject_Z (k * 2 ^ (52 - e)))%Q).
    { rewrite <- Hgrid. apply Qle_shift_div_r; [exact Hu0|].
      assert (E : (inject_Z k / u * u == inject_Z k)%Q) by (field; lra).
      lra. }
    apply nearest_even_le in Hk2. fold N in Hk2. rewrite Zle_Qle in Hk2.
    rewrite <- Hgrid in Hk2.
    assert ((inject_Z N * u <= inject_Z k / u * u)%Q)
      by (apply Qmult_le_compat_r; lra).
    assert (E : (inject_Z k / u * u == inject_Z k)%Q) by (field; lra).
    rewrite Hy. lra. }
  (* half a Binary64.quantum is less than the distance 1/b between quotients *)
  assert (Hhalf : (u * (1 # 2) < / B)%Q).
  { assert (H1 : (2 ^ e * B <= x * B)%Q)
      by (apply Qmult_le_compat_r; lra).
    assert (H2 : (u == 2 ^ (-52) * 2 ^ e)%Q).
    { unfold u. rewrite <- pow2_plus.
      now replace (-52 + e) with (e - 52) by lia. }
    assert (H3 : (2 ^ (-52) * 2 ^ 53 == 2)%Q) by reflexivity.
    pose proof (pow2_pos (-52)) as Hp.
    assert (H4 : (2 ^ (-52) * (2 ^ e * B) < 2 ^ (-52) * 2 ^ 53)%Q)
      by (apply Qmult_lt_l; lra).
    assert (H5 : (u * B < 2)%Q) by (rewrite H2; lra).
    assert (H6 : (u * (1 # 2) * B < 1)%Q) by lra.
    setoid_replace (/ B)%Q with (1 / B)%Q using relation Qeq
      by (unfold Qdiv; ring).
    apply Qlt_shift_div_l; [exact HB|exact H6]. }
  set (k := Qfloor x). set (c := Qceiling x).
  assert (Hk1 : (x + / B <= inject_Z (k + 1))%Q).
  { assert (Hlt : (x < inject_Z (k + 1))%Q) by apply Qlt_floor.
    assert (Hz : a < (k + 1) * b).
    { rewrite Zlt_Qlt, inject_Z_mult. fold A. fold B.
      assert ((x * B < inject_Z (k + 1) * B)%Q)
        by (apply Qmult_lt_compat_r; lra).
      lra. }
    assert (Hz2 : (A + 1 <= inject_Z (k + 1) * B)%Q).
    { unfold A, B. change 1%Q with (inject_Z 1).
      rewrite <- inject_Z_plus, <- inject_Z_mult, <- Zle_Qle. lia. }
    setoid_replace (x + / B)%Q with ((A + 1) / B)%Q using relation Qeq
      by (unfold x; field; lra).
    apply Qle_shift_div_r; [exact HB|exact Hz2]. }
  assert (Hc1 : (inject_Z (c - 1) <= x - / B)%Q).
  { assert (Hlt : (inject_Z (c - 1) < x)%Q) by apply Qceiling_lt.
    assert (Hz : (c - 1) * b < a).
    { rewrite Zlt_Qlt, inject_Z_mult. fold A. fold B.
      assert ((inject_Z (c - 1) * B < x * B)%Q)
        by (apply Qmult_lt_compat_r; lra).
      lra. }
    assert (Hz2 : (inject_Z (c - 1) * B <= A - 1)%Q).
    { unfold A, B. change 1%Q with (inject_Z 1).
      unfold Qminus. rewrite <- inject_Z_opp, <- inject_Z_plus,
        <- inject_Z_mult, <- Zle_Qle. lia. }
    setoid_replace (x - / B)%Q with ((A - 1) / B)%Q using relation Qeq
      by (unfold x; field; lra).
    apply Qle_shift_div_l; [exact HB|exact Hz2]. }
  split.
  - apply Qfloor_unique. split.
    + apply Hge, Qfloor_le.
    + lra.
  - apply Qceiling_unique. split.
    + lra.
    + apply Hle, Qle_ceiling.
Qed.

(** So the quotient of two such integers is a finite number with the floor
    and the ceiling of the exact quotient. *)
Lemma fdiv_Z (a b : Z) :
  0 <= a < 2 ^ 53 -> 0 < b < 2 ^ 53 ->
  exists q : Q,
    Binary64.fdiv (Binary64.of_Z a) (Binary64.of_Z b) = Binary64.Fin q /\
    Qfloor q = Qfloor (inject_Z a / inject_Z b) /\
    Qceiling q = Qceiling (inject_Z a / inject_Z b).
Proof.
  intros [Ha0 Ha] Hb. unfold Binary64.fdiv. rewrite !negative_Z.
  rewrite (proj2 (Z.ltb_ge a 0) Ha0), (proj2 (Z.ltb_ge b 0)) by lia.
  unfold Binary64.of_Z. cbn [Binary64.is_zero Binary64.value xorb].
  rewrite !Qeq_bool_Z.
  rewrite (proj2 (Z.eqb_neq b 0)) by lia.
  set (x := (inject_Z a / inject_Z b)%Q).
  assert (HB : (0 < inject_Z b)%Q)
    by (change 0%Q with (inject_Z 0); rewrite <- Zlt_Qlt; lia).
  destruct (Z.eq_dec a 0) as [->|Hne].
  - exists 0%Q. split; [|split; reflexivity].
    apply round_zero. unfold x. field. lra.
  - destruct (round_magnitude_quotient a b ltac:(lia) Hb) as [Hf Hc].
    fold x in Hf, Hc. exists (Binary64.round_magnitude x).
    split; [|split; assumption].
    assert (HA : (0 < inject_Z a)%Q)
      by (change 0%Q with (inject_Z 0); rewrite <- Zlt_Qlt; lia).
    assert (Hx : (0 < x)%Q) by (unfold x; apply Qlt_shift_div_l; lra).
    unfold Binary64.round. rewrite (proj1 (Qgt_alt _ _) Hx). cbv zeta.
    destruct (Qle_bool (2 ^ 1024) (Binary64.round_magnitude x)) eqn:E;
      [|reflexivity].
    exfalso. apply Qle_bool_iff in E.
    pose proof (Qlt_floor (Binary64.round_magnitude x)) as Hlt.
    rewrite Hf in Hlt.
    assert (Hfx : Qfloor x <= a).
    { rewrite <- (Qfloor_Z a). apply Qfloor_resp_le. unfold x.
      apply Qle_shift_div_r; [exact HB|].
      assert ((1 <= inject_Z b)%Q)
        by (change 1%Q with (inject_Z 1); rewrite <- Zle_Qle; lia).
      assert ((inject_Z a * 1 <= inject_Z a * inject_Z b)%Q)
        by (apply Qmult_le_l; lra).
      lra. }
    assert (Hk : (inject_Z (Qfloor x + 1) <= 2 ^ 53)%Q)
      by (rewrite (pow2_inject 53), <- Zle_Qle; lia).
    pose proof (pow2_le 53 1024 ltac:(lia)). lra.
Qed.

(** *** [calculateVisibleRange] on binary64 numbers *)

(** The range in terms of the two quotients as the engine computes them. *)
Lemma calculateVisibleRange_computed
    (s v h : Binary64.number) (n : Z) (o : option Z) (q1 q2 : Q) :
  Binary64.fdiv s h = Binary64.Fin q1 ->
  Binary64.fdiv (Binary64.fadd s v) h = Binary64.Fin q2 ->
  Binary64.safe_integer (Qfloor q1 - default 5 o) ->
  Binary64.safe_integer (Qceiling q2 + default 5 o) ->
  Binary64.safe_integer (n - 1) ->
  Binary64.calculateVisibleRange s v h (Binary64.of_Z n)
                                 (Binary64.of_Z <$> o)
  = Binary64.mkVisibleRange
      (Binary64.of_Z (Z.max 0 (Qfloor q1 - default 5 o)))
      (Binary64.of_Z (Z.min (n - 1) (Qceiling q2 + default 5 o))).
Proof.
  intros H1 H2 Hs1 Hs2 Hn. unfold Binary64.calculateVisibleRange.
  rewrite H1, H2, Math_floor_Fin.
  replace (default (Binary64.of_Z 5) (Binary64.of_Z <$> o))
    with (Binary64.of_Z (default 5 o)) by (now destruct o).
  rewrite fsub_Z, fadd_Math_ceil, fsub_Z, Math_max_Z, Math_min_Z
    by assumption.
  reflexivity.
Qed.

(** On integer geometry the binary64 evaluation returns the range of the
    exact one: the rounded quotients have the floor and the ceiling of the
    exact quotients. *)
Lemma calculateVisibleRange_integers (s v h n : Z) (o : option Z) :
  0 <= s -> 0 <= v -> 0 < h < 2 ^ 53 ->
  s + v + Z.abs (default 5 o) < 2 ^ 53 ->
  Binary64.safe_integer (n - 1) ->
  let r := calculateVisibleRange (inject_Z s) (inject_Z v) (inject_Z h) n o in
  Binary64.calculateVisibleRange
    (Binary64.of_Z s) (Binary64.of_Z v) (Binary64.of_Z h) (Binary64.of_Z n)
    (Binary64.of_Z <$> o)
  = Binary64.mkVisibleRange (Binary64.of_Z (startIndex r))
                            (Binary64.of_Z (endIndex r)).
Proof.
  intros Hs Hv Hh Hb Hn r. subst r. unfold calculateVisibleRange.
  cbn [startIndex endIndex]. set (ov := default 5 o) in *.
  destruct (fdiv_Z s h ltac:(lia) ltac:(lia)) as (q1 & E1 & F1 & _).
  destruct (fdiv_Z (s + v) h ltac:(lia) ltac:(lia)) as (q2 & E2 & _ & C2).
  assert (HB : (0 < inject_Z h)%Q)
    by (change 0%Q with (inject_Z 0); rewrite <- Zlt_Qlt; lia).
  assert (HB1 : (1 <= inject_Z h)%Q)
    by (change 1%Q with (inject_Z 1); rewrite <- Zle_Qle; lia).
  assert (Hq : forall a : Z, 0 <= a ->
            0 <= Qfloor (inject_Z a / inject_Z h) /\
            Qceiling (inject_Z a / inject_Z h) <= a).
  { intros a Ha.
    assert (HA : (0 <= inject_Z a)%Q)
      by (change 0%Q with (inject_Z 0); rewrite <- Zle_Qle; lia).
    split.
    - rewrite <- (Qfloor_Z 0). apply Qfloor_resp_le.
      apply Qle_shift_div_l; [exact HB|]. change (inject_Z 0) with 0%Q. lra.
    - rewrite <- (Qceiling_Z a) at 2. apply Qceiling_resp_le.
      apply Qle_shift_div_r; [exact HB|].
      assert ((1 * inject_Z a <= inject_Z h * inject_Z a)%Q)
        by (apply Qmult_le_compat_r; lra).
      lra. }
  assert (Hfl : Qfloor (inject_Z s / inject_Z h) <= s).
  { pose proof (Qle_floor_ceiling (inject_Z s / inject_Z h)) as Hfc.
    rewrite <- Zle_Qle in Hfc. destruct (Hq s Hs). lia. }
  assert (Hce : 0 <= Qceiling (inject_Z (s + v) / inject_Z h)).
  { pose proof (Qle_floor_ceiling (inject_Z (s + v) / inject_Z h)) as Hfc.
    rewrite <- Zle_Qle in Hfc. destruct (Hq (s + v) ltac:(lia)). lia. }
  assert (E : ((inject_Z s + inject_Z v) / inject_Z h
               == inject_Z (s + v) / inject_Z h)%Q)
    by (now rewrite inject_Z_plus).
  rewrite (Qceiling_comp _ _ E), <- F1, <- C2.
  apply calculateVisibleRange_computed.
  - exact E1.
  - now rewrite fadd_Z by (unfold Binary64.safe_integer; lia).
  - rewrite F1. destruct (Hq s Hs). unfold Binary64.safe_integer.
    fold ov. lia.
  - rewrite C2. destruct (Hq (s + v) ltac:(lia)).
    unfold Binary64.safe_integer. fold ov. lia.
  - exact Hn.
Qed.

(** C5.  [calculateVisibleRange] evaluates the formula on binary64 numbers:
    whenever the two quotients it computes are finite numbers [q1]
    ([scrollOffset / rowHeight], rounded to the nearest binary64 value) and
    [q2] (the rounded sum of [scrollOffset] and [viewportHeight], divided by
    [rowHeight] and rounded again), and the indices stay within the safe
    integers, it returns
    [startIndex = max(0, floor(q1) - overscan)] and
    [endIndex = min(totalLoadedRows - 1, ceil(q2) + overscan)], a missing
    [overscan] standing for 5.  When [scrollOffset], [viewportHeight] and
    [rowHeight] are integers, [floor(q1)] and [ceil(q2)] are the floor and
    the ceiling of the exact quotients, so the range is the one of the exact
    formula; for scrollOffset = 200, viewportHeight = 100, rowHeight = 20,
    totalLoadedRows = 200, overscan = 5 it is start = 5, end = 20. *)
Theorem calculateVisibleRange_rounded_formula :
  (forall (scrollOffset viewportHeight rowHeight : Binary64.number)
          (totalLoadedRows : Z) (overscan : option Z) (q1 q2 : Q),
      Binary64.fdiv scrollOffset rowHeight = Binary64.Fin q1 ->
      Binary64.fdiv (Binary64.fadd scrollOffset viewportHeight) rowHeight
      = Binary64.Fin q2 ->
      Binary64.safe_integer (Qfloor q1 - default 5 overscan) ->
      Binary64.safe_integer (Qceiling q2 + default 5 overscan) ->
      Binary64.safe_integer (totalLoadedRows - 1) ->
      Binary64.calculateVisibleRange scrollOffset viewportHeight rowHeight
        (Binary64.of_Z totalLoadedRows) (Binary64.of_Z <$> overscan)
      = Binary64.mkVisibleRange
          (Binary64.of_Z (Z.max 0 (Qfloor q1 - default 5 overscan)))
          (Binary64.of_Z
             (Z.min (totalLoadedRows - 1)
                    (Qceiling q2 + default 5 overscan))))
  /\ (forall (scrollOffset viewportHeight rowHeight totalLoadedRows : Z)
             (overscan : option Z),
        0 <= scrollOffset -> 0 <= viewportHeight ->
        0 < rowHeight < 2 ^ 53 ->
        scrollOffset + viewportHeight + Z.abs (default 5 overscan) < 2 ^ 53 ->
        0 <= totalLoadedRows <= 2 ^ 53 ->
        Binary64.calculateVisibleRange
          (Binary64.of_Z scrollOffset) (Binary64.of_Z viewportHeight)
          (Binary64.of_Z rowHeight) (Binary64.of_Z totalLoadedRows)
          (Binary64.of_Z <$> overscan)
        = Binary64.mkVisibleRange
            (Binary64.of_Z
               (Z.max 0 (Qfloor (inject_Z scrollOffset / inject_Z rowHeight)
                         - default 5 overscan)))
            (Binary64.of_Z
               (Z.min (totalLoadedRows - 1)
                      (Qceiling ((inject_Z scrollOffset
                                  + inject_Z viewportHeight)
                                 / inject_Z rowHeight)
                       + default 5 overscan))))
  /\ Binary64.calculateVisibleRange
       (Binary64.of_Z 200) (Binary64.of_Z 100) (Binary64.of_Z 20)
       (Binary64.of_Z 200) (Some (Binary64.of_Z 5))
     = Binary64.mkVisibleRange (Binary64.of_Z 5) (Binary64.of_Z 20)
  /\ Binary64.calculateVisibleRange
       (Binary64.of_Z 200) (Binary64.of_Z 100) (Binary64.of_Z 20)
       (Binary64.of_Z 200) None
     = Binary64.mkVisibleRange (Binary64.of_Z 5) (Binary64.of_Z 20).
Proof.
  split; [|split; [|split]].
  - intros s v h n o q1 q2. apply calculateVisibleRange_computed.
  - intros s v h n o Hs Hv Hh Hb Hn.
    apply (calculateVisibleRange_integers s v h n o); try assumption.
    unfold Binary64.safe_integer. lia.
  - vm_compute. reflexivity.
  - vm_compute. reflexivity.
Qed.


(** ** The memoised query *)

Section StoreProperties.
Context `{LowerCase}.

Lemma getter_fields (s : Store) :
  let s' := snd (filteredAndSortedLoans_getter s) in
  allLoans s' = allLoans s /\ loadedLoans s' = loadedLoans s /\
  isLoading s' = isLoading s /\ error s' = error s /\
  sortState s' = sortState s /\ filterState s' = filterState s /\
  paginationState s' = paginationState s /\
  computedValue s' = computedValue s /\
  computedReadsAllLoans s' = computedReadsAllLoans s.
Proof.
  unfold filteredAndSortedLoans_getter.
  destruct (resultCache s !! _); simpl; repeat split; reflexivity.
Qed.

(** Reading the query changes neither the data nor the criteria nor the
    pagination state nor the flags. *)
Lemma refresh_fields (s : Store) :
  allLoans (refresh s) = allLoans s /\
  loadedLoans (refresh s) = loadedLoans s /\
  isLoading (refresh s) = isLoading s /\ error (refresh s) = error s /\
  sortState (refresh s) = sortState s /\
  filterState (refresh s) = filterState s /\
  paginationState (refresh s) = paginationState s.
Proof.
  unfold refresh, filteredAndSortedLoans.
  destruct (computedValue s); [simpl; repeat split; reflexivity|].
  pose proof (getter_fields s) as Hg.
  destruct (filteredAndSortedLoans_getter s) as [[v reads] s'].
  simpl in *. tauto.
Qed.

(** After a read the wrapper holds the value read. *)
Lemma refresh_computed (s : Store) :
  computedValue (refresh s) = Some (view s).
Proof.
  unfold refresh, view, filteredAndSortedLoans.
  destruct (computedValue s) eqn:E; [simpl; exact E|].
  destruct (filteredAndSortedLoans_getter s) as [[v reads] s']. reflexivity.
Qed.

(** While the wrapper is clean a read returns the held value and changes
    nothing. *)
Lemma filteredAndSortedLoans_clean (s : Store) (v : list Loan) :
  computedValue s = Some v -> filteredAndSortedLoans s = (v, s).
Proof. intros E. unfold filteredAndSortedLoans. now rewrite E. Qed.

Lemma filteredAndSortedLoans_eq (s : Store) :
  filteredAndSortedLoans s = (view s, refresh s).
Proof. unfold view, refresh. now destruct (filteredAndSortedLoans s). Qed.

(** ** [loadNextPage] *)

Lemma loadNextPage_cases (s : Store) :
  loadNextPage s =
  if Nat.ltb 0 (length (nextPage s)) then loadNextPage_result s
  else refresh s.
Proof.
  unfold loadNextPage, loadNextPage_result, nextPage.
  rewrite filteredAndSortedLoans_eq.
  destruct (Nat.ltb 0 _); [|reflexivity].
  destruct (refresh_fields s) as (_ & Hl & _ & _ & _ & _ & Hp).
  pose proof (refresh_computed s) as Hc.
  destruct (Nat.eqb (currentPage (paginationState s)) 0).
  - rewrite filteredAndSortedLoans_clean with (v := view s) by exact Hc.
    unfold set_paginationState, set_loadedLoans, set_totalPages,
      set_loadedRowsCount, set_currentPage. simpl. now rewrite Hp.
  - rewrite filteredAndSortedLoans_clean with (v := view s) by exact Hc.
    unfold set_paginationState, set_loadedLoans, set_totalPages,
      set_loadedRowsCount, set_currentPage. simpl. now rewrite Hp, Hl.
Qed.

Lemma refresh_clean (s : Store) (v : list Loan) :
  computedValue s = Some v -> refresh s = s /\ view s = v.
Proof.
  intros E. unfold refresh, view.
  now rewrite (filteredAndSortedLoans_clean s v E).
Qed.

Lemma loadNextPage_result_computed (s : Store) :
  computedValue (loadNextPage_result s) = Some (view s).
Proof. unfold loadNextPage_result. simpl. apply refresh_computed. Qed.

Lemma loadNextPage_result_view (s : Store) :
  view (loadNextPage_result s) = view s.
Proof. apply (refresh_clean _ _ (loadNextPage_result_computed s)). Qed.

Lemma length_nil_iff {A} (l : list A) :
  Nat.ltb 0 (length l) = false <-> l = [].
Proof.
  destruct l; simpl; split; intros E; try reflexivity; try discriminate.
Qed.

(** [ceil_div a b] is the least number of pages of [b] rows holding [a]
    rows. *)
Lemma ceil_div_spec (a b : nat) :
  (0 < b)%nat -> (0 < a)%nat ->
  (a <= ceil_div a b * b /\ (ceil_div a b - 1) * b < a)%nat.
Proof.
  intros Hb Ha. unfold ceil_div. destruct b as [|b']; [lia|].
  set (b := S b') in *.
  pose proof (Nat.div_mod_eq (a + b - 1) b) as Hdm.
  pose proof (Nat.mod_upper_bound (a + b - 1) b ltac:(lia)) as Hr.
  set (q := ((a + b - 1) / b)%nat) in *.
  set (r := ((a + b - 1) mod b)%nat) in *.
  assert (1 <= q)%nat by (destruct q; [nia|lia]).
  split; nia.
Qed.

Lemma slice_length_le {A} (i j : nat) (l : list A) :
  (length (slice i j l) <= j - i)%nat.
Proof. unfold slice. rewrite length_take. lia. Qed.

(** C4.  [loadNextPage] takes effect only when the next page slice of the
    current filtered and sorted view is not empty; it then replaces the
    buffer when the page counter is 0 and appends to it otherwise,
    increments the page counter, sets the loaded-row count to the length of
    the buffer and sets [totalPages] to the ceiling of the view length over
    the page size; when the slice is empty the buffer and the pagination
    state are left as they were.  With page size 25 and a view of exactly 60
    rows, from page 0: the first call yields 25 loaded rows, the second 50,
    the third 60 (the whole view), and the fourth call changes nothing at
    all. *)
Theorem loadNextPage_pages :
  (forall s : Store,
      (nextPage s = [] ->
       loadNextPage s = refresh s /\
       loadedLoans (loadNextPage s) = loadedLoans s /\
       paginationState (loadNextPage s) = paginationState s) /\
      (nextPage s <> [] ->
       let s' := loadNextPage s in
       let p := paginationState s in
       loadedLoans s' =
         (if Nat.eqb (currentPage p) 0 then nextPage s
          else loadedLoans s ++ nextPage s)%list /\
       currentPage (paginationState s') = S (currentPage p) /\
       pageSize (paginationState s') = pageSize p /\
       loadedRowsCount (paginationState s') = length (loadedLoans s') /\
       totalPages (paginationState s')
         = ceil_div (length (view s)) (pageSize p) /\
       (length (view s) <= totalPages (paginationState s') * pageSize p)%nat /\
       ((totalPages (paginationState s') - 1) * pageSize p
          < length (view s))%nat /\
       view s' = view s)) /\
  (forall s : Store,
      pageSize (paginationState s) = 25%nat ->
      currentPage (paginationState s) = 0%nat ->
      length (view s) = 60%nat ->
      let s1 := loadNextPage s in
      let s2 := loadNextPage s1 in
      let s3 := loadNextPage s2 in
      loadedRowsCount (paginationState s1) = 25%nat /\
      loadedLoans s1 = take 25 (view s) /\
      totalPages (paginationState s1) = 3%nat /\
      loadedRowsCount (paginationState s2) = 50%nat /\
      loadedLoans s2 = take 50 (view s) /\
      loadedRowsCount (paginationState s3) = 60%nat /\
      loadedLoans s3 = view s /\
      loadNextPage s3 = s3).
Proof.
  split.
  - intros s. split.
    + intros Hnil. rewrite loadNextPage_cases.
      rewrite (proj2 (length_nil_iff _) Hnil).
      destruct (refresh_fields s) as (_ & Hl & _ & _ & _ & _ & Hp).
      repeat split; assumption.
    + intros Hne s' p. subst s'. rewrite loadNextPage_cases.
      destruct (Nat.ltb 0 (length (nextPage s))) eqn:Hlt;
        [|now apply length_nil_iff in Hlt].
      assert (Hps : (0 < pageSize p)%nat).
      { apply Nat.ltb_lt in Hlt. unfold nextPage in Hlt.
        pose proof (slice_length_le
          (currentPage p * pageSize p)
          (currentPage p * pageSize p + pageSize p) (view s)) as Hle.
        subst p. lia. }
      assert (Hv : (0 < length (view s))%nat).
      { apply Nat.ltb_lt in Hlt. unfold nextPage, slice in Hlt.
        rewrite length_take, length_drop in Hlt. lia. }
      destruct (ceil_div_spec (length (view s)) (pageSize p) Hps Hv)
        as [Hup Hlow].
      rewrite loadNextPage_result_view.
      unfold loadNextPage_result. simpl. fold p.
      repeat split; try reflexivity; assumption.
  - intros s Hps Hcp Hlen s1 s2 s3.
    assert (Hn0 : nextPage s = take 25 (view s)).
    { unfold nextPage, slice. rewrite Hps, Hcp. simpl. now rewrite drop_0. }
    assert (E1 : s1 = loadNextPage_result s).
    { subst s1. rewrite loadNextPage_cases, Hn0, length_take, Hlen.
      reflexivity. }
    assert (P1 : paginationState s1 = mkPaginationState 25 1 3 25).
    { rewrite E1. unfold loadNextPage_result. simpl.
      rewrite Hps, Hcp, Hn0, Hlen. simpl. rewrite length_take, Hlen.
      reflexivity. }
    assert (L1 : loadedLoans s1 = take 25 (view s)).
    { rewrite E1. unfold loadNextPage_result. simpl. now rewrite Hcp, Hn0. }
    assert (V1 : view s1 = view s)
      by (rewrite E1; apply loadNextPage_result_view).
    assert (Hn1 : nextPage s1 = take 25 (drop 25 (view s))).
    { unfold nextPage, slice. rewrite P1, V1. reflexivity. }
    assert (E2 : s2 = loadNextPage_result s1).
    { subst s2. rewrite loadNextPage_cases, Hn1, length_take, length_drop,
        Hlen. reflexivity. }
    assert (L2 : loadedLoans s2 = take 50 (view s)).
    { rewrite E2. unfold loadNextPage_result. simpl.
      rewrite P1, L1, Hn1. simpl. now rewrite take_take_drop. }
    assert (P2 : paginationState s2 = mkPaginationState 25 2 3 50).
    { rewrite E2. unfold loadNextPage_result. simpl.
      rewrite P1, L1, Hn1, V1, Hlen. simpl.
      rewrite take_take_drop, length_take, Hlen. reflexivity. }
    assert (V2 : view s2 = view s)
      by (rewrite E2, loadNextPage_result_view; exact V1).
    assert (Hn2 : nextPage s2 = drop 50 (view s)).
    { unfold nextPage, slice. rewrite P2, V2. simpl.
      apply take_ge. rewrite length_drop, Hlen. lia. }
    assert (E3 : s3 = loadNextPage_result s2).
    { subst s3. rewrite loadNextPage_cases, Hn2, length_drop, Hlen.
      reflexivity. }
    assert (L3 : loadedLoans s3 = view s).
    { rewrite E3. unfold loadNextPage_result. simpl.
      rewrite P2, L2, Hn2. simpl. apply take_drop. }
    assert (P3 : paginationState s3 = mkPaginationState 25 3 3 60).
    { rewrite E3. unfold loadNextPage_result. simpl.
      rewrite P2, L2, Hn2, V2, Hlen. simpl.
      rewrite take_drop, Hlen. reflexivity. }
    assert (C3 : computedValue s3 = Some (view s)).
    { rewrite E3, loadNextPage_result_computed. now rewrite V2. }
    assert (Hn3 : nextPage s3 = []).
    { unfold nextPage, slice. rewrite P3. simpl.
      rewrite (proj2 (refresh_clean _ _ C3)).
      rewrite drop_ge by (rewrite Hlen; lia). reflexivity. }
    rewrite P1, P2, P3. simpl.
    repeat split; try assumption; try reflexivity.
    rewrite loadNextPage_cases, Hn3. simpl.
    apply (refresh_clean _ _ C3).
Qed.

(** ** [loadInitialData] *)

(** The last segment of the action, entered when the request has settled:
    it completes normally with the loading flag cleared, and a failure
    records its message without touching the rows or the dataset. *)
Lemma loadInitialData_settle_normal (r : FetchResult) (s : Store) :
  fst (loadInitialData_settle r s) = Normal tt /\
  isLoading (snd (loadInitialData_settle r s)) = false.
Proof.
  unfold loadInitialData_settle, try_catch_finally.
  destruct (loadInitialData_try r s) as [[[]|e] s1] eqn:E; simpl;
    split; reflexivity.
Qed.

Lemma loadInitialData_settle_failure (r : FetchResult) (s : Store)
    (msg : string) :
  failure_message r = Some msg ->
  error (snd (loadInitialData_settle r s)) = Some msg /\
  loadedLoans (snd (loadInitialData_settle r s)) = loadedLoans s /\
  allLoans (snd (loadInitialData_settle r s)) = allLoans s.
Proof.
  intros Hmsg. unfold loadInitialData_settle, try_catch_finally.
  destruct r as [e|[|] st [e|data]]; simpl in Hmsg;
    inversion Hmsg; subst; simpl;
    try (destruct e; simpl); repeat split; reflexivity.
Qed.

(** The asynchronous action ends in the last segment, entered in the store
    in which it last resumed. *)
Lemma loadInitialData_async_run (r : FetchResult) (s : Store)
    (meanwhile : list (Store -> Store)) :
  task_run (loadInitialData_async r s) meanwhile
  = loadInitialData_settle r
      (resumed_in (loadInitialData_async r s) meanwhile s).
Proof.
  unfold loadInitialData_async.
  destruct r as [e|[|] st j]; destruct meanwhile as [|f1 [|f2 rest]];
    cbn [task_run resumed_in];
    match goal with
    | |- (fst ?x, snd ?x) = _ => destruct x; reflexivity
    end.
Qed.

(** With nothing interleaved it is the composite [loadInitialData]. *)
Lemma loadInitialData_async_uninterrupted (r : FetchResult) (s : Store) :
  task_run (loadInitialData_async r s) [] = loadInitialData r s /\
  resumed_in (loadInitialData_async r s) [] s = loadInitialData_begin s.
Proof.
  split.
  - rewrite loadInitialData_async_run. unfold loadInitialData.
    destruct r as [e|[|] st j]; reflexivity.
  - destruct r as [e|[|] st j]; reflexivity.
Qed.

(** C9.  [loadInitialData] sets the loading flag (and clears the error)
    before it first suspends, leaving the rows and the dataset as they
    were.  Whatever the rest of the program does to the store while the
    request is pending, the action completes normally (nothing is thrown to
    the caller) with the loading flag cleared, on every path: success,
    network failure, non-OK response, parse failure.  On each failure path
    the error state holds the message of that failure, and the loaded rows
    and the raw dataset are those of the store in which the action resumed:
    rows that were empty stay empty, rows loaded earlier stay loaded. *)
Theorem loadInitialData_settles
    (r : FetchResult) (s : Store) (meanwhile : list (Store -> Store)) :
  let t := loadInitialData_async r s in
  let before := resumed_in t meanwhile s in
  let after := snd (task_run t meanwhile) in
  (exists s1 : Store,
      suspended t = Some s1 /\ isLoading s1 = true /\ error s1 = None /\
      loadedLoans s1 = loadedLoans s /\ allLoans s1 = allLoans s) /\
  fst (task_run t meanwhile) = Normal tt /\
  isLoading after = false /\
  (forall msg : string,
      failure_message r = Some msg ->
      error after = Some msg /\
      loadedLoans after = loadedLoans before /\
      allLoans after = allLoans before /\
      (loadedLoans before = [] -> loadedLoans after = [])).
Proof.
  cbv zeta. rewrite loadInitialData_async_run.
  set (before := resumed_in (loadInitialData_async r s) meanwhile s).
  split; [|split; [|split]].
  - exists (loadInitialData_begin s). repeat split; reflexivity.
  - apply loadInitialData_settle_normal.
  - apply loadInitialData_settle_normal.
  - intros msg Hmsg.
    destruct (loadInitialData_settle_failure r before msg Hmsg)
      as (He & Hl & Ha).
    repeat split; try assumption. intros Hnil. now rewrite Hl.
Qed.

End StoreProperties.

(** ** Pagination window *)

Section PrefixProperties.
Context `{LowerCase}.

Lemma view_set_paginationState (p : PaginationState) (s : Store) :
  view (set_paginationState p s) = view s.
Proof.
  unfold view, filteredAndSortedLoans, filteredAndSortedLoans_getter. simpl.
  destruct (computedValue s); [reflexivity|].
  destruct (resultCache s !! _); reflexivity.
Qed.

(** [loadNextPage] keeps the prefix window. *)
Lemma loaded_prefix_loadNextPage (s : Store) :
  loaded_prefix s -> loaded_prefix (loadNextPage s).
Proof.
  intros [Hl Hc]. rewrite loadNextPage_cases.
  destruct (Nat.ltb 0 (length (nextPage s))).
  - unfold loaded_prefix. rewrite loadNextPage_result_view.
    unfold loadNextPage_result. simpl. split; [|reflexivity].
    unfold nextPage, slice.
    destruct (currentPage (paginationState s)) as [|n] eqn:E; simpl.
    + rewrite drop_0. f_equal. lia.
    + rewrite Hl. rewrite ?E. rewrite take_take_drop. f_equal. simpl. lia.
  - destruct (refresh_fields s) as (_ & Hl' & _ & _ & _ & _ & Hp).
    unfold loaded_prefix. rewrite Hp, Hl'.
    destruct (refresh_clean _ _ (refresh_computed s)) as [_ ->].
    now split.
Qed.

(** From page 0 a non-empty first page is loaded as the whole buffer,
    whatever the buffer held. *)
Lemma loaded_prefix_first_page (s : Store) :
  currentPage (paginationState s) = 0%nat -> nextPage s <> [] ->
  loaded_prefix (loadNextPage s).
Proof.
  intros E Hne. rewrite loadNextPage_cases.
  destruct (Nat.ltb 0 (length (nextPage s))) eqn:Hlt;
    [|now apply length_nil_iff in Hlt].
  unfold loaded_prefix. rewrite loadNextPage_result_view.
  unfold loadNextPage_result. simpl. split; [|reflexivity].
  unfold nextPage, slice. rewrite E. simpl.
  rewrite drop_0. f_equal. lia.
Qed.

(** [setPageSize] always installs the prefix window. *)
Lemma loaded_prefix_setPageSize (n : nat) (s : Store) :
  loaded_prefix (setPageSize n s).
Proof.
  unfold setPageSize. rewrite filteredAndSortedLoans_eq.
  set (s2 := set_paginationState _ (set_resultCache ∅ s)).
  pose proof (refresh_computed s2) as Hc.
  rewrite (filteredAndSortedLoans_clean _ (view s2)) by exact Hc.
  unfold loaded_prefix. rewrite view_set_paginationState. simpl.
  assert (Hv : view (set_paginationState
                 (set_loadedRowsCount (length (slice 0 n (view s2)))
                    (set_currentPage 1 (paginationState (refresh s2))))
                 (set_loadedLoans (slice 0 n (view s2)) (refresh s2)))
               = view s2).
  { now apply refresh_clean. }
  rewrite Hv. split; [|reflexivity].
  unfold slice. rewrite drop_0. f_equal.
  destruct (refresh_fields s2) as (_ & _ & _ & _ & _ & _ & ->).
  simpl. lia.
Qed.

(** [resetPagination] installs the prefix window when the first page of the
    view is not empty. *)
Lemma loaded_prefix_resetPagination (s : Store) :
  nextPage (reset_counters s) <> [] -> loaded_prefix (resetPagination s).
Proof. intros Hne. now apply loaded_prefix_first_page. Qed.

(** When the first page is empty, [resetPagination] zeroes the counters and
    returns without touching the buffer. *)
Lemma resetPagination_empty_view (s : Store) :
  nextPage (reset_counters s) = [] ->
  loadedLoans (resetPagination s) = loadedLoans s /\
  loadedRowsCount (paginationState (resetPagination s)) = 0%nat /\
  currentPage (paginationState (resetPagination s)) = 0%nat.
Proof.
  intros Hnil. unfold resetPagination. fold (reset_counters s).
  rewrite loadNextPage_cases, (proj2 (length_nil_iff _) Hnil).
  destruct (refresh_fields (reset_counters s))
    as (_ & -> & _ & _ & _ & _ & ->).
  repeat split.
Qed.

End PrefixProperties.

(** ** Query cache *)

Section StoreInvariants.
Context `{LowerCase}.

(** What a read of the query does to the cache. *)
Lemma refresh_cache (s : Store) :
  match computedValue s with
  | Some v => view s = v /\ refresh s = s
  | None =>
      computedValue (refresh s) = Some (view s) /\
      match resultCache s !! current_key s with
      | Some v => view s = v /\ resultCache (refresh s) = resultCache s
      | None =>
          view s = uncachedQuery s /\
          resultCache (refresh s) =
            <[current_key s := uncachedQuery s]>
              (if Nat.ltb 100 (size (resultCache s)) then ∅
               else resultCache s)
      end
  end.
Proof.
  unfold view, refresh, filteredAndSortedLoans.
  destruct (computedValue s) eqn:E; [split; reflexivity|].
  unfold filteredAndSortedLoans_getter. fold (current_key s).
  destruct (resultCache s !! current_key s) eqn:Ek; simpl;
    repeat split; reflexivity.
Qed.

(** A miss leaves at most 101 entries, whatever the cache held: the guard
    looks at the size before the insert. *)
Lemma getter_cache_size (s : Store) :
  (size (resultCache s) <= 101 ->
   size (resultCache (snd (filteredAndSortedLoans_getter s))) <= 101)%nat.
Proof.
  intros Hs. unfold filteredAndSortedLoans_getter.
  destruct (resultCache s !! _) eqn:Ek; simpl; [exact Hs|].
  destruct (Nat.ltb 100 (size (resultCache s))) eqn:E.
  - rewrite map_size_insert_None by apply lookup_empty.
    rewrite map_size_empty. lia.
  - apply Nat.ltb_ge in E. rewrite map_size_insert_None by exact Ek. lia.
Qed.

(** A map whose keys all equal one key has at most one entry. *)
Lemma size_single_key {V} (m : gmap CacheKey V) (k0 : CacheKey) :
  (forall k v, m !! k = Some v -> k = k0) -> (size m <= 1)%nat.
Proof.
  intros Hk. destruct (m !! k0) as [v0|] eqn:E.
  - assert (m = {[k0 := v0]}) as ->.
    { apply map_eq. intros k. destruct (decide (k = k0)) as [->|Hne].
      - now rewrite lookup_singleton_eq.
      - rewrite lookup_singleton_ne by congruence.
        destruct (m !! k) eqn:Ek; [|reflexivity].
        now apply Hk in Ek. }
    now rewrite map_size_singleton.
  - assert (m = ∅) as ->.
    { apply map_empty. intros k. destruct (m !! k) eqn:Ek; [|reflexivity].
      pose proof (Hk _ _ Ek). congruence. }
    rewrite map_size_empty. lia.
Qed.

Lemma cache_keys_current_size (s : Store) :
  cache_keys_current s -> (size (resultCache s) <= 1)%nat.
Proof. apply size_single_key. Qed.

(** *** Preservation of an invariant by the actions *)

Section Preservation.
Variable I : Store -> Prop.

(** [I] looks only at the dataset, the criteria, the cache and the value
    held by the wrapper. *)
Hypothesis I_ext : forall s s',
  allLoans s' = allLoans s -> filterState s' = filterState s ->
  sortState s' = sortState s -> resultCache s' = resultCache s ->
  computedValue s' = computedValue s -> I s -> I s'.
Hypothesis I_refresh : forall s, I s -> I (refresh s).
Hypothesis I_clear : forall s, I s -> I (set_resultCache ∅ s).
Hypothesis I_filter : forall s f,
  I s -> I (set_filterState f (set_resultCache ∅ s)).
Hypothesis I_sort : forall s st,
  I s -> I (set_sortState st (set_resultCache ∅ s)).

Lemma I_set_loadedLoans s v : I s -> I (set_loadedLoans v s).
Proof. now apply I_ext. Qed.

Lemma I_set_paginationState s v : I s -> I (set_paginationState v s).
Proof. now apply I_ext. Qed.

Lemma I_set_isLoading s v : I s -> I (set_isLoading v s).
Proof. now apply I_ext. Qed.

Lemma I_set_error s v : I s -> I (set_error v s).
Proof. now apply I_ext. Qed.

Lemma I_loadNextPage s : I s -> I (loadNextPage s).
Proof.
  intros Hs. rewrite loadNextPage_cases.
  destruct (Nat.ltb 0 _); [|now apply I_refresh].
  unfold loadNextPage_result.
  now apply I_set_paginationState, I_set_loadedLoans, I_refresh.
Qed.

Lemma I_resetPagination s : I s -> I (resetPagination s).
Proof.
  intros Hs. unfold resetPagination.
  now apply I_loadNextPage, I_set_paginationState.
Qed.

Lemma I_setPageSize n s : I s -> I (setPageSize n s).
Proof.
  intros Hs. unfold setPageSize.
  rewrite filteredAndSortedLoans_eq. rewrite filteredAndSortedLoans_eq.
  apply I_set_paginationState, I_refresh, I_set_paginationState,
    I_set_loadedLoans, I_refresh, I_set_paginationState, I_clear, Hs.
Qed.

Lemma I_setSortState c d s : I s -> I (setSortState c d s).
Proof.
  intros Hs. unfold setSortState. now apply I_resetPagination, I_sort.
Qed.

Lemma I_setFilter f s : I s -> I (setFilter f s).
Proof.
  intros Hs. unfold setFilter. now apply I_resetPagination, I_filter.
Qed.

Lemma I_loadInitialData_no_data r s :
  replaces_dataset (LoadInitialData r) = false ->
  I s -> I (snd (loadInitialData r s)).
Proof.
  intros Hr Hs.
  unfold loadInitialData, loadInitialData_settle, try_catch_finally,
    loadInitialData_begin.
  destruct r as [e|[|] st [e|data]]; simpl in *; try discriminate;
    now apply I_set_isLoading, I_set_error, I_set_error, I_set_isLoading.
Qed.

(** Every action that does not assign a new dataset keeps [I]. *)
Lemma I_step_same_dataset a s :
  replaces_dataset a = false -> I s -> I (step s a).
Proof.
  intros Ha Hs. destruct a; simpl.
  - now apply I_loadInitialData_no_data.
  - now apply I_loadNextPage.
  - now apply I_setPageSize.
  - now apply I_setSortState.
  - now apply I_setFilter.
  - now apply I_resetPagination.
  - now apply I_clear.
Qed.

Lemma I_run_same_dataset actions s :
  forallb (fun a => negb (replaces_dataset a)) actions = true ->
  I s -> I (run actions s).
Proof.
  unfold run. revert s. induction actions as [|a actions IH]; simpl;
    intros s Ha Hs; [exact Hs|].
  apply Bool.andb_true_iff in Ha as [Ha Hrest].
  apply Bool.negb_true_iff in Ha.
  now apply IH, I_step_same_dataset.
Qed.

(** The same for the steps of an interleaved execution. *)
Lemma I_settle_no_data r s :
  replaces_dataset (LoadInitialData r) = false ->
  I s -> I (snd (loadInitialData_settle r s)).
Proof.
  intros Hr Hs. unfold loadInitialData_settle, try_catch_finally.
  destruct r as [e|[|] st [e|data]]; simpl in *; try discriminate;
    now apply I_set_isLoading, I_set_error.
Qed.

Lemma I_event_step_same_dataset e s :
  assigns_dataset e = false -> I s -> I (event_step s e).
Proof.
  intros He Hs. destruct e as [a| |r]; simpl.
  - now apply I_step_same_dataset.
  - now apply I_set_error, I_set_isLoading.
  - now apply I_settle_no_data.
Qed.

Lemma I_run_interleaved_same_dataset events s :
  forallb (fun e => negb (assigns_dataset e)) events = true ->
  I s -> I (run_interleaved events s).
Proof.
  unfold run_interleaved. revert s.
  induction events as [|e events IH]; simpl; intros s He Hs; [exact Hs|].
  apply Bool.andb_true_iff in He as [He Hrest].
  apply Bool.negb_true_iff in He.
  now apply IH, I_event_step_same_dataset.
Qed.

(** If [I] survives the assignment of a dataset too, every action keeps
    it. *)
Hypothesis I_allLoans : forall s d, I s -> I (set_allLoans d s).

Lemma I_step a s : I s -> I (step s a).
Proof.
  intros Hs. destruct (replaces_dataset a) eqn:Ha;
    [|now apply I_step_same_dataset].
  destruct a as [r| | | | | |]; try discriminate.
  destruct r as [e|[|] st [e|data]]; try discriminate. simpl.
  unfold loadInitialData, loadInitialData_settle, try_catch_finally,
    loadInitialData_begin. simpl.
  now apply I_set_isLoading, I_loadNextPage, I_allLoans, I_set_error,
    I_set_isLoading.
Qed.

Lemma I_run actions s : I s -> I (run actions s).
Proof.
  unfold run. revert s. induction actions as [|a actions IH]; simpl;
    intros s Hs; [exact Hs|].
  now apply IH, I_step.
Qed.

Lemma I_event_step e s : I s -> I (event_step s e).
Proof.
  intros Hs. destruct (assigns_dataset e) eqn:He;
    [|now apply I_event_step_same_dataset].
  destruct e as [a| |r]; simpl in *; try discriminate.
  - now apply I_step.
  - destruct r as [e|[|] st [e|data]]; try discriminate.
    unfold loadInitialData_settle, try_catch_finally. simpl.
    now apply I_set_isLoading, I_loadNextPage, I_allLoans.
Qed.

Lemma I_run_interleaved events s : I s -> I (run_interleaved events s).
Proof.
  unfold run_interleaved. revert s.
  induction events as [|e events IH]; simpl; intros s Hs; [exact Hs|].
  now apply IH, I_event_step.
Qed.

End Preservation.

End StoreInvariants.

(** *** The two invariants *)

Section CacheFacts.
Context `{LowerCase}.

Lemma cache_keys_current_ext (s s' : Store) :
  filterState s' = filterState s -> sortState s' = sortState s ->
  resultCache s' = resultCache s ->
  cache_keys_current s -> cache_keys_current s'.
Proof.
  unfold cache_keys_current, current_key. intros -> -> ->. auto.
Qed.

Lemma cache_keys_current_empty (s : Store) :
  resultCache s = ∅ -> cache_keys_current s.
Proof.
  intros E k v. rewrite E, lookup_empty. discriminate.
Qed.

Lemma cache_keys_current_refresh (s : Store) :
  cache_keys_current s -> cache_keys_current (refresh s).
Proof.
  intros Hs. pose proof (refresh_cache s) as Hr.
  destruct (refresh_fields s) as (_ & _ & _ & _ & Hst & Hf & _).
  destruct (computedValue s); [now destruct Hr as [_ ->]|].
  destruct Hr as [_ Hr].
  destruct (resultCache s !! current_key s);
    destruct Hr as [_ Hc].
  - now apply (cache_keys_current_ext s).
  - intros k v. rewrite Hc. unfold current_key at 2. rewrite Hf, Hst.
    fold (current_key s). intros Hk.
    apply lookup_insert_Some in Hk as [[<- _]|[Hne Hk]]; [reflexivity|].
    destruct (Nat.ltb 100 _); [now rewrite lookup_empty in Hk|].
    now apply Hs in Hk.
Qed.

(** In every store reached from the initial one, whatever the actions, all
    cache entries are filed under the current key: each change of criteria
    clears the cache first. *)
Lemma reachable_cache_keys_current (actions : list Action) :
  cache_keys_current (run actions initialStore).
Proof.
  apply (I_run cache_keys_current).
  - intros s s' _ Hf Hst Hc _. now apply cache_keys_current_ext.
  - apply cache_keys_current_refresh.
  - intros s _. now apply cache_keys_current_empty.
  - intros s f _. now apply cache_keys_current_empty.
  - intros s st _. now apply cache_keys_current_empty.
  - intros s d. now apply cache_keys_current_ext.
  - now apply cache_keys_current_empty.
Qed.

(** So the cache of a reachable store never holds more than one entry, and
    the size guard of the query never fires. *)
Lemma reachable_cache_size (actions : list Action) :
  (size (resultCache (run actions initialStore)) <= 1)%nat.
Proof. apply cache_keys_current_size, reachable_cache_keys_current. Qed.

(** The same with the loads split at their suspension points: whatever is
    interleaved with pending loads, the entries stay under the current
    key. *)
Lemma interleaved_cache_keys_current (events : list Event) :
  cache_keys_current (run_interleaved events initialStore).
Proof.
  apply (I_run_interleaved cache_keys_current).
  - intros s s' _ Hf Hst Hc _. now apply cache_keys_current_ext.
  - apply cache_keys_current_refresh.
  - intros s _. now apply cache_keys_current_empty.
  - intros s f _. now apply cache_keys_current_empty.
  - intros s st _. now apply cache_keys_current_empty.
  - intros s d. now apply cache_keys_current_ext.
  - now apply cache_keys_current_empty.
Qed.

(** An evaluation of the query getter keeps the entries under the current
    key: a miss finds the cache empty and leaves the one new entry. *)
Lemma getter_keys_current (s : Store) :
  cache_keys_current s ->
  forall k v,
    resultCache (snd (filteredAndSortedLoans_getter s)) !! k = Some v ->
    k = current_key s.
Proof.
  intros Hs k v. unfold filteredAndSortedLoans_getter.
  fold (current_key s).
  destruct (resultCache s !! current_key s) eqn:Ek; simpl; [apply Hs|].
  intros Hk. apply lookup_insert_Some in Hk as [[<- _]|[Hne Hk]];
    [reflexivity|].
  destruct (Nat.ltb 100 _); [now rewrite lookup_empty in Hk|].
  now apply Hs in Hk.
Qed.

(** C7.  In every store the module can reach (any interleaving of the
    store's actions with calls and resumptions of loads, starting from the
    empty cache) the cache holds at most 100 entries, and still does after
    an evaluation of the memoised query, be it a direct evaluation of the
    getter (a miss stores the result) or a read through the reactive
    wrapper.  (Every reachable cache holds at most one entry, so the
    post-insert count never exceeds the cap.) *)
Theorem resultCache_within_cap (events : list Event) :
  let s := run_interleaved events initialStore in
  (size (resultCache s) <= 100)%nat /\
  (size (resultCache (snd (filteredAndSortedLoans_getter s))) <= 100)%nat /\
  (size (resultCache (refresh s)) <= 100)%nat.
Proof.
  cbv zeta. set (s := run_interleaved events initialStore).
  pose proof (interleaved_cache_keys_current events) as Hs. fold s in Hs.
  pose proof (cache_keys_current_size s Hs).
  pose proof (size_single_key _ _ (getter_keys_current s Hs)).
  pose proof (cache_keys_current_size _ (cache_keys_current_refresh s Hs)).
  repeat split; lia.
Qed.

Lemma uncachedQuery_ext (s s' : Store) :
  allLoans s' = allLoans s -> filterState s' = filterState s ->
  sortState s' = sortState s -> uncachedQuery s' = uncachedQuery s.
Proof. unfold uncachedQuery. now intros -> -> ->. Qed.

Lemma cache_coherent_ext (s s' : Store) :
  allLoans s' = allLoans s -> filterState s' = filterState s ->
  sortState s' = sortState s -> resultCache s' = resultCache s ->
  computedValue s' = computedValue s ->
  cache_coherent s -> cache_coherent s'.
Proof.
  intros Ha Hf Hst Hc Hv (Hk & Hcache & Hval).
  unfold cache_coherent.
  rewrite (uncachedQuery_ext s s' Ha Hf Hst), Hv, Hc.
  split; [now apply (cache_keys_current_ext s)|].
  split; [|exact Hval].
  unfold current_key. rewrite Hf, Hst. exact Hcache.
Qed.

Lemma cache_coherent_empty (s : Store) :
  resultCache s = ∅ ->
  (forall v, computedValue s = Some v -> v = uncachedQuery s) ->
  cache_coherent s.
Proof.
  intros E Hv. split; [now apply cache_keys_current_empty|].
  split; [|exact Hv]. intros v. rewrite E, lookup_empty. discriminate.
Qed.

(** In a coherent store the query answers with the uncached computation. *)
Lemma cache_coherent_view (s : Store) :
  cache_coherent s -> view s = uncachedQuery s.
Proof.
  intros (_ & Hcache & Hval). pose proof (refresh_cache s) as Hr.
  destruct (computedValue s) as [v|].
  - destruct Hr as [-> _]. now apply Hval.
  - destruct Hr as [_ Hr].
    destruct (resultCache s !! current_key s) as [v|];
      destruct Hr as [-> _]; [now apply Hcache | reflexivity].
Qed.

Lemma cache_coherent_refresh (s : Store) :
  cache_coherent s -> cache_coherent (refresh s).
Proof.
  intros Hs. pose proof (cache_coherent_view s Hs) as Hview.
  pose proof (refresh_computed s) as Hcomp.
  destruct (refresh_fields s) as (Ha & _ & _ & _ & Hst & Hf & _).
  pose proof (uncachedQuery_ext s (refresh s) Ha Hf Hst) as Hq.
  split; [apply cache_keys_current_refresh, Hs|].
  split.
  - intros v. rewrite Hq.
    replace (current_key (refresh s)) with (current_key s)
      by (unfold current_key; now rewrite Hf, Hst).
    pose proof (refresh_cache s) as Hr.
    destruct Hs as (_ & Hcache & _).
    destruct (computedValue s); [destruct Hr as [_ ->]; apply Hcache|].
    destruct Hr as [_ Hr].
    destruct (resultCache s !! current_key s) eqn:Ek;
      destruct Hr as [_ ->].
    + rewrite Ek. apply Hcache.
    + rewrite lookup_insert_eq. congruence.
  - intros v. rewrite Hcomp, Hq, Hview. congruence.
Qed.

(** Between two replacements of the raw dataset the cached query is correct:
    from a coherent store, any actions that assign no new dataset lead to a
    store in which the query returns filter-then-sort of the current
    dataset under the current criteria. *)
Lemma query_correct_same_dataset (actions : list Action) (s : Store) :
  cache_coherent s ->
  forallb (fun a => negb (replaces_dataset a)) actions = true ->
  cache_coherent (run actions s) /\
  view (run actions s) = uncachedQuery (run actions s).
Proof.
  intros Hs Ha.
  assert (Hc : cache_coherent (run actions s)).
  { apply (I_run_same_dataset cache_coherent); try assumption.
    - intros s1 s2. apply cache_coherent_ext.
    - apply cache_coherent_refresh.
    - intros s1 (_ & _ & Hv). now apply cache_coherent_empty.
    - intros s1 f _. now apply cache_coherent_empty.
    - intros s1 st _. now apply cache_coherent_empty. }
  split; [exact Hc | now apply cache_coherent_view].
Qed.

Lemma initialStore_coherent : cache_coherent initialStore.
Proof. now apply cache_coherent_empty. Qed.

End CacheFacts.

(** ** The code on concrete inputs *)

Section Examples.
#[local] Existing Instance ascii_LowerCase.

(** Sorting the five records by amount: ascending gives ids 3, 5, 1, 2, 4;
    descending gives ids 4, 2, 1, 5, 3. *)
Example sortLoans_five_by_amount :
  map id (sortLoans five_loans (Some ColAmount) Asc) = [3; 5; 1; 2; 4]%Z /\
  map id (sortLoans five_loans (Some ColAmount) Desc) = [4; 2; 1; 5; 3]%Z.
Proof. vm_compute. split; reflexivity. Qed.

(** Status "Approved" with a minimum amount of 100 keeps exactly the
    approved records of at least that amount. *)
Example filterLoans_approved_min :
  map id (filterLoans five_loans
            (mkFilterState "" "Approved" (Some (Qc_of_Z 100)) None None None))
  = [2; 4]%Z.
Proof. vm_compute. reflexivity. Qed.

(** C1.  The mount sequence: [setPageSize(25)] on the empty store caches the
    empty result under the key of the default criteria; [loadInitialData]
    then replaces the raw dataset without clearing the cache, and the query
    keeps answering with the cached empty result although filter-then-sort
    of the current dataset gives both records.  No row is loaded. *)
Theorem stale_result_after_loadInitialData :
  allLoans store_after_mount = [loan_ann; loan_bob] /\
  uncachedQuery store_after_mount = [loan_ann; loan_bob] /\
  fst (filteredAndSortedLoans_getter store_after_mount) = ([], false) /\
  view store_after_mount = [] /\
  view store_after_mount <> uncachedQuery store_after_mount /\
  loadedLoans store_after_mount = [] /\
  error store_after_mount = None.
Proof. vm_compute. repeat split; try reflexivity. discriminate. Qed.

(** C2.  Two records with the same amount, ids 1 and 2, sorted by amount:
    ascending puts id 1 first, descending puts id 2 first (the tie-break is
    negated together with the key comparison). *)
Theorem sortLoans_desc_tie_descending_id :
  sortLoans [loan_ann; loan_bob] (Some ColAmount) Asc = [loan_ann; loan_bob]
  /\ sortLoans [loan_ann; loan_bob] (Some ColAmount) Desc
     = [loan_bob; loan_ann].
Proof. vm_compute. split; reflexivity. Qed.

(** C3.  After a load, a search term that matches nothing: the view is
    empty and the loaded-row count is 0, but the buffer still holds the two
    rows of the previous view; it is not the first [loadedRowsCount] rows of
    the current view. *)
Theorem buffer_not_prefix_after_empty_search :
  view store_after_empty_search = [] /\
  loadedRowsCount (paginationState store_after_empty_search) = 0%nat /\
  loadedLoans store_after_empty_search = [loan_ann; loan_bob] /\
  loadedLoans store_after_empty_search
  <> take (loadedRowsCount (paginationState store_after_empty_search))
          (view store_after_empty_search).
Proof. vm_compute. repeat split; try reflexivity. discriminate. Qed.

(** C10.  After a load, a status filter that matches nothing: the exposed
    loaded-row count is 0 while the exposed buffer still holds two rows. *)
Theorem loadedRowsCount_differs_from_buffer :
  loadedRowsCount (paginationState store_after_empty_status) = 0%nat /\
  length (loadedLoans store_after_empty_status) = 2%nat /\
  loadedRowsCount (paginationState store_after_empty_status)
  <> length (loadedLoans store_after_empty_status).
Proof. vm_compute. repeat split; try reflexivity. discriminate. Qed.

(** The third call on sixty records loads the partial last page. *)
Lemma loadNextPage_pages_witness :
  pageSize (paginationState store_sixty) = 25%nat /\
  length (view store_sixty) = 60%nat /\
  loadedRowsCount
    (paginationState (loadNextPage (loadNextPage (loadNextPage store_sixty))))
  = 60%nat /\
  loadNextPage (loadNextPage (loadNextPage (loadNextPage store_sixty)))
  = loadNextPage (loadNextPage (loadNextPage store_sixty)).
Proof.
  pose proof (proj2 loadNextPage_pages store_sixty) as Hw.
  cbv zeta in Hw.
  split; [reflexivity|]. split; [vm_compute; reflexivity|].
  destruct Hw as (_ & _ & _ & _ & _ & H60 & _ & Hnoop);
    try (vm_compute; reflexivity).
  split; assumption.
Defined.

(** Counterexample to the exact formula of C5.  A scroll offset of 0.1, a
    viewport of 0.2 and rows of 0.1: the sum 0.1 + 0.2 is rounded up to
    0.30000000000000004, its quotient by 0.1 is 3.0000000000000004 and the
    range ends at row 4, while the exact quotient of the three numbers is 3
    and the exact formula ends the range at row 3. *)
Lemma calculateVisibleRange_exact_formula_fails :
  Binary64.literal (1 # 10) = Binary64.Fin tenth /\
  Binary64.literal (2 # 10) = Binary64.Fin fifth /\
  ((tenth + fifth) / tenth == 3)%Q /\
  endIndex (calculateVisibleRange tenth fifth tenth 100 (Some 0)) = 3 /\
  Binary64.endIndex
    (Binary64.calculateVisibleRange
       (Binary64.Fin tenth) (Binary64.Fin fifth) (Binary64.Fin tenth)
       (Binary64.of_Z 100) (Some (Binary64.of_Z 0)))
  = Binary64.of_Z 4 /\
  Binary64.endIndex
    (Binary64.calculateVisibleRange
       (Binary64.Fin tenth) (Binary64.Fin fifth) (Binary64.Fin tenth)
       (Binary64.of_Z 100) (Some (Binary64.of_Z 0)))
  <> Binary64.of_Z
       (endIndex (calculateVisibleRange tenth fifth tenth 100 (Some 0))).
Proof. vm_compute. repeat split; try reflexivity. discriminate. Qed.

(** At the same input the range is the one of the formula on the computed
    quotients, 1 and 3.0000000000000004. *)
Lemma calculateVisibleRange_rounded_formula_witness :
  Binary64.calculateVisibleRange
    (Binary64.Fin tenth) (Binary64.Fin fifth) (Binary64.Fin tenth)
    (Binary64.of_Z 100) (Some (Binary64.of_Z 0))
  = Binary64.mkVisibleRange (Binary64.of_Z 1) (Binary64.of_Z 4).
Proof.
  change (Binary64.calculateVisibleRange
            (Binary64.Fin tenth) (Binary64.Fin fifth) (Binary64.Fin tenth)
            (Binary64.of_Z 100) (Binary64.of_Z <$> Some 0)
          = Binary64.mkVisibleRange
              (Binary64.of_Z (Z.max 0 (Qfloor 1 - default 5 (Some 0))))
              (Binary64.of_Z
                 (Z.min (100 - 1)
                    (Qceiling (6755399441055745 # 2251799813685248)
                     + default 5 (Some 0))))).
  apply (proj1 calculateVisibleRange_rounded_formula).
  - vm_compute. reflexivity.
  - vm_compute. reflexivity.
  - vm_compute. split; reflexivity.
  - vm_compute. split; reflexivity.
  - vm_compute. split; reflexivity.
Defined.


Lemma filterLoans_monotone_witness :
  strengthens (filterState initialStore)
              (with_status "Approved" (filterState initialStore)) /\
  (length (filterLoans [loan_ann; loan_bob]
             (with_status "Approved" (filterState initialStore)))
   <= length (filterLoans [loan_ann; loan_bob] (filterState initialStore)))%nat.
Proof.
  assert (Hs : strengthens (filterState initialStore)
                 (with_status "Approved" (filterState initialStore)))
    by (apply set_status; right; reflexivity).
  split; [exact Hs|].
  exact (proj1 (proj1 filterLoans_monotone [loan_ann; loan_bob] _ _ Hs)).
Defined.

(** Counterexample to the empty rows of C9.  A reload that fails after a
    successful load: the message is recorded and the two rows loaded
    earlier are still in the buffer. *)
Lemma failed_reload_keeps_rows :
  let r := FetchRejected (ThrownError "Failed to fetch") in
  let after := snd (task_run (loadInitialData_async r store_loaded_two) []) in
  loadedLoans store_loaded_two = [loan_ann; loan_bob] /\
  failure_message r = Some "Failed to fetch" /\
  error after = Some "Failed to fetch" /\
  loadedLoans after = [loan_ann; loan_bob] /\
  loadedLoans after <> [].
Proof. vm_compute. repeat split; try reflexivity. discriminate. Qed.

(** A non-OK response on the first load, with a filter change while the
    request is pending. *)
Lemma loadInitialData_settles_witness :
  failure_message (FetchResponse false "Not Found" (JsonParsed []))
  = Some "Failed to load data: Not Found" /\
  error (snd (task_run
                (loadInitialData_async
                   (FetchResponse false "Not Found" (JsonParsed []))
                   initialStore)
                [search_meanwhile]))
  = Some "Failed to load data: Not Found".
Proof.
  split; [reflexivity|].
  refine (proj1 (proj2 (proj2 (proj2
            (loadInitialData_settles
               (FetchResponse false "Not Found" (JsonParsed []))
               initialStore [search_meanwhile]))) _ _)).
  reflexivity.
Defined.

End Examples.

(** * Further properties of the code *)

(** ** [sortLoans] *)

Lemma StronglySorted_rev_flip {A} (R : A -> A -> Prop) (l : list A) :
  StronglySorted R l -> StronglySorted (fun a b => R b a) (rev l).
Proof.
  induction 1 as [|x l Hs IH Hx]; simpl; [constructor|].
  apply StronglySorted_app. split; [|split; [exact IH | repeat constructor]].
  intros a b Ha Hb. apply list_elem_of_singleton in Hb. subst b.
  rewrite Forall_forall in Hx. apply Hx.
  apply list_elem_of_In. apply in_rev. now apply list_elem_of_In.
Qed.

Lemma distinct_ids_inj (loans : list Loan) (a b : Loan) :
  distinct_ids loans -> a ∈ loans -> b ∈ loans -> id a = id b -> a = b.
Proof.
  unfold distinct_ids. induction loans as [|x l IH]; simpl;
    intros Hnd Ha Hb E; [now apply elem_of_nil in Ha|].
  apply NoDup_cons in Hnd as [Hx Hnd].
  apply elem_of_cons in Ha as [->|Ha]; apply elem_of_cons in Hb as [->|Hb].
  - reflexivity.
  - exfalso. apply Hx. rewrite E. now apply list_elem_of_fmap_2.
  - exfalso. apply Hx. rewrite <- E. now apply list_elem_of_fmap_2.
  - now apply IH.
Qed.

Section SortFurther.
Context `{LowerCase}.

Lemma asc_order_antisym c a b :
  asc_order c a b -> asc_order c b a -> id a = id b.
Proof.
  unfold asc_order. intros [Hab|[Eab Hab]] [Hba|[Eba Hba]].
  - pose proof (key_lt_asym c a b Hab). congruence.
  - destruct (tie_key_lt c b a Eba). congruence.
  - destruct (tie_key_lt c a b Eab). congruence.
  - lia.
Qed.

Lemma desc_order_flip c a b : desc_order c a b <-> asc_order c b a.
Proof.
  unfold desc_order, asc_order. split;
    (intros [E|[E Hid]]; [now left | right; split; [now symmetry | exact Hid]]).
Qed.

(** With distinct ids there is one arrangement in ascending order. *)
Lemma asc_sorted_unique c (l1 l2 : list Loan) :
  distinct_ids l1 -> l1 ≡ₚ l2 ->
  StronglySorted (asc_order c) l1 -> StronglySorted (asc_order c) l2 ->
  l1 = l2.
Proof.
  intros Hnd Hp H1 H2.
  apply (StronglySorted_unique_strong (asc_order c)); try assumption.
  intros x1 x2 Hx1 Hx2 H12 H21.
  apply (distinct_ids_inj l1); try assumption.
  - now rewrite Hp.
  - now apply (asc_order_antisym c).
Qed.

Lemma desc_sorted_unique c (l1 l2 : list Loan) :
  distinct_ids l1 -> l1 ≡ₚ l2 ->
  StronglySorted (desc_order c) l1 -> StronglySorted (desc_order c) l2 ->
  l1 = l2.
Proof.
  intros Hnd Hp H1 H2.
  apply (StronglySorted_unique_strong (desc_order c)); try assumption.
  intros x1 x2 Hx1 Hx2 H12 H21.
  apply (distinct_ids_inj l1); try assumption.
  - now rewrite Hp.
  - apply desc_order_flip in H12, H21.
    now apply (asc_order_antisym c).
Qed.

Lemma distinct_ids_perm (l1 l2 : list Loan) :
  l1 ≡ₚ l2 -> distinct_ids l1 -> distinct_ids l2.
Proof. unfold distinct_ids. now intros ->. Qed.

(** X1.  [sortLoans] only rearranges: for every column and direction the
    result holds exactly the records of the input, each as often as the
    input does, so in particular it has the same length. *)
Theorem sortLoans_rearranges (loans : list Loan)
    (c : option SortableColumn) (d : SortDirection) :
  sortLoans loans c d ≡ₚ loans /\
  length (sortLoans loans c d) = length loans /\
  (forall loan, loan ∈ sortLoans loans c d <-> loan ∈ loans).
Proof.
  pose proof (sortLoans_perm loans c d) as Hp.
  split; [exact Hp|]. split; [now rewrite Hp|].
  intros loan. now rewrite Hp.
Qed.

(** X2.  Sorted ascending on a column, every record comes before every
    record with a greater key, and records with equal keys are in ascending
    id order. *)
Theorem sortLoans_ascending_order (loans : list Loan) (c : SortableColumn) :
  StronglySorted (asc_order c) (sortLoans loans (Some c) Asc).
Proof. apply sortLoans_asc_sorted. Qed.

(** X3.  Sorted descending on a column, every record comes before every
    record with a smaller key, and records with equal keys are in descending
    id order: the direction flips the tie-break as well. *)
Theorem sortLoans_descending_order (loans : list Loan) (c : SortableColumn) :
  StronglySorted (desc_order c) (sortLoans loans (Some c) Desc).
Proof. apply sortLoans_desc_sorted. Qed.

(** X4.  Sorting an already sorted result again, by the same column and
    direction, returns it unchanged. *)
Theorem sortLoans_twice (loans : list Loan)
    (c : option SortableColumn) (d : SortDirection) :
  sortLoans (sortLoans loans c d) c d = sortLoans loans c d.
Proof. apply sortLoans_idempotent. Qed.

(** X5.  When no two records share an id, the descending order is exactly
    the ascending order reversed. *)
Theorem sortLoans_desc_is_reversed_asc
    (loans : list Loan) (c : SortableColumn) :
  distinct_ids loans ->
  sortLoans loans (Some c) Desc = rev (sortLoans loans (Some c) Asc).
Proof.
  intros Hnd. apply (desc_sorted_unique c).
  - apply (distinct_ids_perm loans); [|exact Hnd].
    symmetry. apply sortLoans_perm.
  - rewrite <- Permutation_rev. now rewrite !sortLoans_perm.
  - apply sortLoans_desc_sorted.
  - eapply StronglySorted_weaken;
      [|apply StronglySorted_rev_flip, sortLoans_asc_sorted].
    intros a b. apply desc_order_flip.
Qed.

(** X6.  When no two records share an id, the sorted result does not depend
    on the order of the input: two arrangements of the same records sort to
    the same sequence, ascending and descending. *)
Theorem sortLoans_input_order_irrelevant
    (loans1 loans2 : list Loan) (c : SortableColumn) (d : SortDirection) :
  distinct_ids loans1 -> loans1 ≡ₚ loans2 -> d <> NoDirection ->
  sortLoans loans1 (Some c) d = sortLoans loans2 (Some c) d.
Proof.
  intros Hnd Hp Hd.
  assert (Hs : sortLoans loans1 (Some c) d ≡ₚ sortLoans loans2 (Some c) d)
    by now rewrite !sortLoans_perm.
  assert (Hnd' : distinct_ids (sortLoans loans1 (Some c) d)).
  { apply (distinct_ids_perm loans1); [|exact Hnd].
    symmetry. apply sortLoans_perm. }
  destruct d; [| |congruence].
  - apply (asc_sorted_unique c); try assumption; apply sortLoans_asc_sorted.
  - apply (desc_sorted_unique c); try assumption; apply sortLoans_desc_sorted.
Qed.

End SortFurther.

(** ** [filterLoans] *)

Lemma string_ltb_false_leb (x y : string) :
  String.ltb x y = false <-> String.leb y x = true.
Proof.
  unfold String.ltb, String.leb. rewrite (String.compare_antisym y x).
  destruct (String.compare x y); simpl; split; congruence.
Qed.

Lemma Qc_ltb_false_le (x y : Qc) : Qc_ltb x y = false <-> (y <= x)%Qc.
Proof.
  split.
  - intros E. apply Qcnot_lt_le. intros Hlt. apply Qc_ltb_lt in Hlt.
    congruence.
  - intros Hle. destruct (Qc_ltb x y) eqn:E; [|reflexivity].
    apply Qc_ltb_lt in E. now apply Qclt_not_le in E.
Qed.

Lemma truthy_true (s : string) : truthy s = true <-> s <> "".
Proof. destruct s; simpl; split; congruence. Qed.

Section FilterFurther.
Context `{LowerCase}.

Lemma filterLoans_keep_met (c : FilterState) (loan : Loan) :
  filterLoans_keep c loan = true <-> criteria_met c loan.
Proof.
  rewrite keep_true_tests. unfold criteria_met.
  assert (H1 : rejects_search c loan = false <->
    (search c = "" \/
     includes (toLowerCase (borrowerName loan)) (toLowerCase (search c))
     = true)).
  { unfold rejects_search. destruct (search c) as [|a s]; simpl.
    - split; [now left | reflexivity].
    - rewrite Bool.negb_false_iff. split; [now right|].
      now intros [?|?]. }
  assert (H2 : rejects_status c loan = false <->
    (fstatus c = "" \/ fstatus c = "All" \/
     status_text (status loan) = fstatus c)).
  { unfold rejects_status.
    destruct (truthy (fstatus c)) eqn:Et; cbn [andb].
    - destruct (String.eqb (fstatus c) "All") eqn:Eall; cbn [negb andb].
      + apply String.eqb_eq in Eall. split; [now right; left | reflexivity].
      + rewrite Bool.negb_false_iff, String.eqb_eq.
        apply String.eqb_neq in Eall. apply truthy_true in Et.
        split; [now right; right|]. intros [?|[?|?]]; congruence.
    - apply truthy_false in Et. split; [now left | reflexivity]. }
  assert (H3 : rejects_minAmount c loan = false <->
    (forall m, minAmount c = Some m -> (m <= amount loan)%Qc)).
  { unfold rejects_minAmount. destruct (minAmount c) as [m|].
    - rewrite Qc_ltb_false_le. split; [now intros ? ? [= <-] | auto].
    - split; [discriminate | reflexivity]. }
  assert (H4 : rejects_maxAmount c loan = false <->
    (forall m, maxAmount c = Some m -> (amount loan <= m)%Qc)).
  { unfold rejects_maxAmount. destruct (maxAmount c) as [m|].
    - rewrite Qc_ltb_false_le. split; [now intros ? ? [= <-] | auto].
    - split; [discriminate | reflexivity]. }
  assert (H5 : rejects_startDate c loan = false <->
    (forall d, startDate c = Some d ->
               d = "" \/ String.leb d (closeDate loan) = true)).
  { unfold rejects_startDate. destruct (startDate c) as [d|].
    - rewrite Bool.andb_false_iff, string_ltb_false_leb. split.
      + intros [Ht|Hl] ? [= <-]; [left; now apply truthy_false | now right].
      + intros Hd. destruct (Hd d eq_refl) as [->|Hl]; [now left | now right].
    - split; [discriminate | reflexivity]. }
  assert (H6 : rejects_endDate c loan = false <->
    (forall d, endDate c = Some d ->
               d = "" \/ String.leb (closeDate loan) d = true)).
  { unfold rejects_endDate. destruct (endDate c) as [d|].
    - rewrite Bool.andb_false_iff, string_ltb_false_leb. split.
      + intros [Ht|Hl] ? [= <-]; [left; now apply truthy_false | now right].
      + intros Hd. destruct (Hd d eq_refl) as [->|Hl]; [now left | now right].
    - split; [discriminate | reflexivity]. }
  rewrite H1, H2, H3, H4, H5, H6. reflexivity.
Qed.

(** X7.  [filterLoans] keeps exactly the records of the input that meet the
    criteria, in their input order: name contains the search term without
    regard to case, status equal to the requested one, amount and close date
    within the bounds, both bounds included. *)
Theorem filterLoans_keeps_matching (loans : list Loan) (c : FilterState) :
  (forall loan,
      loan ∈ filterLoans loans c <-> loan ∈ loans /\ criteria_met c loan) /\
  sublist (filterLoans loans c) loans.
Proof.
  split.
  - intros loan. unfold filterLoans.
    rewrite !list_elem_of_In, filter_In, filterLoans_keep_met. reflexivity.
  - unfold filterLoans. induction loans as [|x l IH]; simpl; [constructor|].
    destruct (filterLoans_keep c x); now constructor.
Qed.

Lemma filterLoans_unconstrained_id (loans : list Loan) (c : FilterState) :
  unconstrained c -> filterLoans loans c = loans.
Proof.
  intros (Hs & Hst & Hmin & Hmax & Hsd & Hed).
  assert (Hk : forall loan, filterLoans_keep c loan = true).
  { intros loan. apply filterLoans_keep_met. unfold criteria_met.
    repeat split.
    - now left.
    - tauto.
    - intros m. rewrite Hmin. discriminate.
    - intros m. rewrite Hmax. discriminate.
    - intros d Ed. rewrite Ed in Hsd. left. now apply truthy_false.
    - intros d Ed. rewrite Ed in Hed. left. now apply truthy_false. }
  unfold filterLoans. induction loans as [|x l IH]; simpl; [reflexivity|].
  now rewrite Hk, IH.
Qed.

(** X8.  Criteria that impose nothing (no search term, status ["All"] or
    empty, no amount bound, no or empty date bounds) return the whole input
    unchanged. *)
Theorem filterLoans_unconstrained (loans : list Loan) (c : FilterState) :
  unconstrained c -> filterLoans loans c = loans.
Proof. apply filterLoans_unconstrained_id. Qed.

End FilterFurther.

(** ** Filtering and sorting together *)

Section FilterSort.
Context {A : Type} (cmp : A -> A -> Z) (p : A -> bool).
Hypothesis cmp_total : forall a b, (cmp a b <= 0 \/ cmp b a <= 0)%Z.
Hypothesis cmp_trans :
  forall a b c, (cmp a b <= 0 -> cmp b c <= 0 -> cmp a c <= 0)%Z.

Lemma sort_insert_front (x : A) (l : list A) :
  Forall (fun y => (cmp x y <= 0)%Z) l -> sort_insert cmp x l = x :: l.
Proof.
  intros Hx. destruct l as [|y l]; simpl; [reflexivity|].
  inversion Hx as [|? ? Hxy _]; subst.
  now rewrite (proj2 (Z.leb_le _ _) Hxy).
Qed.

Lemma Forall_filter_keep (P : A -> Prop) (l : list A) :
  Forall P l -> Forall P (List.filter p l).
Proof.
  induction 1 as [|y l Hy Hl IH]; simpl; [constructor|].
  destruct (p y); [now constructor | exact IH].
Qed.

Lemma filter_sort_insert (x : A) (l : list A) :
  StronglySorted (fun a b => (cmp a b <= 0)%Z) l ->
  List.filter p (sort_insert cmp x l) =
  if p x then sort_insert cmp x (List.filter p l) else List.filter p l.
Proof.
  induction 1 as [|y l Hs IH Hy]; simpl.
  - now destruct (p x).
  - destruct (cmp x y <=? 0)%Z eqn:E.
    + apply Z.leb_le in E. simpl. destruct (p x) eqn:Hpx; [|reflexivity].
      symmetry. apply sort_insert_front.
      assert (Hall : Forall (fun z => (cmp x z <= 0)%Z) (y :: l)).
      { constructor; [exact E|]. eapply Forall_impl; [exact Hy|].
        intros z Hz. now apply cmp_trans with y. }
      apply (Forall_filter_keep _ (y :: l) Hall).
    + simpl. rewrite IH. destruct (p y) eqn:Hpy, (p x) eqn:Hpx;
        try reflexivity.
      simpl. now rewrite E.
Qed.

(** Filtering a sorted array gives the sorted filtered array. *)
Lemma filter_array_sort (l : list A) :
  List.filter p (array_sort cmp l) = array_sort cmp (List.filter p l).
Proof.
  induction l as [|x l IH]; simpl; [reflexivity|].
  rewrite filter_sort_insert by now apply array_sort_sorted.
  destruct (p x); simpl; now rewrite IH.
Qed.

End FilterSort.

Section FilterSortLoans.
Context `{LowerCase}.

(** X9.  Filtering and sorting commute: filtering the sorted dataset gives
    the same sequence as sorting the filtered dataset, which is the order
    the query applies them in. *)
Theorem filterLoans_sortLoans_commute (loans : list Loan) (f : FilterState)
    (c : option SortableColumn) (d : SortDirection) :
  filterLoans (sortLoans loans c d) f = sortLoans (filterLoans loans f) c d.
Proof.
  unfold sortLoans, filterLoans. destruct c as [col|], d; try reflexivity.
  - apply filter_array_sort.
    + intros a b. rewrite !compare_asc_le. apply asc_order_total.
    + intros a b e. rewrite !compare_asc_le. apply asc_order_trans.
  - apply filter_array_sort.
    + intros a b. rewrite !compare_desc_le. apply desc_order_total.
    + intros a b e. rewrite !compare_desc_le. apply desc_order_trans.
Qed.

End FilterSortLoans.

(** ** The rendered window *)

Lemma Qdiv_nonneg (x h : Q) : (0 <= x -> 0 < h -> 0 <= x / h)%Q.
Proof.
  intros Hx Hh. apply Qle_shift_div_l; [exact Hh|].
  now rewrite Qmult_0_l.
Qed.

Lemma Qfloor_nonneg (x : Q) : (0 <= x)%Q -> (0 <= Qfloor x)%Z.
Proof. intros Hx. apply (Qfloor_resp_le 0 x Hx). Qed.

Lemma Qceiling_nonneg (x : Q) : (0 <= x)%Q -> (0 <= Qceiling x)%Z.
Proof. intros Hx. apply (Qceiling_resp_le 0 x Hx). Qed.

Lemma Qdiv_plus_distr (x y h : Q) : ((x + y) / h == x / h + y / h)%Q.
Proof. unfold Qdiv. ring. Qed.

Lemma Qceiling_plus_bound (x y : Q) :
  (Qceiling (x + y) <= Qfloor x + Qceiling y + 1)%Z.
Proof.
  rewrite <- (Qceiling_Z (Qfloor x + Qceiling y + 1)).
  apply Qceiling_resp_le.
  replace (Qfloor x + Qceiling y + 1)%Z with ((Qfloor x + 1) + Qceiling y)%Z
    by lia.
  rewrite inject_Z_plus. apply Qplus_le_compat.
  - apply Qlt_le_weak, Qlt_floor.
  - apply Qle_ceiling.
Qed.

Lemma floor_le_row (s h : Q) (i : Z) :
  (0 < h)%Q -> (s < inject_Z (i + 1) * h)%Q -> (Qfloor (s / h) <= i)%Z.
Proof.
  intros Hh Hs. apply Z.lt_succ_r. rewrite Zlt_Qlt.
  eapply Qle_lt_trans; [apply Qfloor_le|].
  now apply Qlt_shift_div_r.
Qed.

Lemma row_le_ceiling (x h : Q) (i : Z) :
  (0 < h)%Q -> (inject_Z i * h <= x)%Q -> (i <= Qceiling (x / h))%Z.
Proof.
  intros Hh Hx. rewrite Zle_Qle.
  eapply Qle_trans; [|apply Qle_ceiling].
  now apply Qle_shift_div_l.
Qed.

(** Forget what the rounded quotients are, keeping the facts about them. *)
Ltac forget_rounding :=
  repeat match goal with
         | |- context [Qfloor ?x] =>
             let f := fresh "fl" in set (f := Qfloor x) in *; clearbody f
         | |- context [Qceiling ?x] =>
             let c := fresh "ce" in set (c := Qceiling x) in *; clearbody c
         | H : context [Qfloor ?x] |- _ =>
             let f := fresh "fl" in set (f := Qfloor x) in *; clearbody f
         | H : context [Qceiling ?x] |- _ =>
             let c := fresh "ce" in set (c := Qceiling x) in *; clearbody c
         end.

(** A row whose pixel span meets the viewport lies inside the range. *)
Lemma range_contains_row
    (s v h : Q) (total overscan i : Z) :
  (0 < h)%Q -> (0 <= overscan)%Z -> (0 <= i < total)%Z ->
  (inject_Z i * h <= s + v)%Q -> (s < inject_Z (i + 1) * h)%Q ->
  let r := calculateVisibleRange s v h total (Some overscan) in
  (startIndex r <= i <= endIndex r)%Z.
Proof.
  intros Hh Ho Hi Hbot Htop r. subst r. unfold calculateVisibleRange.
  change (default 5%Z (Some overscan)) with overscan.
  cbn [startIndex endIndex].
  pose proof (floor_le_row s h i Hh Htop).
  pose proof (row_le_ceiling (s + v) h i Hh Hbot).
  forget_rounding. lia.
Qed.

Lemma array_slice_length {A} (start stop : Z) (l : list A) :
  (0 <= start)%Z -> (0 <= stop)%Z ->
  (Z.of_nat (length (array_slice start stop l)) <= Z.max 0 (stop - start))%Z.
Proof.
  intros Hs He. unfold array_slice.
  rewrite (proj2 (Z.ltb_ge start 0) Hs), (proj2 (Z.ltb_ge stop 0) He).
  rewrite length_take, length_drop. lia.
Qed.

Lemma array_slice_lookup {A} (start stop i : Z) (l : list A) :
  (0 <= start <= i)%Z -> (i < stop)%Z -> (stop <= Z.of_nat (length l))%Z ->
  array_slice start stop l !! Z.to_nat (i - start) = l !! Z.to_nat i.
Proof.
  intros Hs Hi He. unfold array_slice.
  rewrite (proj2 (Z.ltb_ge start 0)) by lia.
  rewrite (proj2 (Z.ltb_ge stop 0)) by lia.
  rewrite lookup_take_lt by lia. rewrite lookup_drop. f_equal. lia.
Qed.

(** *** The window on integer geometry

    With integer pixel geometry below 2^53 (the table's own set-up: rows
    of 60 pixels in a viewport of 600) the binary64 evaluation of the
    window is exact. *)

Lemma Binary64_array_slice_integers {A} (start stop : Z) (l : list A) :
  Binary64.array_slice (Binary64.of_Z start) (Binary64.of_Z stop) l
  = array_slice start stop l.
Proof.
  assert (Ht : forall z, Binary64.truncate (inject_Z z) = z).
  { intros z. unfold Binary64.truncate.
    destruct (Qle_bool 0 (inject_Z z)); [apply Qfloor_Z|apply Qceiling_Z]. }
  unfold Binary64.array_slice, array_slice, Binary64.relative_index,
    Binary64.of_Z.
  now rewrite !Ht.
Qed.

Lemma inject_Z_pos (z : Z) : (0 < z)%Z -> (0 < inject_Z z)%Q.
Proof. intros Hz. change 0%Q with (inject_Z 0). now rewrite <- Zlt_Qlt. Qed.

Lemma inject_Z_nonneg (z : Z) : (0 <= z)%Z -> (0 <= inject_Z z)%Q.
Proof. intros Hz. change 0%Q with (inject_Z 0). now rewrite <- Zle_Qle. Qed.

(** The range of the exact evaluation stays well inside the safe
    integers. *)
Lemma exact_range_bounds
    (itemHeight containerHeight overscan scrollTop n : Z) :
  (0 < itemHeight)%Z -> (0 <= scrollTop)%Z -> (0 <= containerHeight)%Z ->
  (0 <= n)%Z ->
  let r :=
    calculateVisibleRange (inject_Z scrollTop) (inject_Z containerHeight)
                          (inject_Z itemHeight) n (Some overscan) in
  (0 <= startIndex r)%Z /\ (-1 - Z.abs overscan <= endIndex r < n)%Z.
Proof.
  intros Hh Hs Hv Hn r. subst r. unfold calculateVisibleRange.
  change (default 5%Z (Some overscan)) with overscan.
  cbn [startIndex endIndex].
  assert (Hsv : (0 <= inject_Z scrollTop + inject_Z containerHeight)%Q).
  { pose proof (inject_Z_nonneg _ Hs). pose proof (inject_Z_nonneg _ Hv).
    lra. }
  pose proof (Qceiling_nonneg _ (Qdiv_nonneg _ _ Hsv (inject_Z_pos _ Hh)))
    as Hc.
  forget_rounding. lia.
Qed.

(** The range and the rendered rows, computed on binary64 numbers, are
    those of the exact evaluation. *)
Lemma calculateVisibleItems_integers
    (itemHeight containerHeight overscan scrollTop n : Z) :
  (0 < itemHeight < 2 ^ 53)%Z -> (0 <= scrollTop)%Z ->
  (0 <= containerHeight)%Z ->
  (scrollTop + containerHeight + Z.abs overscan < 2 ^ 53)%Z ->
  (0 <= n < 2 ^ 53)%Z ->
  let r :=
    calculateVisibleRange (inject_Z scrollTop) (inject_Z containerHeight)
                          (inject_Z itemHeight) n (Some overscan) in
  Binary64.calculateVisibleItems
    (Binary64.mkVirtualScroll
       (Binary64.of_Z itemHeight) (Binary64.of_Z containerHeight)
       (Binary64.of_Z overscan) (Binary64.of_Z scrollTop))
    (Binary64.of_Z n)
  = Binary64.mkVisibleRange (Binary64.of_Z (startIndex r))
                            (Binary64.of_Z (endIndex r)).
Proof.
  intros Hh Hs Hv Hsafe Hn r. subst r.
  unfold Binary64.calculateVisibleItems.
  cbn [Binary64.vs_scrollTop Binary64.vs_containerHeight
       Binary64.vs_itemHeight Binary64.vs_overscan].
  change (Some (Binary64.of_Z overscan))
    with (Binary64.of_Z <$> Some overscan).
  apply (calculateVisibleRange_integers scrollTop containerHeight itemHeight
           n (Some overscan)); try assumption.
  unfold Binary64.safe_integer. lia.
Qed.

Lemma visibleItems_integers {A}
    (itemHeight containerHeight overscan scrollTop : Z) (items : list A) :
  (0 < itemHeight < 2 ^ 53)%Z -> (0 <= scrollTop)%Z ->
  (0 <= containerHeight)%Z ->
  (scrollTop + containerHeight + Z.abs overscan < 2 ^ 53)%Z ->
  (Z.of_nat (length items) < 2 ^ 53)%Z ->
  let r :=
    calculateVisibleRange (inject_Z scrollTop) (inject_Z containerHeight)
                          (inject_Z itemHeight) (Z.of_nat (length items))
                          (Some overscan) in
  Binary64.visibleItems
    (Binary64.mkVirtualScroll
       (Binary64.of_Z itemHeight) (Binary64.of_Z containerHeight)
       (Binary64.of_Z overscan) (Binary64.of_Z scrollTop))
    items
  = array_slice (startIndex r) (endIndex r + 1) items.
Proof.
  intros Hh Hs Hv Hsafe Hn r. unfold Binary64.visibleItems.
  rewrite calculateVisibleItems_integers by (try assumption; lia).
  cbn [Binary64.startIndex Binary64.endIndex]. fold r.
  destruct (exact_range_bounds itemHeight containerHeight overscan scrollTop
              (Z.of_nat (length items)))
    as (_ & He); try lia.
  fold r in He.
  rewrite fadd_Z by (unfold Binary64.safe_integer; lia).
  apply Binary64_array_slice_integers.
Qed.

(** X10.  The number of rows handed to the renderer is bounded by the
    viewport, not by the data: for integer pixel geometry (a positive row
    height, a non-negative scroll offset, viewport height and overscan, all
    below 2^53), at most
    [ceil(containerHeight / itemHeight) + 2 * overscan + 2] rows are
    rendered, however many items there are. *)
Theorem visibleItems_bounded {A}
    (itemHeight containerHeight overscan scrollTop : Z) (items : list A) :
  (0 < itemHeight < 2 ^ 53)%Z -> (0 <= scrollTop)%Z ->
  (0 <= containerHeight)%Z -> (0 <= overscan)%Z ->
  (scrollTop + containerHeight + overscan < 2 ^ 53)%Z ->
  (Z.of_nat (length items) < 2 ^ 53)%Z ->
  let vs :=
    Binary64.mkVirtualScroll
      (Binary64.of_Z itemHeight) (Binary64.of_Z containerHeight)
      (Binary64.of_Z overscan) (Binary64.of_Z scrollTop) in
  (Z.of_nat (length (Binary64.visibleItems vs items))
   <= Qceiling (inject_Z containerHeight / inject_Z itemHeight)
      + 2 * overscan + 2)%Z.
Proof.
  intros Hh Hs Hv Ho Hsafe Hn vs. subst vs.
  rewrite visibleItems_integers by (try assumption; lia).
  unfold calculateVisibleRange.
  change (default 5%Z (Some overscan)) with overscan.
  cbn [startIndex endIndex].
  set (s := inject_Z scrollTop). set (v := inject_Z containerHeight).
  set (h := inject_Z itemHeight).
  assert (Hh' : (0 < h)%Q) by (apply inject_Z_pos; lia).
  assert (Hs' : (0 <= s)%Q) by now apply inject_Z_nonneg.
  assert (Hv' : (0 <= v)%Q) by now apply inject_Z_nonneg.
  pose proof (Qfloor_nonneg (s / h) (Qdiv_nonneg s h Hs' Hh')) as Hf.
  assert (Hsv : (0 <= s + v)%Q) by lra.
  pose proof (Qceiling_nonneg ((s + v) / h) (Qdiv_nonneg _ h Hsv Hh')) as Hc.
  pose proof (Qceiling_nonneg (v / h) (Qdiv_nonneg v h Hv' Hh')) as Hcv.
  pose proof (Qceiling_plus_bound (s / h) (v / h)) as Hb.
  rewrite <- (Qceiling_comp _ _ (Qdiv_plus_distr s v h)) in Hb.
  forget_rounding.
  etransitivity; [apply array_slice_length; lia|]. lia.
Qed.

(** X11.  No row that meets the viewport is missing from the rendered
    window: for integer pixel geometry below 2^53 and a non-negative
    overscan, a row [i] of the items whose span
    [[i * itemHeight, (i + 1) * itemHeight)] meets
    [[scrollTop, scrollTop + containerHeight]] lies in the computed range
    and is the row rendered at position [i - startIndex]. *)
Theorem visibleItems_cover_viewport {A}
    (itemHeight containerHeight overscan scrollTop : Z) (items : list A)
    (i : Z) :
  (0 < itemHeight < 2 ^ 53)%Z -> (0 <= scrollTop)%Z ->
  (0 <= containerHeight)%Z -> (0 <= overscan)%Z ->
  (scrollTop + containerHeight + overscan < 2 ^ 53)%Z ->
  (0 <= i < Z.of_nat (length items))%Z ->
  (Z.of_nat (length items) < 2 ^ 53)%Z ->
  (i * itemHeight <= scrollTop + containerHeight)%Z ->
  (scrollTop < (i + 1) * itemHeight)%Z ->
  let vs :=
    Binary64.mkVirtualScroll
      (Binary64.of_Z itemHeight) (Binary64.of_Z containerHeight)
      (Binary64.of_Z overscan) (Binary64.of_Z scrollTop) in
  exists first last : Z,
    Binary64.calculateVisibleItems
      vs (Binary64.of_Z (Z.of_nat (length items)))
    = Binary64.mkVisibleRange (Binary64.of_Z first) (Binary64.of_Z last) /\
    (first <= i <= last)%Z /\
    Binary64.visibleItems vs items !! Z.to_nat (i - first)
    = items !! Z.to_nat i.
Proof.
  intros Hh Hs Hv Ho Hsafe Hi Hn Hbot Htop vs. subst vs.
  set (r := calculateVisibleRange (inject_Z scrollTop)
              (inject_Z containerHeight) (inject_Z itemHeight)
              (Z.of_nat (length items)) (Some overscan)).
  exists (startIndex r), (endIndex r).
  split; [apply calculateVisibleItems_integers; try assumption; lia|].
  assert (Hh' : (0 < inject_Z itemHeight)%Q) by (apply inject_Z_pos; lia).
  assert (Hr : (startIndex r <= i <= endIndex r)%Z).
  { apply range_contains_row; try assumption.
    - rewrite <- inject_Z_plus, <- inject_Z_mult, <- Zle_Qle. exact Hbot.
    - rewrite <- inject_Z_mult, <- Zlt_Qlt. exact Htop. }
  split; [exact Hr|].
  rewrite visibleItems_integers by (try assumption; lia). fold r.
  apply array_slice_lookup.
  - split; [|lia]. subst r. unfold calculateVisibleRange.
    cbn [startIndex]. forget_rounding. lia.
  - lia.
  - clear Hr. subst r. unfold calculateVisibleRange.
    cbn [endIndex]. forget_rounding. lia.
Qed.

Lemma array_slice_length_rest {A} (start stop : Z) (l : list A) :
  (0 <= start <= Z.of_nat (length l))%Z ->
  (Z.of_nat (length (array_slice start stop l))
   <= Z.of_nat (length l) - start)%Z.
Proof.
  intros Hs. unfold array_slice.
  rewrite (proj2 (Z.ltb_ge start 0)) by lia.
  rewrite length_take, length_drop. lia.
Qed.

(** X12.  The rendered block stays inside the scrollable body: for integer
    pixel geometry with a body height [length * itemHeight] below 2^53, a
    non-negative overscan and a scroll offset between 0 and the height of
    the body, [totalHeight] is the exact product, the offset of the block is
    a non-negative integer, and the offset plus the height of the rendered
    rows does not exceed the total height. *)
Theorem rendered_block_within_body {A}
    (itemHeight containerHeight overscan scrollTop : Z) (items : list A) :
  (0 < itemHeight < 2 ^ 53)%Z -> (0 <= overscan)%Z ->
  (0 <= containerHeight)%Z ->
  (0 <= scrollTop <= Z.of_nat (length items) * itemHeight)%Z ->
  (scrollTop + containerHeight + overscan < 2 ^ 53)%Z ->
  (Z.of_nat (length items) * itemHeight < 2 ^ 53)%Z ->
  let vs :=
    Binary64.mkVirtualScroll
      (Binary64.of_Z itemHeight) (Binary64.of_Z containerHeight)
      (Binary64.of_Z overscan) (Binary64.of_Z scrollTop) in
  Binary64.totalHeight vs items
  = Binary64.of_Z (Z.of_nat (length items) * itemHeight) /\
  exists y : Z,
    Binary64.offsetY vs items = Binary64.of_Z y /\
    (0 <= y)%Z /\
    (y + Z.of_nat (length (Binary64.visibleItems vs items)) * itemHeight
     <= Z.of_nat (length items) * itemHeight)%Z.
Proof.
  intros Hh Ho Hv Hs Hsafe Hbody vs. subst vs.
  set (n := Z.of_nat (length items)) in *.
  assert (Hn : (n < 2 ^ 53)%Z) by nia.
  set (r := calculateVisibleRange (inject_Z scrollTop)
              (inject_Z containerHeight) (inject_Z itemHeight)
              n (Some overscan)).
  assert (Hh' : (0 < inject_Z itemHeight)%Q) by (apply inject_Z_pos; lia).
  assert (Hstart : (0 <= startIndex r <= n)%Z).
  { subst r. unfold calculateVisibleRange.
    change (default 5%Z (Some overscan)) with overscan.
    cbn [startIndex].
    assert (Hs' : (0 <= inject_Z scrollTop)%Q)
      by (apply inject_Z_nonneg; lia).
    pose proof (Qfloor_nonneg _ (Qdiv_nonneg _ _ Hs' Hh')) as Hf.
    assert (Hfn : (Qfloor (inject_Z scrollTop / inject_Z itemHeight)
                   <= n)%Z).
    { rewrite <- (Qfloor_Z n). apply Qfloor_resp_le.
      apply Qle_shift_div_r; [exact Hh'|].
      rewrite <- inject_Z_mult, <- Zle_Qle. lia. }
    forget_rounding. lia. }
  split.
  - unfold Binary64.totalHeight. cbn [Binary64.vs_itemHeight]. fold n.
    apply fmul_Z; [lia|lia|]. unfold Binary64.safe_integer. nia.
  - exists (startIndex r * itemHeight)%Z. split; [|split].
    + unfold Binary64.offsetY.
      rewrite calculateVisibleItems_integers by (try assumption; lia).
      cbn [Binary64.startIndex Binary64.vs_itemHeight]. fold n. fold r.
      apply fmul_Z; [lia|lia|]. unfold Binary64.safe_integer. nia.
    + nia.
    + rewrite visibleItems_integers by (try assumption; lia).
      fold n. fold r.
      pose proof (array_slice_length_rest (startIndex r) (endIndex r + 1)
                    items Hstart) as Hlen.
      fold n in Hlen. nia.
Qed.



(** ** The pagination machine *)

Section PaginationFurther.
Context `{LowerCase}.

Lemma view_refresh (s : Store) : view (refresh s) = view s.
Proof. apply (refresh_clean _ _ (refresh_computed s)). Qed.

(** [loadNextPage] touches neither the dataset nor the criteria nor the
    flags nor the page size, and the query keeps its value. *)
Lemma loadNextPage_keeps (s : Store) :
  allLoans (loadNextPage s) = allLoans s /\
  isLoading (loadNextPage s) = isLoading s /\
  error (loadNextPage s) = error s /\
  sortState (loadNextPage s) = sortState s /\
  filterState (loadNextPage s) = filterState s /\
  pageSize (paginationState (loadNextPage s)) = pageSize (paginationState s) /\
  view (loadNextPage s) = view s.
Proof.
  destruct (refresh_fields s) as (Ha & _ & Hi & He & Hst & Hf & Hp).
  rewrite loadNextPage_cases. destruct (Nat.ltb 0 _).
  - rewrite loadNextPage_result_view. unfold loadNextPage_result. simpl.
    repeat split; assumption.
  - rewrite view_refresh, Hp. repeat split; assumption.
Qed.

Lemma nextPage_nil_iff (s : Store) :
  nextPage s = [] <->
  (pageSize (paginationState s) = 0 \/
   length (view s)
   <= currentPage (paginationState s) * pageSize (paginationState s))%nat.
Proof.
  unfold nextPage, slice. rewrite <- length_zero_iff_nil.
  rewrite length_take, length_drop. lia.
Qed.

(** What one call does to the page counter. *)
Lemma loadNextPage_counter (s : Store) :
  (nextPage s = [] /\
   currentPage (paginationState (loadNextPage s))
   = currentPage (paginationState s)) \/
  (nextPage s <> [] /\
   currentPage (paginationState (loadNextPage s))
   = S (currentPage (paginationState s))).
Proof.
  rewrite loadNextPage_cases.
  destruct (Nat.ltb 0 (length (nextPage s))) eqn:E.
  - right. split; [|reflexivity]. intros Hnil. rewrite Hnil in E. discriminate.
  - left. apply length_nil_iff in E. split; [exact E|].
    now destruct (refresh_fields s) as (_ & _ & _ & _ & _ & _ & ->).
Qed.

Lemma loaded_prefix_length (s : Store) :
  loaded_prefix s ->
  length (loadedLoans s)
  = Nat.min (currentPage (paginationState s) * pageSize (paginationState s))
            (length (view s)).
Proof. intros [-> _]. apply length_take. Qed.

(** The state after [k >= 1] calls from page 0 on a non-empty view. *)
Lemma loadNextPage_iter_invariant (s : Store) (k : nat) :
  currentPage (paginationState s) = 0%nat ->
  (0 < pageSize (paginationState s))%nat -> view s <> [] ->
  let s' := Nat.iter (S k) loadNextPage s in
  let cp := currentPage (paginationState s') in
  let ps := pageSize (paginationState s) in
  loaded_prefix s' /\ view s' = view s /\
  pageSize (paginationState s') = ps /\
  (cp <= S k)%nat /\ (cp < S k -> length (view s) <= cp * ps)%nat.
Proof.
  intros Hcp Hps Hv. induction k as [|k IH]; cbv zeta.
  - simpl. destruct (loadNextPage_keeps s) as (_ & _ & _ & _ & _ & Hp & Hview).
    assert (Hne : nextPage s <> []).
    { rewrite nextPage_nil_iff, Hcp. destruct (view s); simpl; [congruence|].
      lia. }
    destruct (loadNextPage_counter s) as [[Hnil _]|[_ Hc]]; [congruence|].
    repeat split; try assumption.
    + now apply loaded_prefix_first_page.
    + now apply loaded_prefix_first_page.
    + lia.
    + lia.
  - cbv zeta in IH. destruct IH as (Hpre & Hview & Hp & Hle & Hdone).
    change (Nat.iter (S (S k)) loadNextPage s)
      with (loadNextPage (Nat.iter (S k) loadNextPage s)).
    set (t := Nat.iter (S k) loadNextPage s) in *.
    destruct (loadNextPage_keeps t) as (_ & _ & _ & _ & _ & Hp' & Hview').
    pose proof (loaded_prefix_loadNextPage t Hpre) as Hpre'.
    destruct Hpre' as [Hl' Hc'].
    rewrite Hview', Hview, Hp', Hp.
    destruct (loadNextPage_counter t) as [[Hnil Hc]|[Hne Hc]].
    + apply nextPage_nil_iff in Hnil. rewrite Hview, Hp in Hnil.
      rewrite Hc. repeat split; try assumption; lia.
    + rewrite nextPage_nil_iff, Hview, Hp in Hne. rewrite Hc.
      repeat split; try assumption; lia.
Qed.

(** X15.  Loading page after page from page 0: on a non-empty view and with
    a positive page size, after [k >= 1] calls of [loadNextPage] the buffer
    is the first [k * pageSize] rows of the view and the advertised count is
    its length; once [k * pageSize] reaches the length of the view, the
    buffer is the whole view and [hasMoreData] is false. *)
Theorem loadNextPage_repeated (s : Store) (k : nat) :
  currentPage (paginationState s) = 0%nat ->
  (0 < pageSize (paginationState s))%nat -> view s <> [] -> (1 <= k)%nat ->
  let s' := Nat.iter k loadNextPage s in
  let ps := pageSize (paginationState s) in
  loadedLoans s' = take (k * ps) (view s) /\
  loadedRowsCount (paginationState s') = Nat.min (k * ps) (length (view s)) /\
  view s' = view s /\
  (length (view s) <= k * ps ->
   loadedLoans s' = view s /\ hasMoreData s' = false)%nat.
Proof.
  intros Hcp Hps Hv Hk. destruct k as [|k]; [lia|].
  pose proof (loadNextPage_iter_invariant s k Hcp Hps Hv) as Hinv.
  cbv zeta in *. destruct Hinv as ([Hl Hc] & Hview & Hp & Hle & Hdone).
  set (s' := Nat.iter (S k) loadNextPage s) in *.
  set (ps := pageSize (paginationState s)) in *.
  assert (Hbuf : loadedLoans s' = take (S k * ps) (view s)).
  { rewrite Hl, Hview, Hp.
    destruct (Nat.eq_dec (currentPage (paginationState s')) (S k)) as [->|Hn];
      [reflexivity|].
    rewrite !take_ge; [reflexivity | nia | apply Hdone; lia]. }
  split; [exact Hbuf|]. split; [now rewrite Hc, Hbuf, length_take|].
  split; [exact Hview|]. intros Hall.
  assert (Hwhole : loadedLoans s' = view s)
    by (rewrite Hbuf; now apply take_ge).
  split; [exact Hwhole|].
  unfold hasMoreData. rewrite Hwhole, Hview. apply Nat.ltb_irrefl.
Qed.

(** X16.  While the buffer is the loaded prefix of the view and the page
    size is positive, [hasMoreData] tells exactly whether [loadNextPage]
    does something: if it is true the call makes the buffer strictly longer
    (and keeps it a prefix), if it is false the call leaves buffer and
    pagination state as they are. *)
Theorem hasMoreData_loadNextPage (s : Store) :
  loaded_prefix s -> (0 < pageSize (paginationState s))%nat ->
  (hasMoreData s = true ->
   (length (loadedLoans s) < length (loadedLoans (loadNextPage s)))%nat /\
   loaded_prefix (loadNextPage s)) /\
  (hasMoreData s = false ->
   loadedLoans (loadNextPage s) = loadedLoans s /\
   paginationState (loadNextPage s) = paginationState s).
Proof.
  intros Hpre Hps. pose proof (loaded_prefix_length s Hpre) as Hlen.
  pose proof (loaded_prefix_loadNextPage s Hpre) as Hpre'.
  pose proof (loaded_prefix_length _ Hpre') as Hlen'.
  destruct (loadNextPage_keeps s) as (_ & _ & _ & _ & _ & Hp & Hview).
  rewrite Hview, Hp in Hlen'.
  unfold hasMoreData. split.
  - intros Hmore. apply Nat.ltb_lt in Hmore. split; [|exact Hpre'].
    destruct (loadNextPage_counter s) as [[Hnil _]|[_ Hc]].
    + apply nextPage_nil_iff in Hnil. lia.
    + rewrite Hc in Hlen'. nia.
  - intros Hmore. apply Nat.ltb_ge in Hmore.
    assert (Hnil : nextPage s = []) by (apply nextPage_nil_iff; lia).
    rewrite loadNextPage_cases, (proj2 (length_nil_iff _) Hnil).
    destruct (refresh_fields s) as (_ & Hl & _ & _ & _ & _ & Hpg).
    now split.
Qed.

(** [setPageSize] written out. *)
Lemma setPageSize_eq (n : nat) (s : Store) :
  let s2 :=
    set_paginationState
      (set_loadedRowsCount 0
         (set_currentPage 0 (set_pageSize n (paginationState s))))
      (set_resultCache ∅ s) in
  setPageSize n s =
  set_paginationState
    (mkPaginationState n 1 (ceil_div (length (view s2)) n)
                       (length (slice 0 n (view s2))))
    (set_loadedLoans (slice 0 n (view s2)) (refresh s2)) /\
  view (setPageSize n s) = view s2.
Proof.
  intros s2.
  assert (E : setPageSize n s =
    set_paginationState
      (mkPaginationState n 1 (ceil_div (length (view s2)) n)
                         (length (slice 0 n (view s2))))
      (set_loadedLoans (slice 0 n (view s2)) (refresh s2))).
  { unfold setPageSize. fold s2. rewrite (filteredAndSortedLoans_eq s2).
    cbv beta iota zeta.
    erewrite filteredAndSortedLoans_clean
      by (simpl; apply refresh_computed).
    destruct (refresh_fields s2) as (_ & _ & _ & _ & _ & _ & Hp).
    unfold set_paginationState, set_loadedLoans, set_totalPages,
      set_loadedRowsCount, set_currentPage. simpl. rewrite Hp. reflexivity. }
  split; [exact E|]. rewrite E.
  apply refresh_clean. simpl. apply refresh_computed.
Qed.

(** X17.  [setPageSize(n)] with a positive [n] always starts over from the
    top: whatever was loaded before, afterwards the page size is [n], the
    page counter is 1, the buffer is the first [n] rows of the view, the
    advertised count is its length and [totalPages] is the ceiling of the
    view length over [n]. *)
Theorem setPageSize_first_page (n : nat) (s : Store) :
  (0 < n)%nat ->
  let s' := setPageSize n s in
  pageSize (paginationState s') = n /\
  currentPage (paginationState s') = 1%nat /\
  loadedLoans s' = take n (view s') /\
  loadedRowsCount (paginationState s') = Nat.min n (length (view s')) /\
  totalPages (paginationState s') = ceil_div (length (view s')) n.
Proof.
  intros _. cbv zeta. destruct (setPageSize_eq n s) as [E Hv].
  cbv zeta in E, Hv.
  rewrite Hv, E. simpl. unfold slice. rewrite drop_0, length_take.
  repeat split; f_equal; lia.
Qed.

End PaginationFurther.

(** ** Criteria changes, loads and the query *)

Section QueryFurther.
Context `{LowerCase}.

Lemma cache_coherent_resetPagination (s : Store) :
  cache_coherent s -> cache_coherent (resetPagination s).
Proof.
  apply (I_resetPagination cache_coherent).
  - intros s1 s2. apply cache_coherent_ext.
  - apply cache_coherent_refresh.
Qed.

Lemma resetPagination_keeps (s : Store) :
  allLoans (resetPagination s) = allLoans s /\
  isLoading (resetPagination s) = isLoading s /\
  error (resetPagination s) = error s /\
  sortState (resetPagination s) = sortState s /\
  filterState (resetPagination s) = filterState s /\
  pageSize (paginationState (resetPagination s))
  = pageSize (paginationState s) /\
  view (resetPagination s) = view s.
Proof.
  unfold resetPagination. fold (reset_counters s).
  destruct (loadNextPage_keeps (reset_counters s))
    as (-> & -> & -> & -> & -> & -> & ->).
  unfold reset_counters. rewrite view_set_paginationState.
  repeat split.
Qed.

(** A first page that is not empty becomes the buffer. *)
Lemma first_page_loaded (s : Store) :
  currentPage (paginationState s) = 0%nat ->
  (0 < pageSize (paginationState s))%nat -> view s <> [] ->
  loadedLoans (loadNextPage s)
  = take (pageSize (paginationState s)) (view s) /\
  loadedRowsCount (paginationState (loadNextPage s))
  = length (loadedLoans (loadNextPage s)).
Proof.
  intros Hcp Hps Hv.
  assert (Hne : nextPage s <> []).
  { rewrite nextPage_nil_iff, Hcp. destruct (view s); simpl; [congruence|].
    lia. }
  destruct (loaded_prefix_first_page s Hcp Hne) as [Hl Hc].
  destruct (loadNextPage_keeps s) as (_ & _ & _ & _ & _ & Hp & Hview).
  destruct (loadNextPage_counter s) as [[Hnil _]|[_ Hcnt]]; [congruence|].
  rewrite Hcnt, Hcp, Hp, Hview in Hl. split; [|exact Hc].
  rewrite Hl. f_equal. lia.
Qed.

Lemma resetPagination_first_page (s : Store) :
  (0 < pageSize (paginationState s))%nat -> view s <> [] ->
  loadedLoans (resetPagination s)
  = take (pageSize (paginationState s)) (view s).
Proof.
  intros Hps Hv. unfold resetPagination. fold (reset_counters s).
  assert (Hview : view (reset_counters s) = view s)
    by apply view_set_paginationState.
  destruct (first_page_loaded (reset_counters s)) as [Hl _];
    [reflexivity | exact Hps | now rewrite Hview |].
  rewrite Hl, Hview. reflexivity.
Qed.

(** After [setFilter] the query is evaluated afresh. *)
Lemma setFilter_fresh (f : PartialFilterState) (s : Store) :
  let s' := setFilter f s in
  filterState s' = merge_filter (filterState s) f /\
  sortState s' = sortState s /\ allLoans s' = allLoans s /\
  pageSize (paginationState s') = pageSize (paginationState s) /\
  view s' = uncachedQuery s'.
Proof.
  cbv zeta. unfold setFilter.
  set (t := set_filterState _ (set_resultCache ∅ s)).
  assert (Ht : cache_coherent t)
    by (apply cache_coherent_empty; [reflexivity | discriminate]).
  destruct (resetPagination_keeps t) as (-> & _ & _ & -> & -> & -> & _).
  repeat split.
  now apply cache_coherent_view, cache_coherent_resetPagination.
Qed.

Lemma setSortState_fresh (c : SortableColumn) (d : SortDirection)
    (s : Store) :
  let s' := setSortState c d s in
  sortState s' = mkSortState (Some c) d /\
  filterState s' = filterState s /\ allLoans s' = allLoans s /\
  pageSize (paginationState s') = pageSize (paginationState s) /\
  view s' = uncachedQuery s'.
Proof.
  cbv zeta. unfold setSortState.
  set (t := set_sortState _ (set_resultCache ∅ s)).
  assert (Ht : cache_coherent t)
    by (apply cache_coherent_empty; [reflexivity | discriminate]).
  destruct (resetPagination_keeps t) as (-> & _ & _ & -> & -> & -> & _).
  repeat split.
  now apply cache_coherent_view, cache_coherent_resetPagination.
Qed.

(** X18.  A change of criteria always shows fresh results, whatever the
    store held before: after [setFilter] (and likewise after
    [setSortState]) the criteria are the merged ones, the dataset is
    untouched, the query returns filter-then-sort of the current dataset
    under the new criteria, and, when that result is not empty and the page
    size is positive, the buffer is its first page. *)
Theorem criteria_change_refreshes (s : Store) :
  (forall f : PartialFilterState,
      let s' := setFilter f s in
      filterState s' = merge_filter (filterState s) f /\
      sortState s' = sortState s /\ allLoans s' = allLoans s /\
      view s' = uncachedQuery s' /\
      (view s' <> [] -> (0 < pageSize (paginationState s))%nat ->
       loadedLoans s' = take (pageSize (paginationState s)) (view s'))) /\
  (forall (c : SortableColumn) (d : SortDirection),
      let s' := setSortState c d s in
      sortState s' = mkSortState (Some c) d /\
      filterState s' = filterState s /\ allLoans s' = allLoans s /\
      view s' = uncachedQuery s' /\
      (view s' <> [] -> (0 < pageSize (paginationState s))%nat ->
       loadedLoans s' = take (pageSize (paginationState s)) (view s'))).
Proof.
  split.
  - intros f. destruct (setFilter_fresh f s) as (Hf & Hst & Ha & Hp & Hv).
    cbv zeta in *. repeat split; try assumption.
    intros Hne Hps. unfold setFilter in *.
    set (t := set_filterState _ (set_resultCache ∅ s)) in *.
    destruct (resetPagination_keeps t) as (_ & _ & _ & _ & _ & _ & Hview).
    rewrite Hview in *. now apply (resetPagination_first_page t).
  - intros c d.
    destruct (setSortState_fresh c d s) as (Hst & Hf & Ha & Hp & Hv).
    cbv zeta in *. repeat split; try assumption.
    intros Hne Hps. unfold setSortState in *.
    set (t := set_sortState _ (set_resultCache ∅ s)) in *.
    destruct (resetPagination_keeps t) as (_ & _ & _ & _ & _ & _ & Hview).
    rewrite Hview in *. now apply (resetPagination_first_page t).
Qed.

(** The store a successful load leaves, from the store in which it last
    resumed. *)
Lemma loadInitialData_settle_fetched (statusText : string)
    (data : list Loan) (s : Store) :
  snd (loadInitialData_settle (fetched statusText data) s)
  = set_isLoading false (loadNextPage (set_allLoans data s)).
Proof. reflexivity. Qed.

Lemma cache_coherent_settled (statusText : string) (data : list Loan)
    (s : Store) :
  query_unevaluated s ->
  cache_coherent (snd (loadInitialData_settle (fetched statusText data) s)).
Proof.
  intros [Hc Hv]. rewrite loadInitialData_settle_fetched.
  apply (I_set_isLoading cache_coherent);
    [intros s1 s2; apply cache_coherent_ext|].
  apply (I_loadNextPage cache_coherent);
    [intros s1 s2; apply cache_coherent_ext | apply cache_coherent_refresh|].
  apply cache_coherent_empty; [exact Hc|].
  simpl. destruct Hv as [-> | ->]; [|discriminate].
  destruct (computedReadsAllLoans s); discriminate.
Qed.

(** The flags set by the call do not matter to the query. *)
Lemma query_unevaluated_begin (s : Store) :
  query_unevaluated s -> query_unevaluated (loadInitialData_begin s).
Proof. intros Hq. exact Hq. Qed.

(** Steps that assign no dataset keep a coherent cache coherent. *)
Lemma query_correct_interleaved (events : list Event) (s : Store) :
  cache_coherent s ->
  forallb (fun e => negb (assigns_dataset e)) events = true ->
  cache_coherent (run_interleaved events s) /\
  view (run_interleaved events s) = uncachedQuery (run_interleaved events s).
Proof.
  intros Hs He.
  assert (Hc : cache_coherent (run_interleaved events s)).
  { apply (I_run_interleaved_same_dataset cache_coherent); try assumption.
    - intros s1 s2. apply cache_coherent_ext.
    - apply cache_coherent_refresh.
    - intros s1 (_ & _ & Hv). now apply cache_coherent_empty.
    - intros s1 f _. now apply cache_coherent_empty.
    - intros s1 st _. now apply cache_coherent_empty. }
  split; [exact Hc | now apply cache_coherent_view].
Qed.

(** X19.  A successful load, whatever the rest of the program did to the
    store while the request was pending, completes normally, installs the
    fetched dataset and clears the loading flag; it leaves the error state
    and the criteria as they were when it resumed.  If the store in which
    it resumes holds no cached result that could answer in place of the new
    dataset, the query then returns filter-then-sort of the fetched
    dataset, and from page 0 with a positive page size a non-empty result
    has its first page in the buffer.  In particular a load with nothing
    interleaved, called on a store that holds no cached result, leaves no
    error and a correct query. *)
Theorem loadInitialData_success (statusText : string) (data : list Loan) :
  (forall (s : Store) (meanwhile : list (Store -> Store)),
      let t := loadInitialData_async (fetched statusText data) s in
      let before := resumed_in t meanwhile s in
      let s' := snd (task_run t meanwhile) in
      fst (task_run t meanwhile) = Normal tt /\
      allLoans s' = data /\ isLoading s' = false /\
      error s' = error before /\
      filterState s' = filterState before /\
      sortState s' = sortState before) /\
  (forall (s : Store) (meanwhile : list (Store -> Store)),
      let t := loadInitialData_async (fetched statusText data) s in
      let before := resumed_in t meanwhile s in
      let s' := snd (task_run t meanwhile) in
      query_unevaluated before ->
      view s' = uncachedQuery s' /\
      (currentPage (paginationState before) = 0%nat ->
       (0 < pageSize (paginationState before))%nat -> view s' <> [] ->
       loadedLoans s' = take (pageSize (paginationState before)) (view s') /\
       loadedRowsCount (paginationState s') = length (loadedLoans s'))) /\
  (forall s : Store,
      query_unevaluated s ->
      let s' :=
        snd (task_run (loadInitialData_async (fetched statusText data) s)
                      []) in
      error s' = None /\ view s' = uncachedQuery s').
Proof.
  assert (Hview : forall before,
    view (set_isLoading false (loadNextPage (set_allLoans data before)))
    = view (set_allLoans data before)).
  { intros before. set (t := set_allLoans data before).
    destruct (loadNextPage_keeps t) as (_ & _ & _ & _ & _ & _ & <-).
    unfold view, filteredAndSortedLoans, filteredAndSortedLoans_getter.
    simpl. destruct (computedValue (loadNextPage t)); [reflexivity|].
    destruct (resultCache (loadNextPage t) !! _); reflexivity. }
  split; [|split].
  - intros s meanwhile. cbv zeta. rewrite loadInitialData_async_run.
    set (before := resumed_in _ meanwhile s).
    split; [apply loadInitialData_settle_normal|].
    rewrite loadInitialData_settle_fetched.
    set (t := set_allLoans data before).
    destruct (loadNextPage_keeps t) as (Ha & _ & He & Hst & Hf & _ & _).
    simpl. rewrite Ha, He, Hst, Hf. repeat split.
  - intros s meanwhile. cbv zeta. rewrite loadInitialData_async_run.
    set (before := resumed_in _ meanwhile s). intros Hq.
    pose proof (cache_coherent_settled statusText data before Hq) as Hc.
    split; [now apply cache_coherent_view|].
    intros Hcp Hps. rewrite loadInitialData_settle_fetched in *.
    rewrite Hview. intros Hne.
    apply (first_page_loaded (set_allLoans data before)); assumption.
  - intros s Hq. cbv zeta. rewrite loadInitialData_async_run.
    rewrite (proj2 (loadInitialData_async_uninterrupted _ s)).
    split.
    + rewrite loadInitialData_settle_fetched.
      set (t := set_allLoans data (loadInitialData_begin s)).
      destruct (loadNextPage_keeps t) as (_ & _ & He & _).
      simpl. rewrite He. reflexivity.
    + apply cache_coherent_view, cache_coherent_settled.
      now apply query_unevaluated_begin.
Qed.

(** X20.  Once a load has succeeded in a store that, when the load resumed,
    held no cached result, the cached query stays correct under every
    further sequence of steps that assign no new dataset (page loads,
    page-size, sort and filter changes, resets, cache clears, calls of
    further loads and their failures, interleaved in any order): the
    dataset is still the loaded one and the query returns filter-then-sort
    of it under the current criteria. *)
Theorem query_correct_after_load
    (statusText : string) (data : list Loan)
    (s0 : Store) (meanwhile : list (Store -> Store))
    (events : list Event) :
  let t := loadInitialData_async (fetched statusText data) s0 in
  query_unevaluated (resumed_in t meanwhile s0) ->
  forallb (fun e => negb (assigns_dataset e)) events = true ->
  let s := run_interleaved events (snd (task_run t meanwhile)) in
  allLoans s = data /\ view s = uncachedQuery s.
Proof.
  intros t Hq He. subst t. cbv zeta. rewrite loadInitialData_async_run.
  set (before := resumed_in _ meanwhile s0) in *.
  split.
  - apply (I_run_interleaved_same_dataset (fun s => allLoans s = data));
      try assumption.
    + intros s1 s2 E _ _ _ _ <-. exact E.
    + intros s1 <-. apply refresh_fields.
    + intros s1 <-. reflexivity.
    + intros s1 f <-. reflexivity.
    + intros s1 st <-. reflexivity.
    + rewrite loadInitialData_settle_fetched.
      set (t := set_allLoans data before).
      change (allLoans (loadNextPage t) = data).
      now destruct (loadNextPage_keeps t) as (-> & _).
  - apply query_correct_interleaved; [|exact He].
    now apply cache_coherent_settled.
Qed.

(** X21.  In every store reached from the initial one, whatever the actions
    and whatever the loads deliver, every cache entry is filed under the key
    of the current criteria, so the cache never holds more than one
    entry. *)
Theorem cache_at_most_one_entry (actions : list Action) :
  cache_keys_current (run actions initialStore) /\
  (size (resultCache (run actions initialStore)) <= 1)%nat.
Proof.
  split; [apply reachable_cache_keys_current | apply reachable_cache_size].
Qed.

Lemma handleSort_eq (col : SortableColumn) (s : Store) (d : SortDirection) :
  getSortDirection (sortState s) col = d ->
  handleSort col s = setSortState col (getNextSortDirection d) s.
Proof. unfold handleSort. now intros ->. Qed.

(** X22.  Clicking the header of a column that is not the sorted one (or
    is shown unsorted) cycles through ascending, descending and unsorted:
    after the first click the query returns the filtered dataset sorted
    ascending on that column, after the second sorted descending, and after
    the third the filtered dataset in its original order. *)
Theorem handleSort_cycle (col : SortableColumn) (s : Store) :
  getSortDirection (sortState s) col = NoDirection ->
  let s1 := handleSort col s in
  let s2 := handleSort col s1 in
  let s3 := handleSort col s2 in
  let filtered := filterLoans (allLoans s) (filterState s) in
  sortState s1 = mkSortState (Some col) Asc /\
  view s1 = sortLoans filtered (Some col) Asc /\
  sortState s2 = mkSortState (Some col) Desc /\
  view s2 = sortLoans filtered (Some col) Desc /\
  sortState s3 = mkSortState (Some col) NoDirection /\
  view s3 = filtered.
Proof.
  intros Hd. cbv zeta.
  assert (Hdir : forall d t, sortState t = mkSortState (Some col) d ->
                             getSortDirection (sortState t) col = d).
  { intros d t ->. unfold getSortDirection. simpl.
    now destruct (decide (Some col = Some col)). }
  rewrite (handleSort_eq col s NoDirection Hd). simpl getNextSortDirection.
  destruct (setSortState_fresh col Asc s) as (Hs1 & Hf1 & Ha1 & _ & Hv1).
  cbv zeta in *. set (s1 := setSortState col Asc s) in *.
  rewrite (handleSort_eq col s1 Asc (Hdir Asc s1 Hs1)).
  simpl getNextSortDirection.
  destruct (setSortState_fresh col Desc s1) as (Hs2 & Hf2 & Ha2 & _ & Hv2).
  cbv zeta in *. set (s2 := setSortState col Desc s1) in *.
  rewrite (handleSort_eq col s2 Desc (Hdir Desc s2 Hs2)).
  simpl getNextSortDirection.
  destruct (setSortState_fresh col NoDirection s2)
    as (Hs3 & Hf3 & Ha3 & _ & Hv3).
  cbv zeta in *. set (s3 := setSortState col NoDirection s2) in *.
  unfold uncachedQuery in *.
  rewrite Hs1, Hf1, Ha1 in Hv1. rewrite Hs2, Hf2, Ha2, Hf1, Ha1 in Hv2.
  rewrite Hs3, Hf3, Ha3, Hf2, Ha2, Hf1, Ha1 in Hv3.
  repeat split; assumption.
Qed.

(** X23.  Clearing all filters shows every record: after [setFilter] with
    the cleared criteria ([App.vue]'s and [LoanFilters.vue]'s
    [clearAllFilters]) the criteria impose nothing, and the query returns
    the whole dataset in the current sort order, every record exactly
    once. *)
Theorem clearAllFilters_shows_all (s : Store) :
  let s' := setFilter clearedFilters s in
  unconstrained (filterState s') /\
  view s' = sortLoans (allLoans s) (column (sortState s))
                      (direction (sortState s)) /\
  view s' ≡ₚ allLoans s /\
  totalFilteredCount s' = length (allLoans s).
Proof.
  cbv zeta.
  destruct (setFilter_fresh clearedFilters s) as (Hf & Hst & Ha & _ & Hv).
  cbv zeta in *.
  assert (Hu : unconstrained (filterState (setFilter clearedFilters s))).
  { rewrite Hf. unfold unconstrained. simpl. repeat split. now right. }
  assert (E : view (setFilter clearedFilters s)
              = sortLoans (allLoans s) (column (sortState s))
                          (direction (sortState s))).
  { rewrite Hv. unfold uncachedQuery.
    rewrite (filterLoans_unconstrained_id _ _ Hu), Ha, Hst. reflexivity. }
  split; [exact Hu|]. split; [exact E|].
  unfold totalFilteredCount. rewrite E.
  split; [apply sortLoans_perm | now rewrite sortLoans_perm].
Qed.

End QueryFurther.

(** ** [debounce] and [throttle] *)

Section RateLimiters.
Context {A : Type}.

Lemma run_events_app {St} (step : St -> TimerEvent A -> St * list A)
    (st : St) (e1 e2 : list (TimerEvent A)) :
  run_events step st (e1 ++ e2) =
  let '(st1, out1) := run_events step st e1 in
  let '(st2, out2) := run_events step st1 e2 in
  (st2, (out1 ++ out2)%list).
Proof.
  revert st. induction e1 as [|e e1 IH]; intros st; simpl.
  - now destruct (run_events step st e2).
  - destruct (step st e) as [st1 out1]. rewrite IH.
    destruct (run_events step st1 e1) as [st2 out2].
    destruct (run_events step st2 e2) as [st3 out3].
    now rewrite app_assoc.
Qed.

Lemma debounce_calls_only (timeout : option A) (xs : list A) (x : A) :
  run_events debounce_step timeout (map Call (xs ++ [x])) = (Some x, []).
Proof.
  revert timeout. induction xs as [|y xs IH]; intros timeout; simpl.
  - reflexivity.
  - now rewrite IH.
Qed.

Lemma debounce_delivers (timeout : option A) (events : list (TimerEvent A)) :
  let out := snd (run_events debounce_step timeout events) in
  sublist out ((match timeout with Some a => [a] | None => [] end)
               ++ called events)%list /\
  (length out <= fires events)%nat.
Proof.
  revert timeout. induction events as [|e events IH]; intros timeout.
  - simpl. split; [apply sublist_nil_l | lia].
  - destruct e as [args|]; simpl.
    + specialize (IH (Some args)). cbv zeta in IH.
      destruct (run_events debounce_step (Some args) events) as [st out].
      simpl in *. destruct IH as [Hs Hl]. split; [|exact Hl].
      destruct timeout; simpl; [now apply sublist_cons | exact Hs].
    + specialize (IH None). cbv zeta in IH.
      destruct timeout as [a|]; simpl;
        destruct (run_events debounce_step None events) as [st out];
        simpl in *; destruct IH as [Hs Hl].
      * split; [now apply sublist_skip | lia].
      * split; [exact Hs | lia].
Qed.

(** X24.  [debounce]: a burst of calls followed by the expiry of the timer
    makes one call of the wrapped function, with the arguments of the last
    call of the burst, whatever was pending before; and in every run from
    the idle state the calls made are, in order, among the arguments passed
    in, with at most one call per expiry. *)
Theorem debounce_latest_only :
  (forall (timeout : option A) (burst : list A) (last : A),
      run_events debounce_step timeout
                 (map Call (burst ++ [last]) ++ [TimerFires])
      = (None, [last])) /\
  (forall events : list (TimerEvent A),
      sublist (snd (run_events debounce_step None events)) (called events) /\
      (length (snd (run_events debounce_step None events))
       <= fires events)%nat).
Proof.
  split.
  - intros timeout burst last. rewrite run_events_app, debounce_calls_only.
    reflexivity.
  - intros events. apply (debounce_delivers None events).
Qed.

Lemma throttle_in_window (xs : list A) :
  run_events throttle_step true (map Call xs) = (true, []).
Proof.
  induction xs as [|x xs IH]; simpl; [reflexivity|]. now rewrite IH.
Qed.

Lemma throttle_delivers (inThrottle : bool) (events : list (TimerEvent A)) :
  let out := snd (run_events throttle_step inThrottle events) in
  sublist out (called events) /\
  (length out <= (if inThrottle then 0 else 1) + fires events)%nat.
Proof.
  revert inThrottle. induction events as [|e events IH]; intros inThrottle.
  - simpl. split; [constructor | lia].
  - destruct e as [args|]; simpl.
    + specialize (IH true). cbv zeta in IH.
      destruct inThrottle; simpl;
        destruct (run_events throttle_step true events) as [st out];
        simpl in *; destruct IH as [Hs Hl].
      * split; [now apply sublist_cons | lia].
      * split; [now apply sublist_skip | lia].
    + specialize (IH false). cbv zeta in IH.
      destruct (run_events throttle_step false events) as [st out].
      simpl in *. destruct IH as [Hs Hl]. split; [exact Hs|].
      destruct inThrottle; lia.
Qed.

(** X25.  [throttle]: from the idle state a burst of calls with no timer
    expiry in between calls the wrapped function once, at once and with the
    arguments of the first call; the later calls of the burst are dropped,
    not queued, so the last arguments of a burst are never delivered.  After
    the timer has expired the next call goes through again.  In every run
    from the idle state the calls made are, in order, among the arguments
    passed in, and there is at most one more than timer expiries. *)
Theorem throttle_first_only :
  (forall (first : A) (rest : list A),
      run_events throttle_step false (map Call (first :: rest))
      = (true, [first])) /\
  (forall (first next : A) (rest : list A),
      snd (run_events throttle_step false
             (map Call (first :: rest) ++ [TimerFires; Call next]))
      = [first; next]) /\
  (forall events : list (TimerEvent A),
      sublist (snd (run_events throttle_step false events)) (called events) /\
      (length (snd (run_events throttle_step false events))
       <= 1 + fires events)%nat).
Proof.
  split; [|split].
  - intros first rest. simpl. now rewrite throttle_in_window.
  - intros first next rest. rewrite run_events_app. simpl.
    now rewrite throttle_in_window.
  - intros events. apply (throttle_delivers false events).
Qed.

End RateLimiters.

(** ** Notifications *)

Lemma remove_first_id_absent (id : nat) (l : list Notification) :
  Forall (fun n => n_id n <> id) l -> remove_first_id id l = l.
Proof.
  induction 1 as [|n l Hn Hl IH]; simpl; [reflexivity|].
  rewrite (proj2 (Nat.eqb_neq _ _) Hn). now rewrite IH.
Qed.

Lemma remove_first_id_sorted (id : nat) (l : list Notification) :
  StronglySorted (fun a b => (n_id a < n_id b)%nat) l ->
  remove_first_id id l
  = List.filter (fun n => negb (Nat.eqb (n_id n) id)) l /\
  StronglySorted (fun a b => (n_id a < n_id b)%nat) (remove_first_id id l).
Proof.
  induction 1 as [|n l Hs IH Hn]; simpl; [split; [reflexivity|constructor]|].
  destruct IH as [IH1 IH2].
  destruct (Nat.eqb (n_id n) id) eqn:E; simpl.
  - apply Nat.eqb_eq in E. split; [|exact Hs].
    symmetry. clear IH1 IH2 Hs. induction Hn as [|m l Hm Hl IH]; simpl;
      [reflexivity|].
    rewrite (proj2 (Nat.eqb_neq (n_id m) id)) by lia. simpl. now rewrite IH.
  - split; [now rewrite IH1|]. constructor; [exact IH2|].
    rewrite IH1. clear -Hn. induction Hn as [|m l Hm Hl IH]; simpl;
      [constructor|].
    destruct (negb (Nat.eqb (n_id m) id)); [now constructor | exact IH].
Qed.

Lemma notifier_invariant (events : list NotifierEvent) :
  let st := fold_left notifier_step events initialNotifier in
  StronglySorted (fun a b => (n_id a < n_id b)%nat) (notifications st) /\
  Forall (fun n => (1 <= n_id n <= notificationId st)%nat) (notifications st).
Proof.
  cbv zeta. induction events as [|e events IH] using rev_ind.
  - simpl. split; constructor.
  - rewrite fold_left_app. simpl.
    set (st := fold_left notifier_step events initialNotifier) in *.
    destruct IH as [Hs Hb]. destruct e as [ty msg|id]; simpl.
    + split.
      * apply StronglySorted_app. split; [|split;
          [exact Hs | repeat constructor]].
        intros a b Ha Hb'. apply list_elem_of_singleton in Hb'. subst b.
        simpl. rewrite Forall_forall in Hb. specialize (Hb a Ha). lia.
      * apply Forall_app. split.
        -- eapply Forall_impl; [exact Hb|]. simpl. intros n Hn. lia.
        -- constructor; [simpl; lia | constructor].
    + destruct (remove_first_id_sorted id _ Hs) as [E Hs']. split;
        [exact Hs'|].
      rewrite E. clear -Hb. induction Hb as [|n l Hn Hl IH]; simpl;
        [constructor|].
      destruct (negb (Nat.eqb (n_id n) id)); [now constructor | exact IH].
Qed.

(** X26.  Notifications: after any sequence of additions and dismissals the
    ids of the listed notifications are strictly increasing, hence pairwise
    distinct, and none exceeds the counter; dismissing an id then removes
    the notification with that id and keeps all others in their order, and
    dismissing an id that is not listed (already dismissed, or never
    issued) changes nothing. *)
Theorem notifications_distinct_ids (events : list NotifierEvent) :
  let st := fold_left notifier_step events initialNotifier in
  StronglySorted (fun a b => (n_id a < n_id b)%nat) (notifications st) /\
  NoDup (map n_id (notifications st)) /\
  Forall (fun n => (n_id n <= notificationId st)%nat) (notifications st) /\
  (forall id,
      notifications (dismissNotification id st)
      = List.filter (fun n => negb (Nat.eqb (n_id n) id)) (notifications st)) /\
  (forall id,
      Forall (fun n => n_id n <> id) (notifications st) ->
      dismissNotification id st = st).
Proof.
  cbv zeta. destruct (notifier_invariant events) as [Hs Hb]. cbv zeta in *.
  set (st := fold_left notifier_step events initialNotifier) in *.
  split; [exact Hs|]. split; [|split; [|split]].
  - clear Hb. induction Hs as [|n l Hs IH Hn]; simpl; [constructor|].
    apply NoDup_cons. split; [|exact IH].
    intros Hin. apply list_elem_of_fmap in Hin as (m & E & Hm).
    rewrite Forall_forall in Hn. specialize (Hn m Hm). lia.
  - eapply Forall_impl; [exact Hb|]. simpl. intros n Hn. lia.
  - intros id. apply (remove_first_id_sorted id _ Hs).
  - intros id Habs. unfold dismissNotification.
    rewrite remove_first_id_absent by exact Habs. now destruct st.
Qed.

(** ** The further properties on concrete inputs *)

Section FurtherExamples.
#[local] Existing Instance ascii_LowerCase.

Lemma five_loans_distinct_ids : distinct_ids five_loans.
Proof.
  unfold distinct_ids. apply (bool_decide_unpack _). vm_compute. exact I.
Qed.

Lemma five_loans_shuffled_perm : five_loans ≡ₚ five_loans_shuffled.
Proof. exact (Permutation_rev five_loans). Qed.

Lemma sortLoans_desc_is_reversed_asc_witness :
  sortLoans five_loans (Some ColAmount) Desc
  = rev (sortLoans five_loans (Some ColAmount) Asc).
Proof.
  apply sortLoans_desc_is_reversed_asc.
  unfold distinct_ids. apply (bool_decide_unpack _). vm_compute. exact I.
Defined.

Lemma sortLoans_input_order_irrelevant_witness :
  sortLoans five_loans (Some ColAmount) Asc
  = sortLoans five_loans_shuffled (Some ColAmount) Asc.
Proof.
  apply sortLoans_input_order_irrelevant.
  - unfold distinct_ids. apply (bool_decide_unpack _). vm_compute. exact I.
  - exact (Permutation_rev five_loans).
  - discriminate.
Defined.

Lemma filterLoans_unconstrained_witness :
  filterLoans five_loans (filterState initialStore) = five_loans.
Proof.
  apply filterLoans_unconstrained. unfold unconstrained. simpl.
  repeat split. now right.
Defined.

Lemma visibleItems_bounded_witness :
  (Z.of_nat (length (Binary64.visibleItems default_scroll hundred_items))
   <= Qceiling (inject_Z 600 / inject_Z 60) + 2 * 5 + 2)%Z.
Proof.
  apply (visibleItems_bounded 60 600 5 120 hundred_items).
  - split; reflexivity.
  - lia.
  - lia.
  - lia.
  - reflexivity.
  - reflexivity.
Defined.

Lemma visibleItems_cover_viewport_witness :
  exists first last : Z,
    Binary64.calculateVisibleItems default_scroll (Binary64.of_Z 100)
    = Binary64.mkVisibleRange (Binary64.of_Z first) (Binary64.of_Z last) /\
    (first <= 5 <= last)%Z /\
    Binary64.visibleItems default_scroll hundred_items
      !! Z.to_nat (5 - first)
    = hundred_items !! 5%nat.
Proof.
  apply (visibleItems_cover_viewport 60 600 5 120 hundred_items 5).
  - split; reflexivity.
  - lia.
  - lia.
  - lia.
  - reflexivity.
  - split; [lia|reflexivity].
  - reflexivity.
  - lia.
  - lia.
Defined.

(** Outside integer geometry the rounding of the sum and of the quotients
    shows.  With rows of 2.3 pixels, a viewport of 55.199999999999996
    pixels (24 rows exactly) and a scroll offset of 13.799999999999997
    pixels, 37 rows are rendered, one more than [24 + 2 * 5 + 2].  With rows
    of 59.9 pixels and a scroll offset of 179.7 pixels, which lies below the
    top [3 * 59.9] of row 3, the window without overscan starts at row 3 and
    leaves row 2 out. *)
Example fractional_geometry_window :
  length (Binary64.visibleItems fractional_scroll hundred_items) = 37%nat /\
  (Qceiling (Binary64.value (Binary64.vs_containerHeight fractional_scroll)
             / Binary64.value (Binary64.vs_itemHeight fractional_scroll))
   + 2 * 5 + 2 = 36)%Z /\
  Binary64.startIndex
    (Binary64.calculateVisibleItems fractional_rows (Binary64.of_Z 100))
  = Binary64.of_Z 3 /\
  (Binary64.value (Binary64.vs_scrollTop fractional_rows)
   < 3 * Binary64.value (Binary64.vs_itemHeight fractional_rows))%Q.
Proof. vm_compute. repeat split; reflexivity. Qed.



Lemma rendered_block_within_body_witness :
  Binary64.totalHeight default_scroll hundred_items = Binary64.of_Z 6000.
Proof.
  refine (proj1 (rendered_block_within_body 60 600 5 120 hundred_items
                   _ _ _ _ _ _)).
  - split; reflexivity.
  - lia.
  - lia.
  - split; [lia|vm_compute; discriminate].
  - reflexivity.
  - reflexivity.
Defined.

Lemma loadNextPage_repeated_witness :
  loadedLoans (Nat.iter 3 loadNextPage store_sixty) = view store_sixty.
Proof.
  refine (proj1 (proj2 (proj2 (proj2
    (loadNextPage_repeated store_sixty 3 _ _ _ _))) _)).
  - reflexivity.
  - simpl. lia.
  - vm_compute. discriminate.
  - lia.
  - vm_compute. lia.
Defined.

Lemma hasMoreData_loadNextPage_witness :
  (length (loadedLoans store_sixty_paged)
   < length (loadedLoans (loadNextPage store_sixty_paged)))%nat.
Proof.
  refine (proj1 (proj1 (hasMoreData_loadNextPage store_sixty_paged _ _) _)).
  - split; vm_compute; reflexivity.
  - vm_compute. lia.
  - vm_compute. reflexivity.
Defined.

Lemma setPageSize_first_page_witness :
  loadedLoans (setPageSize 25 store_sixty)
  = take 25 (view (setPageSize 25 store_sixty)).
Proof.
  refine (proj1 (proj2 (proj2 (setPageSize_first_page 25 store_sixty _)))).
  lia.
Defined.

Lemma criteria_change_refreshes_witness :
  loadedLoans (setFilter clearedFilters store_sixty)
  = take 25 (view (setFilter clearedFilters store_sixty)).
Proof.
  refine (proj2 (proj2 (proj2 (proj2
    (proj1 (criteria_change_refreshes store_sixty) clearedFilters)))) _ _).
  - vm_compute. discriminate.
  - vm_compute. lia.
Defined.

Lemma loadInitialData_success_witness :
  let s' :=
    snd (task_run
           (loadInitialData_async (fetched "OK" [loan_ann; loan_bob])
                                  initialStore)
           [search_then_clear]) in
  view s' = uncachedQuery s'.
Proof.
  refine (proj1 (proj1 (proj2 (loadInitialData_success
                                 "OK" [loan_ann; loan_bob]))
                   initialStore [search_then_clear] _)).
  split; [reflexivity | right; reflexivity].
Defined.

(** When the condition fails: a filter change while the request is pending
    is answered from the still empty dataset and cached; the load resumes on
    that cache, and the query keeps returning the cached empty result
    although the fetched dataset holds a matching record. *)
Example stale_view_after_filter_change_while_loading :
  let s' :=
    snd (task_run
           (loadInitialData_async (fetched "OK" [loan_ann; loan_bob])
                                  initialStore)
           [search_meanwhile]) in
  allLoans s' = [loan_ann; loan_bob] /\
  uncachedQuery s' = [loan_ann] /\
  view s' = [] /\ loadedLoans s' = [].
Proof. vm_compute. repeat split; reflexivity. Qed.

Lemma query_correct_after_load_witness :
  let loaded :=
    snd (task_run
           (loadInitialData_async (fetched "OK" [loan_ann; loan_bob])
                                  initialStore)
           []) in
  view (run_interleaved browsing_events loaded)
  = uncachedQuery (run_interleaved browsing_events loaded).
Proof.
  refine (proj2 (query_correct_after_load "OK" [loan_ann; loan_bob]
                   initialStore [] browsing_events _ _)).
  - split; [reflexivity | now left].
  - reflexivity.
Defined.

Lemma handleSort_cycle_witness :
  view (handleSort ColAmount
          (handleSort ColAmount (handleSort ColAmount store_loaded_two)))
  = filterLoans (allLoans store_loaded_two) (filterState store_loaded_two).
Proof.
  refine (proj2 (proj2 (proj2 (proj2 (proj2
    (handleSort_cycle ColAmount store_loaded_two _)))))).
  reflexivity.
Defined.

End FurtherExamples.
